(** * Lip-sync core: word timings to viseme envelopes

    A shallow embedding of the avatar lip-sync engine:

    - [hooks/constantsLipsync]  the shared refs (anchor, queues, dedup set);
    - [avatarFeature/phonemeConvert]  Normalizer, Tokenizer/Resolver,
      Allocator and Curator ([normalizeWordsToAbsolute], [tokenizeIPA],
      [resolveTokenToVisemes], [compressTokens], [wordToVisemeEvents],
      [decimateTimeline], [pushWordsToTimeline], [onWordTiming]);
    - [hooksChat/UseTTS]  the playback-start / playback-stop handlers;
    - [avatarFeature/AvatarLipSync]  the per-frame Scheduler.

    Conventions of the embedding.

    - A JavaScript string is the list of its UTF-16 code units ([jsstr]);
      literals are written as in the source and decoded by [js].
    - A JavaScript number that has passed [Number.isFinite] is a rational
      ([Q]): arithmetic is exact, binary64 rounding is not part of this
      model.  What is proved over it concerns the branches, bounds and
      orderings of the code; where the rounding of a sum decides a
      statement, the code is embedded once more on binary64 floats (module
      [Binary64], over the primitive floats of the Standard Library).
      The non-finite values that the source mentions explicitly are kept:
      raw wire input is a [jsnum], [-Infinity] / [Infinity] sentinels are
      [option] values.
    - The module-level refs form one record, [Refs], threaded through the
      handlers; every handler is a total function on it (the event loop runs
      one handler to completion before the next).
    - Plain-object tables ([C_MAP], [V_MAP], ...) are finite maps over their
      own keys.  Inherited [Object.prototype] members are outside the model
      ([objectPrototypeMembers] lists their names): the keys looked up in
      the pipeline are phoneme tokens of at most two characters and viseme
      names, none of which names such a member.
    - The Unicode character database (NFC normalisation, general category
      [M]) is a parameter, [UnicodeData]. *)

From Stdlib Require Import ZArith NArith QArith Qminmax Qround Lqa Lia.
From Stdlib Require Import List String Ascii Bool DecimalString.
From Stdlib Require PrimFloat.
From stdpp Require Import base gmap sorting.
Import ListNotations.

Local Open Scope Q_scope.

(* ===================================================================== *)
(** ** JavaScript strings *)
(* ===================================================================== *)

Abbreviation jsstr := (list N).

(** Decoder for the literals of this file: UTF-8 bytes to UTF-16 code
    units (a four-byte sequence yields a surrogate pair). *)
Fixpoint utf16_of_utf8 (bs : list N) : jsstr :=
  match bs with
  | [] => []
  | b0 :: r0 =>
      if (b0 <? 0x80)%N then b0 :: utf16_of_utf8 r0
      else
        match r0 with
        | [] => [b0]
        | b1 :: r1 =>
            if (b0 <? 0xE0)%N
            then ((b0 mod 0x20) * 0x40 + b1 mod 0x40)%N :: utf16_of_utf8 r1
            else
              match r1 with
              | [] => [b0; b1]
              | b2 :: r2 =>
                  if (b0 <? 0xF0)%N
                  then ((b0 mod 0x10) * 0x1000 + (b1 mod 0x40) * 0x40
                        + b2 mod 0x40)%N :: utf16_of_utf8 r2
                  else
                    match r2 with
                    | [] => [b0; b1; b2]
                    | b3 :: r3 =>
                        let cp := ((b0 mod 0x08) * 0x40000
                                   + (b1 mod 0x40) * 0x1000
                                   + (b2 mod 0x40) * 0x40 + b3 mod 0x40)%N in
                        let v := (cp - 0x10000)%N in
                        (0xD800 + v / 0x400)%N :: (0xDC00 + v mod 0x400)%N
                          :: utf16_of_utf8 r3
                    end
              end
        end
  end.

Definition js (s : string) : jsstr :=
  utf16_of_utf8 (map N_of_ascii (list_ascii_of_string s)).

Definition str_eqb (a b : jsstr) : bool := bool_decide (a = b).

(** [\s] of an ECMAScript regular expression, also what [trim] strips. *)
Definition isWhiteSpace (c : N) : bool :=
  ((0x09 <=? c) && (c <=? 0x0D) || (c =? 0x20) || (c =? 0xA0) || (c =? 0x1680)
   || (0x2000 <=? c) && (c <=? 0x200A) || (c =? 0x2028) || (c =? 0x2029)
   || (c =? 0x202F) || (c =? 0x205F) || (c =? 0x3000) || (c =? 0xFEFF))%N.

Definition charIn (set : string) (c : N) : bool :=
  bool_decide (c ∈ js set).

Fixpoint dropLeading (f : N -> bool) (s : jsstr) : jsstr :=
  match s with
  | [] => []
  | c :: r => if f c then dropLeading f r else s
  end.

Definition trim (s : jsstr) : jsstr :=
  rev (dropLeading isWhiteSpace (rev (dropLeading isWhiteSpace s))).

(** [s.replace(/c/g, r)] for a one-character pattern [c]. *)
Definition replaceChar (c : jsstr) (r : jsstr) (s : jsstr) : jsstr :=
  flat_map (fun x => if str_eqb [x] c then r else [x]) s.

(** [s.replace(/[...]/g, "")] and [s.replace(/[...]+/g, "")] for a
    character class given as a predicate. *)
Definition removeChars (f : N -> bool) (s : jsstr) : jsstr :=
  filter (fun x => negb (f x)) s.

(** The Unicode tables the runtime supplies: [String.prototype.normalize]
    with form NFC, and membership of a code point in general category [M]
    ([\p{M}] under the [u] flag). *)
Class UnicodeData : Type := {
  normalizeNFC : jsstr -> jsstr;
  isMark : N -> bool
}.

(** An instance for text that is already composed (NFC leaves it as it is)
    and whose marks, if any, come from the combining-diacritics blocks of
    the Basic Multilingual Plane; plain IPA transcriptions are such text. *)
Definition combiningBlocks (cp : N) : bool :=
  ((0x0300 <=? cp) && (cp <=? 0x036F) || (0x1AB0 <=? cp) && (cp <=? 0x1AFF)
   || (0x1DC0 <=? cp) && (cp <=? 0x1DFF) || (0x20D0 <=? cp) && (cp <=? 0x20FF)
   || (0xFE20 <=? cp) && (cp <=? 0xFE2F))%N.

Definition composedText : UnicodeData :=
  {| normalizeNFC := fun s => s; isMark := combiningBlocks |}.

(** [s.replace(/\p{M}+/gu, "")]: with the [u] flag the pattern runs over
    code points, so a surrogate pair is tested (and removed) as one. *)
Fixpoint stripMarks {U : UnicodeData} (s : jsstr) : jsstr :=
  match s with
  | [] => []
  | hi :: r =>
      match r with
      | lo :: r' =>
          if ((0xD800 <=? hi) && (hi <=? 0xDBFF)
              && (0xDC00 <=? lo) && (lo <=? 0xDFFF))%N
          then
            let cp := (0x10000 + (hi - 0xD800) * 0x400 + (lo - 0xDC00))%N in
            if isMark cp then stripMarks r' else hi :: lo :: stripMarks r'
          else if isMark hi then stripMarks r else hi :: stripMarks r
      | [] => if isMark hi then [] else [hi]
      end
  end.

(* ===================================================================== *)
(** ** Numbers and the shared data model ([constantsLipsync]) *)
(* ===================================================================== *)

Definition Qlt_bool (a b : Q) : bool := negb (Qle_bool b a).

(** [n] as a number, for [array.length] used in arithmetic. *)
Definition ofNat (n : nat) : Q := inject_Z (Z.of_nat n).

(** A number as it arrives on the wire, before [Number.isFinite]. *)
Inductive jsnum : Type :=
| Finite (q : Q)
| NaN
| PosInfinity
| NegInfinity.

(** [WordTiming] as delivered: [{ word, phoneme, start, end }]. *)
Record RawWordTiming : Type := {
  r_word : jsstr;
  r_phoneme : jsstr;
  r_start : jsnum;
  r_end : jsnum
}.

(** [WordTiming] once its times are known to be finite. *)
Record WordTiming : Type := {
  w_word : jsstr;
  w_phoneme : jsstr;
  w_start : Q;
  w_end : Q
}.

(** [VisemeEvent]: [{ at, name, duration, peak?, attack?, decay? }]. *)
Record VisemeEvent : Type := {
  ev_at : Q;
  ev_name : jsstr;
  ev_duration : Q;
  ev_peak : option Q;
  ev_attack : option Q;
  ev_decay : option Q
}.

(** [ActiveEnv]: [{ name, timeLeft, total, peak, attack, decay }]. *)
Record ActiveEnv : Type := {
  env_name : jsstr;
  env_timeLeft : Q;
  env_total : Q;
  env_peak : Q;
  env_attack : Q;
  env_decay : Q
}.

(** [segStateRef.current]. *)
Record SegState : Type := {
  segOffset : Q;
  lastAbsEnd : Q
}.

(** The module-level refs: [t0Ref], [segStateRef], [wordQueueRef],
    [pendingEventsRef], [activeEnvelopesRef], [seenEventsRef].
    [t0Ref.current] is [None] for [null]. *)
Record Refs : Type := {
  t0Ref : option Q;
  segStateRef : SegState;
  wordQueueRef : list WordTiming;
  pendingEventsRef : list VisemeEvent;
  activeEnvelopesRef : list ActiveEnv;
  seenEventsRef : gset jsstr
}.

Definition outputLatencySec : Q := 0.

(** The refs as the module initialises them. *)
Definition initialRefs : Refs := {|
  t0Ref := None;
  segStateRef := {| segOffset := 0; lastAbsEnd := 0 |};
  wordQueueRef := [];
  pendingEventsRef := [];
  activeEnvelopesRef := [];
  seenEventsRef := ∅
|}.

(** [array.sort((a, b) => key(a) - key(b))]: the sort is stable, so for a
    numeric key its result is the one of a stable insertion sort. *)
Fixpoint insertByKey {A : Type} (key : A -> Q) (x : A) (l : list A) : list A :=
  match l with
  | [] => [x]
  | y :: r => if Qle_bool (key x) (key y) then x :: l
              else y :: insertByKey key x r
  end.

Definition sortByKey {A : Type} (key : A -> Q) (l : list A) : list A :=
  foldr (insertByKey key) [] l.

(* ===================================================================== *)
(** ** Phoneme Tokenizer and Viseme Resolver *)
(* ===================================================================== *)

(** Consonants *)
Definition C_MAP : gmap jsstr jsstr := list_to_map [
  (js "p", js "viseme_PP"); (js "b", js "viseme_PP"); (js "m", js "viseme_PP");
  (js "f", js "viseme_FF"); (js "v", js "viseme_FF");
  (js "t", js "viseme_DD"); (js "d", js "viseme_DD"); (js "ɾ", js "viseme_DD");
  (js "ʔ", js "viseme_DD");
  (js "s", js "viseme_SS"); (js "z", js "viseme_SS"); (js "ʃ", js "viseme_SS");
  (js "ʒ", js "viseme_SS");
  (js "tʃ", js "viseme_CH"); (js "dʒ", js "viseme_CH");
  (js "k", js "viseme_kk"); (js "g", js "viseme_kk");
  (js "n", js "viseme_nn"); (js "ŋ", js "viseme_nn");
  (js "l", js "viseme_RR"); (js "r", js "viseme_RR"); (js "ɹ", js "viseme_RR");
  (js "θ", js "viseme_TH"); (js "ð", js "viseme_TH");
  (js "w", js "viseme_U"); (js "j", js "viseme_I"); (js "h", js "viseme_E")
].

(** Vowels *)
Definition V_MAP : gmap jsstr jsstr := list_to_map [
  (js "a", js "viseme_aa"); (js "æ", js "viseme_aa"); (js "ɑ", js "viseme_aa");
  (js "ɐ", js "viseme_aa"); (js "ɒ", js "viseme_aa");
  (js "e", js "viseme_E"); (js "ɛ", js "viseme_E");
  (js "i", js "viseme_I"); (js "ɪ", js "viseme_I");
  (js "o", js "viseme_O"); (js "ɔ", js "viseme_O");
  (js "u", js "viseme_U"); (js "ʊ", js "viseme_U");
  (js "ə", js "viseme_E"); (js "ʌ", js "viseme_E"); (js "ɚ", js "viseme_E");
  (js "ɝ", js "viseme_E")
].

(** Diphthongs and affricates: the two-character tokens. *)
Definition DIPHTHONGS : gset jsstr := list_to_set [
  js "aɪ"; js "eɪ"; js "oʊ"; js "aʊ"; js "ɔɪ";
  js "ɪə"; js "eə"; js "ʊə";
  js "tʃ"; js "dʒ"
].

Definition KOKORO_UPPER_FIXES : gmap jsstr jsstr := list_to_map [
  (js "O", js "o"); (js "W", js "w"); (js "A", js "a"); (js "E", js "e");
  (js "I", js "i"); (js "U", js "u"); (js "Y", js "y")
].

Definition VOWELS : gset jsstr := list_to_set [
  js "a"; js "æ"; js "ɑ"; js "ɐ"; js "ɒ"; js "e"; js "ɛ"; js "i"; js "ɪ";
  js "o"; js "ɔ"; js "u"; js "ʊ"; js "ə"; js "ʌ"; js "ɜ"; js "ɚ"; js "ɝ"
].

Definition RHOTICS : gset jsstr := list_to_set [js "r"; js "ɹ"].

(** [set.has(x)] and the truthiness test [!!table[x]] (every value of the
    tables is a non-empty string). *)
Definition has (set : gset jsstr) (x : jsstr) : bool := bool_decide (x ∈ set).
Definition truthy (table : gmap jsstr jsstr) (x : jsstr) : bool :=
  bool_decide (is_Some (table !! x)).

Definition isUpperAZ (c : N) : bool := ((0x41 <=? c) && (c <=? 0x5A))%N.

(** [m.toLowerCase()] for a match of [/[A-Z]/]. *)
Definition toLowerAZ (c : N) : jsstr := [(c + 0x20)%N].

Definition normalizePhonemeString {U : UnicodeData} (s : jsstr) : jsstr :=
  match s with
  | [] => []
  | _ =>
      (* 1) NFC *)
      let out := normalizeNFC s in
      (* 2) known quirks and ASCII variants *)
      let out := replaceChar (js "ɡ") (js "g") out in
      let out := replaceChar (js "ʧ") (js "tʃ") out in
      let out := replaceChar (js "ʤ") (js "dʒ") out in
      (* 3) r-coloured vowels become vowel + rhotic *)
      let out := replaceChar (js "ɚ") (js "əɹ") out in
      let out := replaceChar (js "ɝ") (js "ɜɹ") out in
      (* 4) stress marks, syllable dots, length mark *)
      let out := removeChars (charIn "ˈˌ.") out in
      let out := removeChars (charIn "ː") out in
      (* 5) tie bars *)
      let out := removeChars (fun c => (c =? 0x0361)%N || (c =? 0x035C)%N) out in
      (* 6) generic combining diacritics *)
      let out := stripMarks out in
      (* 7) upper-case letters *)
      let out := flat_map (fun c =>
                   if isUpperAZ c
                   then default (toLowerAZ c) (KOKORO_UPPER_FIXES !! [c])
                   else [c]) out in
      (* 8) spaces *)
      trim (removeChars isWhiteSpace out)
  end.

(** The loop of [tokenizeIPA]: [ch] is [str[i]], [next] is [str[i + 1]]
    ([undefined] at the last character, where [two] is the empty string). *)
Fixpoint tokenizeLoop (str : jsstr) : list jsstr :=
  match str with
  | [] => []
  | ch :: rest =>
      match rest with
      | next :: rest' =>
          if has DIPHTHONGS [ch; next] then [ch; next] :: tokenizeLoop rest'
          else if has VOWELS [ch] && has RHOTICS [next]
          then [ch; next] :: tokenizeLoop rest'
          else if isWhiteSpace ch || charIn ",;:!?-" ch then tokenizeLoop rest
          else [ch] :: tokenizeLoop rest
      | [] =>
          if isWhiteSpace ch || charIn ",;:!?-" ch then []
          else [[ch]]
      end
  end.

Definition tokenizeIPA {U : UnicodeData} (s : jsstr) : list jsstr :=
  tokenizeLoop (normalizePhonemeString s).

(** [C_MAP[token]] and [V_MAP[token]] are lookups among the own keys of
    the tables; for a token that names an inherited member
    ([objectPrototypeMembers]) the code finds that member instead. *)
Definition resolveTokenToVisemes (token : jsstr) : list jsstr :=
  let diph :=
    if has DIPHTHONGS token then
      if str_eqb token (js "tʃ") then Some [js "viseme_CH"]
      else if str_eqb token (js "dʒ") then Some [js "viseme_CH"]
      else
        match V_MAP !! (take 1 token), V_MAP !! (take 1 (drop 1 token)) with
        | Some a, Some b => Some [a; b]
        | _, _ => None
        end
    else None in
  match diph with
  | Some names => names
  | None =>
      let rhotic :=
        if (length token =? 2)%nat && has VOWELS (take 1 token)
           && has RHOTICS (take 1 (drop 1 token))
        then match V_MAP !! (take 1 token) with
             | Some v => Some [v; js "viseme_RR"]
             | None => None
             end
        else None in
      match rhotic with
      | Some names => names
      | None =>
          match C_MAP !! token with
          | Some c => [c]
          | None =>
              match V_MAP !! token with
              | Some v => [v]
              | None => [js "viseme_E"]
              end
          end
      end
  end.

(* ===================================================================== *)
(** ** Event Timing Allocator *)
(* ===================================================================== *)

Definition MIN_SLOT : Q := 0.10.
Definition WORD_EVENT_CAP : nat := 4.
Definition KEEP_AT_LEAST : nat := 2.
Definition MIN_DUR : Q := 0.08.
Definition MAX_DUR : Q := 0.18.
Definition ATTACK : Q := 0.03.
Definition DECAY : Q := 0.04.
Definition SPLIT_OVERLAP : Q := 0.9.

Definition DROPPABLE : gset jsstr := list_to_set [js "h"; js "ɾ"; js "ʔ"].
Definition LABIALS : gset jsstr := list_to_set [js "p"; js "b"; js "m"].
Definition AFFRIC : gset jsstr := list_to_set [js "tʃ"; js "dʒ"].
Definition SIBILANTS : gset jsstr :=
  list_to_set [js "s"; js "z"; js "ʃ"; js "ʒ"; js "f"; js "v"; js "θ"; js "ð"].
Definition LIQUIDS : gset jsstr := list_to_set [js "l"; js "r"; js "ɹ"].
Definition NASALS : gset jsstr := list_to_set [js "n"; js "ŋ"].

(** [t[0]] and [t[1]] as strings; the empty string stands for [undefined]
    (neither is a key of a table nor equal to a character). *)
Definition charAt0 (t : jsstr) : jsstr := take 1 t.
Definition charAt1 (t : jsstr) : jsstr := take 1 (drop 1 t).

Definition isVowelToken (t : jsstr) : bool :=
  truthy V_MAP t
  || (truthy V_MAP (charAt0 t)
      && ((length t =? 1)%nat || str_eqb (charAt1 t) (js "ɹ")
          || str_eqb (charAt1 t) (js "r"))).

Definition tokenPriority (t : jsstr) : Q :=
  if has AFFRIC t then 3.0
  else if isVowelToken t then 3.0
  else if has LABIALS t then 2.5
  else if has SIBILANTS t then 1.8
  else if has NASALS t then 1.6
  else if has LIQUIDS t then 1.4
  else if truthy C_MAP t then 1.7
  else 1.0.

(** The inner [for] of step 3: [best] starts at [Infinity] ([None]),
    [dropIdx] at [-1] ([None]); the comparison is strict, so the first
    token of lowest score is selected. *)
Fixpoint scanLowest (i : nat) (out : list jsstr)
    (best : option Q) (dropIdx : option nat) : option nat :=
  match out with
  | [] => dropIdx
  | t :: r =>
      let score := tokenPriority t + (if isVowelToken t then 100 else 0) in
      let lower := match best with
                   | None => true
                   | Some b => Qlt_bool score b
                   end in
      if lower then scanLowest (S i) r (Some score) (Some i)
      else scanLowest (S i) r best dropIdx
  end.

(** The [while (out.length > target)] loop of step 3; every iteration
    removes one token, so [length out] iterations are enough
    ([dropLoop_exits]). *)
Fixpoint dropLoop (fuel : nat) (target : Z) (out : list jsstr) : list jsstr :=
  match fuel with
  | O => out
  | S fuel' =>
      if (target <? Z.of_nat (length out))%Z then
        match scanLowest 0 out None None with
        | None => out
        | Some dropIdx => dropLoop fuel' target (delete dropIdx out)
        end
      else out
  end.

(** In step 1 the callback of [filter] reads [out.length] while [out] is
    still bound to the unfiltered array: the assignment to [out] happens
    after [filter] returns. *)
Definition compressTokens (tokens : list jsstr) (span : Q) : list jsstr :=
  match tokens with
  | [] => tokens
  | _ =>
      let currentSlot := span / ofNat (length tokens) in
      if Qle_bool MIN_SLOT currentSlot && (length tokens <=? WORD_EVENT_CAP)%nat
      then tokens
      else
        let out := tokens in
        (* 1) drop weak phones first *)
        let out :=
          if (KEEP_AT_LEAST <? length out)%nat
          then filter (fun t => negb (has DROPPABLE t
                                      && (KEEP_AT_LEAST <? length out)%nat)) out
          else out in
        (* 2) target count from time and hard cap *)
        let targetByTime :=
          Z.max (Z.of_nat KEEP_AT_LEAST) (Qceiling (span / MIN_SLOT)) in
        let target := Z.min (Z.of_nat WORD_EVENT_CAP) targetByTime in
        (* 3) remove lowest-priority tokens *)
        dropLoop (length out) target out
  end.

Definition mkEvent (at_ : Q) (name : jsstr) (duration : Q) : VisemeEvent :=
  {| ev_at := at_; ev_name := name; ev_duration := duration;
     ev_peak := Some 1; ev_attack := Some ATTACK; ev_decay := Some DECAY |}.

(** The events of token [i] of a word. *)
Definition tokenEvents (w : WordTiming) (slot : Q) (i : nat) (t : jsstr)
    : list VisemeEvent :=
  let base := w_start w + ofNat i * slot in
  let end_ := Qmin (w_end w) (base + slot) in
  let names := resolveTokenToVisemes t in
  let names := match names with [] => [js "viseme_E"] | _ => names end in
  match names with
  | [name0] =>
      let dur := Qmax MIN_DUR (Qmin MAX_DUR (end_ - base)) in
      if Qlt_bool 0 dur then [mkEvent base name0 dur] else []
  | name0 :: name1 :: _ =>
      let half := (end_ - base) / 2 in
      let durHalf := Qmax (MIN_DUR * 0.75) (Qmin (MAX_DUR * 0.75) half) in
      if Qlt_bool 0 durHalf
      then [mkEvent base name0 durHalf;
            mkEvent (base + half * SPLIT_OVERLAP) name1 durHalf]
      else []
  | [] => []
  end.

Fixpoint allocLoop (w : WordTiming) (slot : Q) (i : nat) (tokens : list jsstr)
    : list VisemeEvent :=
  match tokens with
  | [] => []
  | t :: r => tokenEvents w slot i t ++ allocLoop w slot (S i) r
  end.

(** The final clamp of [at] into the word span ([at] is finite here). *)
Definition clampAt (w : WordTiming) (e : VisemeEvent) : VisemeEvent :=
  let at1 := if Qlt_bool (ev_at e) (w_start w) then w_start w else ev_at e in
  let at2 := if Qlt_bool (w_end w) at1 then w_end w else at1 in
  {| ev_at := at2; ev_name := ev_name e; ev_duration := ev_duration e;
     ev_peak := ev_peak e; ev_attack := ev_attack e; ev_decay := ev_decay e |}.

(** [span] is a difference of finite times, so the [Number.isFinite(span)]
    test holds.  [slot] is only read inside the loop over [tokens]; when
    [compressTokens] returns no token the loop body never runs (and [slot],
    [Infinity] in the source, is not used). *)
Definition wordToVisemeEvents {U : UnicodeData} (w : WordTiming)
    : list VisemeEvent :=
  let tokensRaw := tokenizeIPA (w_phoneme w) in
  let span := Qmax 0 (w_end w - w_start w) in
  if (length tokensRaw =? 0)%nat || Qle_bool span 0 then []
  else
    let tokens := compressTokens tokensRaw span in
    let slot := Qmax MIN_SLOT (span / ofNat (length tokens)) in
    let evs := allocLoop w slot 0 tokens in
    map (clampAt w) evs.

(* ===================================================================== *)
(** ** Absolute-Time Normalizer *)
(* ===================================================================== *)

Definition EPS : Q := 0.005.
Definition GAP_PAD : Q := 0.03.
Definition HARD_RESET_BACKSTEP : Q := 0.8.

(** [Number.isFinite(w.start) && Number.isFinite(w.end)], followed by the
    [map] that rebuilds the word around its (finite) times. *)
Definition finiteWord (w : RawWordTiming) : option WordTiming :=
  match r_start w, r_end w with
  | Finite s, Finite e =>
      Some {| w_word := r_word w; w_phoneme := r_phoneme w;
              w_start := s; w_end := e |}
  | _, _ => None
  end.

Definition sanitize (words : list RawWordTiming) : list WordTiming :=
  filter (fun w => Qle_bool (w_start w) (w_end w)) (omap finiteWord words).

(** [Math.min(...xs)] and [Math.max(...xs)] of a non-empty array. *)
Definition minOf (x : Q) (xs : list Q) : Q := fold_left Qmin xs x.
Definition maxOf (x : Q) (xs : list Q) : Q := fold_left Qmax xs x.

(** [localMin] and [localMax] of the clean batch [c :: cs]. *)
Definition localMinOf (c : WordTiming) (cs : list WordTiming) : Q :=
  minOf (w_start c) (map w_start cs).
Definition localMaxOf (c : WordTiming) (cs : list WordTiming) : Q :=
  maxOf (w_end c) (map w_end cs).

(** The callback of the [map] that builds [adjusted].  The two sums are
    exact here; the code rounds each of them on its own
    ([Binary64.shiftWord]). *)
Definition shiftWord (offset : Q) (w : WordTiming) : WordTiming :=
  {| w_word := w_word w; w_phoneme := w_phoneme w;
     w_start := w_start w + offset; w_end := w_end w + offset |}.

Definition normalizeWordsToAbsolute (seg : SegState) (words : list RawWordTiming)
    : list WordTiming * SegState :=
  match words with
  | [] => ([], seg)
  | _ =>
      match sanitize words with
      | [] => ([], seg)
      | c :: cs =>
          let clean := c :: cs in
          let localMin := localMinOf c cs in
          let localMax := localMaxOf c cs in
          let candAbsMin := segOffset seg + localMin in
          let segOffset' :=
            if Qlt_bool (candAbsMin + EPS) (lastAbsEnd seg) then
              let backstep := lastAbsEnd seg - candAbsMin in
              if Qlt_bool HARD_RESET_BACKSTEP backstep
              then lastAbsEnd seg + GAP_PAD
              else segOffset seg + (backstep + GAP_PAD)
            else segOffset seg in
          let adjusted := map (shiftWord segOffset') clean in
          (adjusted,
           {| segOffset := segOffset';
              lastAbsEnd := Qmax (lastAbsEnd seg) (segOffset' + localMax) |})
      end
  end.

(* ===================================================================== *)
(** ** Timeline Curator *)
(* ===================================================================== *)

Definition BUCKET : Q := 0.01.

(** [Math.round(x)]: the nearest integer, ties towards [+Infinity]. *)
Definition mathRound (x : Q) : Z := Qfloor (x + (1 # 2)).

Definition bucketTimeSec (t : Q) : Q := inject_Z (mathRound (t / BUCKET)) * BUCKET.

Definition digitsOf (n : N) : jsstr :=
  map N_of_ascii (list_ascii_of_string (NilZero.string_of_uint (N.to_uint n))).

(** [x.toFixed(f)] for [|x| < 1e21]: sign, then the integer [n] nearest to
    [|x| * 10^f] (the larger one on a tie), printed with [f] decimals. *)
Definition toFixed (x : Q) (f : nat) : jsstr :=
  let neg := Qlt_bool x 0 in
  let ax := if neg then - x else x in
  let n := Z.to_N (Qfloor (ax * inject_Z (10 ^ Z.of_nat f) + (1 # 2))) in
  let m := digitsOf n in
  let m := repeat 0x30%N (f + 1 - length m) ++ m in
  let k := length m in
  (if neg then js "-" else [])
  ++ take (k - f) m
  ++ (if (f =? 0)%nat then [] else js "." ++ drop (k - f) m).

Definition makeEventKey (ev : VisemeEvent) : jsstr :=
  ev_name ev ++ js "@" ++ toFixed (bucketTimeSec (ev_at ev)) 2.

Definition MAX_VIS_CHANGES_PER_SEC : Q := 10.
Definition MIN_EVENT_GAP : Q := 1 / MAX_VIS_CHANGES_PER_SEC.
Definition MERGE_SAME_GAP : Q := 0.05.

(** One iteration of the merge loop; [merged] is the array built so far and
    [last] its final element, updated in place when [e] continues it. *)
Definition mergeStep (merged : list VisemeEvent) (e : VisemeEvent)
    : list VisemeEvent :=
  match last merged with
  | Some l =>
      if str_eqb (ev_name l) (ev_name e)
         && Qle_bool (ev_at e - (ev_at l + ev_duration l)) MERGE_SAME_GAP
      then
        let newEnd := Qmax (ev_at l + ev_duration l) (ev_at e + ev_duration e) in
        removelast merged ++
          [{| ev_at := ev_at l; ev_name := ev_name l;
              ev_duration := newEnd - ev_at l;
              ev_peak := Some (Qmax (default 1 (ev_peak l)) (default 1 (ev_peak e)));
              ev_attack := ev_attack l; ev_decay := ev_decay l |}]
      else merged ++ [e]
  | None => merged ++ [e]
  end.

(** The visibility score of the rate limiter.  [V_MAP] is indexed with the
    event's viseme name. *)
Definition prefer (e : VisemeEvent) : Q :=
  let t := ev_name e in
  (if truthy V_MAP t then 2 else 0)
  + (if str_eqb t (js "viseme_CH") then 1.5 else 0)
  + (if str_eqb t (js "viseme_PP") then 1 else 0).

(** [e.at - lastAt >= MIN_EVENT_GAP], with [None] for [lastAt = -Infinity].
    The difference is exact here; the code's is rounded, so an onset that
    is nominally 100ms after [lastAt] can fall one rounding step short of
    the gap there. *)
Definition gapReached (e : VisemeEvent) (lastAt : option Q) : bool :=
  match lastAt with
  | None => true
  | Some l => Qle_bool MIN_EVENT_GAP (ev_at e - l)
  end.

(** One iteration of the rate-limit loop on [(keep, lastAt)].  On a
    replacement the source first writes [prev.duration]; [prev] then leaves
    [keep] and is referenced from nowhere else, so the write is not
    observable in the result. *)
Definition rateStep (st : list VisemeEvent * option Q) (e : VisemeEvent)
    : list VisemeEvent * option Q :=
  let '(keep, lastAt) := st in
  if gapReached e lastAt || (length keep =? 0)%nat
  then (keep ++ [e], Some (ev_at e))
  else
    match last keep with
    | Some prev =>
        if Qlt_bool (prefer prev) (prefer e)
        then (removelast keep ++ [e], Some (ev_at e))
        else (keep, lastAt)
    | None => (keep, lastAt)
    end.

Definition decimateTimeline (events : list VisemeEvent) : list VisemeEvent :=
  if (length events <=? 1)%nat then events
  else
    let merged := fold_left mergeStep events [] in
    fst (fold_left rateStep merged ([], None)).

(** [!w.word || /^[\s,.;:!?-]+$/.test(w.word)] *)
Definition ignoredWord (word : jsstr) : bool :=
  (length word =? 0)%nat
  || forallb (fun c => isWhiteSpace c || charIn ",.;:!?-" c) word.

(** The body of the inner loop of [pushWordsToTimeline] on
    [(seenEventsRef.current, pendingEventsRef.current)]. *)
Definition pushEvent (st : gset jsstr * list VisemeEvent) (ev : VisemeEvent)
    : gset jsstr * list VisemeEvent :=
  let '(seen, pending) := st in
  let key := makeEventKey ev in
  if bool_decide (key ∈ seen) then (seen, pending)
  else ({[ key ]} ∪ seen, pending ++ [ev]).

Definition pushWord {U : UnicodeData} (st : gset jsstr * list VisemeEvent)
    (w : WordTiming) : gset jsstr * list VisemeEvent :=
  if ignoredWord (w_word w) then st
  else fold_left pushEvent (wordToVisemeEvents w) st.

Definition pushWordsToTimeline {U : UnicodeData} (refs : Refs)
    (wordsAbs : list WordTiming) : Refs :=
  match wordsAbs with
  | [] => refs
  | _ =>
      let wordsAbs := sortByKey w_start wordsAbs in
      let '(seen, pending) :=
        fold_left pushWord wordsAbs
                  (seenEventsRef refs, pendingEventsRef refs) in
      let pending := sortByKey ev_at pending in
      {| t0Ref := t0Ref refs;
         segStateRef := segStateRef refs;
         wordQueueRef := wordQueueRef refs;
         pendingEventsRef := decimateTimeline pending;
         activeEnvelopesRef := activeEnvelopesRef refs;
         seenEventsRef := seen |}
  end.

(** The payload of a [word_timing] message: one word or an array. *)
Inductive Content : Type :=
| OneWord (w : RawWordTiming)
| ManyWords (ws : list RawWordTiming).

Definition onWordTiming {U : UnicodeData} (refs : Refs) (content : Content)
    : Refs :=
  let arr := match content with
             | ManyWords ws => ws
             | OneWord w => [w]
             end in
  (* 1) normalise to absolute time *)
  let '(adjusted, seg) := normalizeWordsToAbsolute (segStateRef refs) arr in
  let refs := {| t0Ref := t0Ref refs;
                 segStateRef := seg;
                 wordQueueRef := wordQueueRef refs;
                 pendingEventsRef := pendingEventsRef refs;
                 activeEnvelopesRef := activeEnvelopesRef refs;
                 seenEventsRef := seenEventsRef refs |} in
  match t0Ref refs with
  | Some _ =>
      (* 2a) already playing: append immediately *)
      pushWordsToTimeline refs adjusted
  | None =>
      (* 2b) not playing yet: keep the words until playback starts *)
      {| t0Ref := t0Ref refs;
         segStateRef := segStateRef refs;
         wordQueueRef := wordQueueRef refs ++ adjusted;
         pendingEventsRef := pendingEventsRef refs;
         activeEnvelopesRef := activeEnvelopesRef refs;
         seenEventsRef := seenEventsRef refs |}
  end.

(* ===================================================================== *)
(** ** Playback start and stop ([UseTTS]) *)
(* ===================================================================== *)

(** The inner loop of [prepareTimelineFromWords] on
    [(seenEventsRef.current, events)]; the key here is the unbucketed
    onset with three decimals. *)
Definition prepareEvent (st : gset jsstr * list VisemeEvent) (ev : VisemeEvent)
    : gset jsstr * list VisemeEvent :=
  let '(seen, events) := st in
  let key := ev_name ev ++ js "@" ++ toFixed (ev_at ev) 3 in
  if bool_decide (key ∈ seen) then (seen, events)
  else ({[ key ]} ∪ seen, events ++ [ev]).

Definition prepareTimelineFromWords {U : UnicodeData} (refs : Refs) : Refs :=
  let '(seen, events) :=
    fold_left (fun st w => fold_left prepareEvent (wordToVisemeEvents w) st)
              (wordQueueRef refs) (seenEventsRef refs, []) in
  let events := sortByKey ev_at events in
  {| t0Ref := t0Ref refs;
     segStateRef := segStateRef refs;
     wordQueueRef := [];
     pendingEventsRef := pendingEventsRef refs ++ events;
     activeEnvelopesRef := activeEnvelopesRef refs;
     seenEventsRef := seen |}.

(** [currentTime] is [audioCtxRef.current.currentTime]. *)
Definition onPlaybackStarted {U : UnicodeData} (currentTime : Q) (refs : Refs)
    : Refs :=
  prepareTimelineFromWords
    {| t0Ref := Some (currentTime + outputLatencySec);
       segStateRef := segStateRef refs;
       wordQueueRef := wordQueueRef refs;
       pendingEventsRef := pendingEventsRef refs;
       activeEnvelopesRef := activeEnvelopesRef refs;
       seenEventsRef := seenEventsRef refs |}.

Definition onPlaybackStopped (refs : Refs) : Refs :=
  {| t0Ref := None;
     pendingEventsRef := [];
     activeEnvelopesRef := [];
     (* reset segment and dedupe state *)
     segStateRef := {| segOffset := 0; lastAbsEnd := 0 |};
     seenEventsRef := ∅;
     wordQueueRef := wordQueueRef refs |}.

(* ===================================================================== *)
(** ** Playback Scheduler ([AvatarLipSync]) *)
(* ===================================================================== *)

Definition DEF_ATTACK : Q := 0.03.
Definition DEF_DECAY : Q := 0.04.
Definition MORPH_CAP : Q := 0.9.

(** Per-viseme tuning; omitted keys default to 1.0. *)
Definition perVisemeGain : gmap jsstr Q := list_to_map [
  (js "viseme_PP", 1.0);
  (js "viseme_aa", 0.95); (js "viseme_I", 0.95); (js "viseme_O", 0.95);
  (js "viseme_U", 0.95); (js "viseme_E", 0.95);
  (js "viseme_SS", 0.8); (js "viseme_FF", 0.8);
  (js "viseme_RR", 0.6);
  (js "viseme_DD", 0.9); (js "viseme_kk", 0.9);
  (js "viseme_CH", 0.85);
  (js "viseme_nn", 0.9)
].

Definition fitRamps (duration : Q) (attack decay : option Q) : Q * Q :=
  let a0 := Qmax 0 (default DEF_ATTACK attack) in
  let d0 := Qmax 0 (default DEF_DECAY decay) in
  let a := Qmin a0 (duration * 0.4) in
  let d := Qmin d0 (duration * 0.4) in
  if Qle_bool (a + d) duration || Qle_bool duration 0 then (a, d)
  else
    let scale := duration / (a + d) in
    (a * scale, d * scale).

Definition envValueFromCountdown (env : ActiveEnv) : Q :=
  let elapsed := env_total env - env_timeLeft env in
  if Qle_bool elapsed 0 || Qle_bool (env_total env) 0 then 0
  else
    let hold := Qmax 0 (env_total env - env_attack env - env_decay env) in
    if Qlt_bool elapsed (env_attack env)
    then (elapsed / Qmax 1e-6 (env_attack env)) * env_peak env
    else if Qlt_bool elapsed (env_attack env + hold)
    then env_peak env
    else
      let td := elapsed - (env_attack env + hold) in
      Qmax 0 (env_peak env * (1 - td / Qmax 1e-6 (env_decay env))).

(** [promoteDueEvents]: the [while] loop shifts the head of the pending
    queue as long as it is due; it recurses on the queue. *)
Fixpoint promoteDueEvents (now : Q) (pending : list VisemeEvent)
    (active : list ActiveEnv) : list VisemeEvent * list ActiveEnv :=
  match pending with
  | [] => (pending, active)
  | ev :: rest =>
      if Qle_bool (ev_at ev) now then
        let '(a, d) := fitRamps (ev_duration ev) (ev_attack ev) (ev_decay ev) in
        promoteDueEvents now rest
          (active ++
             [{| env_name := ev_name ev;
                 env_timeLeft := ev_duration ev;
                 env_total := ev_duration ev;
                 env_peak := Qmin 1 (Qmax 0 (default 1 (ev_peak ev)));
                 env_attack := a;
                 env_decay := d |}])
      else (pending, active)
  end.

(** [byName], a [Map<string, number>]: entries in insertion order;
    [set] on a present key keeps its position. *)
Fixpoint mapGet (m : list (jsstr * Q)) (k : jsstr) : option Q :=
  match m with
  | [] => None
  | (k', v) :: r => if str_eqb k' k then Some v else mapGet r k
  end.

Fixpoint mapSet (m : list (jsstr * Q)) (k : jsstr) (v : Q) : list (jsstr * Q) :=
  match m with
  | [] => [(k, v)]
  | (k', v') :: r => if str_eqb k' k then (k, v) :: r
                     else (k', v') :: mapSet r k v
  end.

(** Step 2 of the frame for one envelope; [gains] is the per-viseme gain
    table in use ([perVisemeGain] in the source). *)
Definition aggregateStep (gains : gmap jsstr Q) (byName : list (jsstr * Q))
    (env : ActiveEnv) : list (jsstr * Q) :=
  let v := envValueFromCountdown env in
  if Qle_bool v 0 then byName
  else
    let gain := default 1 (gains !! env_name env) in
    let val := Qmin MORPH_CAP (v * gain) in
    if Qlt_bool (default 0 (mapGet byName (env_name env))) val
    then mapSet byName (env_name env) val
    else byName.

(** What a frame sends to the rendering sink, in order. *)
Inductive SinkCall : Type :=
| SetViseme (name : jsstr) (value : Q)
| DecayVisemes (factor : Q).

Definition countdown (dt : Q) (env : ActiveEnv) : ActiveEnv :=
  {| env_name := env_name env;
     env_timeLeft := env_timeLeft env - dt;
     env_total := env_total env;
     env_peak := env_peak env;
     env_attack := env_attack env;
     env_decay := env_decay env |}.

(** The [useFrame] callback.  [ctx] is [audioCtxRef.current] reduced to its
    [currentTime] ([None] for [null]). *)
Definition frame (gains : gmap jsstr Q) (decayFactor : Q)
    (ctx : option Q) (rawDt : Q) (refs : Refs) : Refs * list SinkCall :=
  match ctx, t0Ref refs with
  | Some currentTime, Some t0 =>
      let dt := Qmin (Qmax rawDt 0) 0.1 in
      let now := currentTime - t0 in
      (* 1) promote due viseme events *)
      let '(pending, active) :=
        promoteDueEvents now (pendingEventsRef refs) (activeEnvelopesRef refs) in
      (* 2) aggregate MAX per viseme *)
      let byName := fold_left (aggregateStep gains) active [] in
      (* 3) apply once per viseme *)
      let writes := map (fun '(name, val) => SetViseme name val) byName in
      (* 4) countdown and prune finished envelopes *)
      let active := map (countdown dt) active in
      let active := filter (fun e => Qlt_bool 0 (env_timeLeft e)) active in
      (* 5) global relax toward neutral *)
      ({| t0Ref := t0Ref refs;
          segStateRef := segStateRef refs;
          wordQueueRef := wordQueueRef refs;
          pendingEventsRef := pending;
          activeEnvelopesRef := active;
          seenEventsRef := seenEventsRef refs |},
       writes ++ [DecayVisemes decayFactor])
  | _, _ => (refs, [])
  end.

(** The intensities a frame writes with [setViseme]. *)
Definition written (calls : list SinkCall) : list (jsstr * Q) :=
  omap (fun c => match c with
                 | SetViseme name value => Some (name, value)
                 | DecayVisemes _ => None
                 end) calls.

(* ===================================================================== *)
(** ** The event loop *)
(* ===================================================================== *)

(** The inputs of the core: a [word_timing] message, the playback signals
    of the audio worklet, and the render tick. *)
Inductive Input : Type :=
| WordTimingMsg (content : Content)
| PlaybackStarted (currentTime : Q)
| PlaybackStopped
| FrameTick (ctx : option Q) (rawDt : Q).

Definition handle {U : UnicodeData} (refs : Refs) (i : Input) : Refs :=
  match i with
  | WordTimingMsg content => onWordTiming refs content
  | PlaybackStarted currentTime => onPlaybackStarted currentTime refs
  | PlaybackStopped => onPlaybackStopped refs
  | FrameTick ctx rawDt => fst (frame perVisemeGain 0.85 ctx rawDt refs)
  end.

Definition run {U : UnicodeData} (refs : Refs) (inputs : list Input) : Refs :=
  fold_left handle inputs refs.

(** A run of Normalizer calls, one per batch. *)
Definition normalizeAll (seg : SegState) (batches : list (list RawWordTiming))
    : SegState :=
  fold_left (fun s b => snd (normalizeWordsToAbsolute s b)) batches seg.

(** The wire form of a word whose times are finite. *)
Definition toRaw (w : WordTiming) : RawWordTiming :=
  {| r_word := w_word w; r_phoneme := w_phoneme w;
     r_start := Finite (w_start w); r_end := Finite (w_end w) |}.

(** Scenario data. *)
Definition cat : WordTiming :=
  {| w_word := js "cat"; w_phoneme := js "kæt"; w_start := 0.0; w_end := 0.3 |}.

Definition huh : WordTiming :=
  {| w_word := js "huh"; w_phoneme := js "hʌh"; w_start := 0; w_end := 0.25 |}.

Definition rawWord (word phoneme : string) (s e : Q) : RawWordTiming :=
  {| r_word := js word; r_phoneme := js phoneme;
     r_start := Finite s; r_end := Finite e |}.


Definition sameTimes (w w' : WordTiming) : Prop :=
  w_start w' == w_start w /\ w_end w' == w_end w.

(** The vowel visemes: the values of [V_MAP]. *)
Definition vowelVisemes : list jsstr :=
  [js "viseme_aa"; js "viseme_E"; js "viseme_I"; js "viseme_O"; js "viseme_U"].

(** An aggregated intensity: positive and at most the cap. *)
Definition inRange (entry : jsstr * Q) : Prop :=
  0 < entry.2 /\ entry.2 <= MORPH_CAP.

(** Every event of the word is already in the dedup set (or the word is
    one the push loop ignores). *)
Definition covered {U : UnicodeData} (seen : gset jsstr) (w : WordTiming)
    : Prop :=
  ignoredWord (w_word w) = true
  \/ Forall (fun ev => makeEventKey ev ∈ seen) (wordToVisemeEvents w).

(** While the anchor is set the pre-roll queue is empty: playback-start
    drains it and deliveries made while playing bypass it. *)
Definition drained (refs : Refs) : Prop :=
  t0Ref refs <> None -> wordQueueRef refs = [].


(* ===================================================================== *)
(** ** Vocabulary of the further properties *)
(* ===================================================================== *)

(** A word the Normalizer discards: a time is not finite, or the interval
    is inverted. *)
Definition malformed (r : RawWordTiming) : Prop :=
  match finiteWord r with
  | Some w => w_end w < w_start w
  | None => True
  end.


(** The characters the tokenizer loop skips: [/[\s,;:!?-]/]. *)
Definition isSkipped (c : N) : bool := isWhiteSpace c || charIn ",;:!?-" c.

(** The characters [normalizePhonemeString] rewrites or deletes by name:
    the variant letters, the r-coloured vowels, the stress, syllable and
    length marks, and the two tie bars. *)
Definition rewrittenChars : jsstr :=
  js "ɡʧʤɚɝˈˌ.ː" ++ [0x0361; 0x035C]%N.

(** The property names a plain object such as [C_MAP] or [V_MAP] inherits
    from [Object.prototype] (ECMAScript, Annex B included).  [table[x]]
    finds an inherited member for these keys, which the finite maps of
    this file do not hold: what is proved of a table lookup is proved for
    the other keys.  A token of the tokenizer has at most two characters
    and is none of them. *)
Definition objectPrototypeMembers : list jsstr :=
  [js "constructor"; js "hasOwnProperty"; js "isPrototypeOf";
   js "propertyIsEnumerable"; js "toLocaleString"; js "toString";
   js "valueOf"; js "__proto__"; js "__defineGetter__";
   js "__defineSetter__"; js "__lookupGetter__"; js "__lookupSetter__"].

(** The viseme names the tables can produce. *)
Definition visemeNames : list jsstr :=
  [js "viseme_PP"; js "viseme_FF"; js "viseme_DD"; js "viseme_SS";
   js "viseme_CH"; js "viseme_kk"; js "viseme_nn"; js "viseme_RR";
   js "viseme_TH"; js "viseme_U"; js "viseme_I"; js "viseme_E";
   js "viseme_aa"; js "viseme_O"].


(** The score step 3 of [compressTokens] ranks tokens by. *)
Definition dropScore (t : jsstr) : Q :=
  tokenPriority t + (if isVowelToken t then 100 else 0).

(** How many tokens of a list are vowel tokens. *)
Definition vowelCount (l : list jsstr) : nat :=
  length (filter (fun t => isVowelToken t = true) l).


(** What every allocated event looks like: a duration between 60ms and
    180ms, peak 1, the standard ramps, a name of the tables. *)
Definition wellShaped (e : VisemeEvent) : Prop :=
  MIN_DUR * 0.75 <= ev_duration e /\ ev_duration e <= MAX_DUR
  /\ ev_peak e = Some 1 /\ ev_attack e = Some ATTACK
  /\ ev_decay e = Some DECAY /\ ev_name e ∈ visemeNames.


(** A timeline in time order, and one whose consecutive onsets are at
    least MIN_EVENT_GAP apart. *)
Definition timeSorted (l : list VisemeEvent) : Prop :=
  StronglySorted Qle (map ev_at l).

Definition minGapSpaced (l : list VisemeEvent) : Prop :=
  Sorted (fun x y => MIN_EVENT_GAP <= ev_at y - ev_at x) l.

(** [e'] carries the name and the onset of an event of [src]. *)
Definition stemsFrom (src : list VisemeEvent) (e' : VisemeEvent) : Prop :=
  exists e, e ∈ src /\ ev_name e' = ev_name e /\ ev_at e' = ev_at e.

(** Every pending event is recorded in the dedup set. *)
Definition pendingRecorded (refs : Refs) : Prop :=
  Forall (fun e => makeEventKey e ∈ seenEventsRef refs) (pendingEventsRef refs).


(** The state of the rate limiter: what is kept is spaced, and [lastAt] is
    the onset of the last kept event. *)
Definition rateInv (st : list VisemeEvent * option Q) : Prop :=
  minGapSpaced st.1 /\ st.2 = ev_at <$> last st.1.


(** What an envelope contributes to its viseme in a frame: its value times
    the gain of the viseme, clamped to the cap. *)
Definition contribution (gains : gmap jsstr Q) (env : ActiveEnv) : Q :=
  Qmin MORPH_CAP
       (envValueFromCountdown env * default 1 (gains !! env_name env)).

(** An envelope as [promoteDueEvents] builds it from an event. *)
Definition activates (ev : VisemeEvent) (env : ActiveEnv) : Prop :=
  env_name env = ev_name ev
  /\ env_timeLeft env = ev_duration ev
  /\ env_total env = ev_duration ev
  /\ 0 <= env_peak env /\ env_peak env <= 1
  /\ (0 <= ev_duration ev ->
      0 <= env_attack env /\ 0 <= env_decay env
      /\ env_attack env + env_decay env <= env_total env).


(** [byName] aggregates the envelopes of [active]: one entry per name, each
    entry the contribution of one of the envelopes of that name, and no
    positive contribution of an envelope above the entry of its name. *)
Definition aggregateOf (gains : gmap jsstr Q) (active : list ActiveEnv)
    (byName : list (jsstr * Q)) : Prop :=
  NoDup byName.*1
  /\ (forall name v, (name, v) ∈ byName ->
        exists env, env ∈ active /\ env_name env = name
                    /\ v = contribution gains env)
  /\ (forall env, env ∈ active ->
        0 < envValueFromCountdown env -> 0 < contribution gains env ->
        exists v, mapGet byName (env_name env) = Some v
                  /\ contribution gains env <= v).


(* ===================================================================== *)
(** ** The rendering sink ([AvatarLipSync]: [setMorph], [decayMesh]) *)
(* ===================================================================== *)

(** An element of [morphTargetInfluences], a plain array of numbers: a
    number, [NaN], or a hole left by a write past the end. *)
Inductive Slot : Type :=
| Hole
| NotNumber
| Num (q : Q).

(** What the Scheduler uses of a skinned mesh.  The dictionary maps a
    shape name to an array index (three.js fills it with the positions of
    the morph targets); either field may be [undefined]. *)
Record SkinnedMesh : Type := {
  morphTargetDictionary : option (gmap jsstr nat);
  morphTargetInfluences : option (list Slot)
}.

(** [nodes.Wolf3D_Head] and [nodes.Wolf3D_Teeth], each possibly absent. *)
Record AvatarNodes : Type := {
  Wolf3D_Head : option SkinnedMesh;
  Wolf3D_Teeth : option SkinnedMesh
}.

(** [infl[idx] = value]: in range the element is replaced; past the end
    the array grows, the elements in between being holes. *)
Definition writeAt (infl : list Slot) (idx : nat) (value : Slot) : list Slot :=
  if (idx <? length infl)%nat then <[idx := value]> infl
  else infl ++ replicate (idx - length infl) Hole ++ [value].

Definition setMorph (mesh : option SkinnedMesh) (idx : option nat) (value : Q)
    : option SkinnedMesh :=
  match mesh, idx with
  | Some m, Some i =>
      match morphTargetInfluences m with
      | Some infl =>
          Some {| morphTargetDictionary := morphTargetDictionary m;
                  morphTargetInfluences := Some (writeAt infl i (Num value)) |}
      | None => mesh
      end
  | _, _ => mesh
  end.

(** [infl[i] *= factor]: a hole reads [undefined], and the product with
    it, as with [NaN], is [NaN]. *)
Definition decaySlot (factor : Q) (s : Slot) : Slot :=
  match s with
  | Num q => Num (q * factor)
  | Hole | NotNumber => NotNumber
  end.

Definition decayMesh (mesh : option SkinnedMesh) (factor : Q)
    : option SkinnedMesh :=
  match mesh with
  | Some m =>
      match morphTargetInfluences m with
      | Some infl =>
          Some {| morphTargetDictionary := morphTargetDictionary m;
                  morphTargetInfluences := Some (map (decaySlot factor) infl) |}
      | None => mesh
      end
  | None => mesh
  end.

(** [getHead] / [getTeeth]: [dict[name]] with [dict] the mesh's dictionary,
    or the empty object when the mesh or its dictionary is missing. *)
Definition lookupIndex (mesh : option SkinnedMesh) (name : jsstr) : option nat :=
  match mesh with
  | Some m => default ∅ (morphTargetDictionary m) !! name
  | None => None
  end.

Definition setViseme (nodes : AvatarNodes) (name : jsstr) (value : Q)
    : AvatarNodes :=
  {| Wolf3D_Head :=
       setMorph (Wolf3D_Head nodes) (lookupIndex (Wolf3D_Head nodes) name) value;
     Wolf3D_Teeth :=
       setMorph (Wolf3D_Teeth nodes) (lookupIndex (Wolf3D_Teeth nodes) name)
                value |}.

Definition decayVisemes (nodes : AvatarNodes) (factor : Q) : AvatarNodes :=
  {| Wolf3D_Head := decayMesh (Wolf3D_Head nodes) factor;
     Wolf3D_Teeth := decayMesh (Wolf3D_Teeth nodes) factor |}.

(** The calls of a frame carried out on the meshes. *)
Definition sinkStep (nodes : AvatarNodes) (call : SinkCall) : AvatarNodes :=
  match call with
  | SetViseme name value => setViseme nodes name value
  | DecayVisemes factor => decayVisemes nodes factor
  end.

Definition applyCalls (nodes : AvatarNodes) (calls : list SinkCall)
    : AvatarNodes :=
  fold_left sinkStep calls nodes.

(** The same on one mesh. *)
Definition meshStep (mesh : option SkinnedMesh) (call : SinkCall)
    : option SkinnedMesh :=
  match call with
  | SetViseme name value => setMorph mesh (lookupIndex mesh name) value
  | DecayVisemes factor => decayMesh mesh factor
  end.

(** The influence a mesh shows for a shape name, if it knows the name. *)
Definition influenceOf (mesh : option SkinnedMesh) (name : jsstr)
    : option Slot :=
  match mesh with
  | Some m =>
      match lookupIndex mesh name, morphTargetInfluences m with
      | Some i, Some infl => infl !! i
      | _, _ => None
      end
  | None => None
  end.

(** A mesh as the loader hands it over: both fields present, every index
    of the dictionary inside the array, no two names on one index. *)
Definition loadedMesh (m : SkinnedMesh) : Prop :=
  exists dict infl,
    morphTargetDictionary m = Some dict
    /\ morphTargetInfluences m = Some infl
    /\ (forall name i, dict !! name = Some i -> (i < length infl)%nat)
    /\ (forall n1 n2 i, dict !! n1 = Some i -> dict !! n2 = Some i -> n1 = n2).

(** Every influence of the mesh is a number between 0 and [bound]. *)
Definition influencesWithin (bound : Q) (mesh : option SkinnedMesh) : Prop :=
  match mesh with
  | Some m =>
      match morphTargetInfluences m with
      | Some infl =>
          Forall (fun s => exists q, s = Num q /\ 0 <= q /\ q <= bound) infl
      | None => True
      end
  | None => True
  end.


(** The calls of a frame carried out on the array of a mesh whose
    dictionary is [dict]. *)
Definition arrayStep (dict : gmap jsstr nat) (infl : list Slot)
    (call : SinkCall) : list Slot :=
  match call with
  | SetViseme name value =>
      match dict !! name with
      | Some i => writeAt infl i (Num value)
      | None => infl
      end
  | DecayVisemes factor => map (decaySlot factor) infl
  end.

(** A mesh is absent or as the loader hands it over. *)
Definition meshOk (mesh : option SkinnedMesh) : Prop :=
  match mesh with
  | Some m => loadedMesh m
  | None => True
  end.

(* ===================================================================== *)
(** ** The playback worklet ([UseTTS], [TTSPlaybackProcessor]) *)
(* ===================================================================== *)

(** A value of the output block: a number, or [NaN]. *)
Inductive Sample : Type :=
| SampleValue (q : Q)
| SampleNaN.

(** What the main thread posts to the processor: [{ type: "clear" }], or
    a chunk of 16-bit samples. *)
Inductive PortData : Type :=
| ClearQueue
| Chunk (pcm : list Z).

(** What the processor posts back. *)
Inductive Notice : Type :=
| TtsPlaybackStarted
| TtsPlaybackStopped.

Record Processor : Type := {
  bufferQueue : list (list Z);
  readOffset : nat;
  samplesRemaining : Z;
  isPlaying : bool
}.

(** The fields as the constructor sets them. *)
Definition newProcessor : Processor :=
  {| bufferQueue := []; readOffset := 0; samplesRemaining := 0;
     isPlaying := false |}.

(** [port.onmessage] of the processor. *)
Definition receive (p : Processor) (data : PortData) : Processor :=
  match data with
  | ClearQueue =>
      {| bufferQueue := []; readOffset := 0; samplesRemaining := 0;
         isPlaying := false |}
  | Chunk pcm =>
      {| bufferQueue := bufferQueue p ++ [pcm];
         readOffset := readOffset p;
         samplesRemaining := samplesRemaining p + Z.of_nat (length pcm);
         isPlaying := isPlaying p |}
  end.

Definition silence : Sample := SampleValue 0.

Definition sampleOf (v : Z) : Sample := SampleValue (inject_Z v / 32768).

(** [buffer[readOffset] / 32768]: past the end of the chunk the read
    gives [undefined] and the quotient is [NaN]. *)
Definition readSample (buffer : list Z) (offset : nat) : Sample :=
  match buffer !! offset with
  | Some v => sampleOf v
  | None => SampleNaN
  end.

(** The two [while] loops of [process]; [todo] is
    [output.length - outIdx]. *)
Fixpoint fillOutput (todo : nat) (p : Processor) : list Sample * Processor :=
  match todo with
  | O => ([], p)
  | S todo' =>
      match bufferQueue p with
      | [] => (replicate todo silence, p)
      | buffer :: rest =>
          let s := readSample buffer (readOffset p) in
          let offset := S (readOffset p) in
          let p :=
            if (length buffer <=? offset)%nat
            then {| bufferQueue := rest;
                    readOffset := 0;
                    samplesRemaining := samplesRemaining p - 1;
                    isPlaying := isPlaying p |}
            else {| bufferQueue := bufferQueue p;
                    readOffset := offset;
                    samplesRemaining := samplesRemaining p - 1;
                    isPlaying := isPlaying p |} in
          let '(out, p) := fillOutput todo' p in
          (s :: out, p)
      end
  end.

(** [process]; [output] is the length of [outputs[0][0]], [None] when the
    channel is missing.  The result carries the block written and the
    notices posted. *)
Definition process (p : Processor) (output : option nat)
    : Processor * list Sample * list Notice :=
  match output with
  | None => (p, [], [])
  | Some n =>
      if (samplesRemaining p =? 0)%Z then
        if isPlaying p
        then ({| bufferQueue := bufferQueue p;
                 readOffset := readOffset p;
                 samplesRemaining := samplesRemaining p;
                 isPlaying := false |},
              replicate n silence, [TtsPlaybackStopped])
        else (p, replicate n silence, [])
      else
        let notices := if isPlaying p then [] else [TtsPlaybackStarted] in
        let p := {| bufferQueue := bufferQueue p;
                    readOffset := readOffset p;
                    samplesRemaining := samplesRemaining p;
                    isPlaying := true |} in
        let '(out, p) := fillOutput n p in
        (p, out, notices)
  end.

(** The processor is driven by port messages and by render quanta. *)
Inductive WorkletInput : Type :=
| PortMessage (data : PortData)
| RenderQuantum (output : option nat).

Definition workletStep (p : Processor) (i : WorkletInput)
    : Processor * list Sample * list Notice :=
  match i with
  | PortMessage data => (receive p data, [], [])
  | RenderQuantum output => process p output
  end.

(** The notices of a run, in order, with the final state. *)
Fixpoint runWorklet (p : Processor) (inputs : list WorkletInput)
    : Processor * list Notice :=
  match inputs with
  | [] => (p, [])
  | i :: rest =>
      let '(p, _, posted) := workletStep p i in
      let '(p, later) := runWorklet p rest in
      (p, posted ++ later)
  end.

(** The samples received and not yet played. *)
Definition backlog (p : Processor) : list Z :=
  drop (readOffset p) (concat (bufferQueue p)).

(** The read position lies inside the first chunk, and no chunk of the
    queue is empty. *)
Definition positioned (p : Processor) : Prop :=
  Forall (fun b => b <> []) (bufferQueue p)
  /\ match bufferQueue p with
     | [] => readOffset p = 0%nat
     | b :: _ => (readOffset p < length b)%nat
     end.

(** The counter agrees with the queue. *)
Definition coherent (p : Processor) : Prop :=
  positioned p /\ samplesRemaining p = Z.of_nat (length (backlog p)).

Definition nonEmptyChunk (i : WorkletInput) : Prop :=
  match i with
  | PortMessage (Chunk pcm) => pcm <> []
  | _ => True
  end.

(** Started and stopped notices take turns, given whether the processor
    is playing before the first of them. *)
Fixpoint alternating (playing : bool) (notices : list Notice) : Prop :=
  match notices with
  | [] => True
  | TtsPlaybackStarted :: rest => playing = false /\ alternating true rest
  | TtsPlaybackStopped :: rest => playing = true /\ alternating false rest
  end.

(* ===================================================================== *)
(** ** Playback signals on the main thread ([UseTTS]) *)
(* ===================================================================== *)

(** The two flags of the hook next to the lip-sync refs. *)
Record Playback : Type := {
  isTTSPlayingRef : bool;
  isAwaitingBotResponseRef : bool;
  lipsync : Refs
}.

Inductive SocketMsg : Type :=
| TtsStart
| TtsStop.

(** [ttsNode.port.onmessage].  [socketOpen] is
    [socketRef.current?.readyState === WebSocket.OPEN] and [currentTime]
    the clock of the audio context. *)
Definition onPortMessage {U : UnicodeData} (socketOpen : bool)
    (currentTime : Q) (type : Notice) (s : Playback)
    : Playback * list SocketMsg :=
  let '(s, sent) :=
    match type with
    | TtsPlaybackStarted =>
        if negb (isTTSPlayingRef s)
        then ({| isTTSPlayingRef := true;
                 isAwaitingBotResponseRef := true;
                 lipsync := onPlaybackStarted currentTime (lipsync s) |},
              if socketOpen then [TtsStart] else [])
        else (s, [])
    | TtsPlaybackStopped => (s, [])
    end in
  match type with
  | TtsPlaybackStopped =>
      if isTTSPlayingRef s
      then ({| isTTSPlayingRef := false;
               isAwaitingBotResponseRef := false;
               lipsync := onPlaybackStopped (lipsync s) |},
            sent ++ (if socketOpen then [TtsStop] else []))
      else (s, sent)
  | TtsPlaybackStarted => (s, sent)
  end.

(** [stopTTSPlayback]; [nodeReady] says whether [ttsNodeRef.current] is
    set.  The result carries what is posted to the processor. *)
Definition stopTTSPlayback (nodeReady : bool) (s : Playback)
    : Playback * list PortData :=
  if negb nodeReady then (s, [])
  else ({| isTTSPlayingRef := isTTSPlayingRef s;
           isAwaitingBotResponseRef := isAwaitingBotResponseRef s;
           lipsync := onPlaybackStopped (lipsync s) |},
        [ClearQueue]).

(** What reaches the hook and the lip-sync core on the main thread: a
    notice of the processor, the [stop_tts] and [word_timing] messages of
    the socket, and the render tick. *)
Inductive MainInput : Type :=
| PortNotice (socketOpen : bool) (currentTime : Q) (type : Notice)
| StopTts (nodeReady : bool)
| WordTimingContent (content : Content)
| RenderTick (ctx : option Q) (rawDt : Q).

Definition mainStep {U : UnicodeData} (s : Playback) (i : MainInput)
    : Playback * list SinkCall :=
  match i with
  | PortNotice socketOpen currentTime type =>
      ((onPortMessage socketOpen currentTime type s).1, [])
  | StopTts nodeReady => ((stopTTSPlayback nodeReady s).1, [])
  | WordTimingContent content =>
      ({| isTTSPlayingRef := isTTSPlayingRef s;
          isAwaitingBotResponseRef := isAwaitingBotResponseRef s;
          lipsync := onWordTiming (lipsync s) content |}, [])
  | RenderTick ctx rawDt =>
      let '(refs, calls) := frame perVisemeGain 0.85 ctx rawDt (lipsync s) in
      ({| isTTSPlayingRef := isTTSPlayingRef s;
          isAwaitingBotResponseRef := isAwaitingBotResponseRef s;
          lipsync := refs |}, calls)
  end.

(** The sink calls of a run, in order, with the final state. *)
Fixpoint runMain {U : UnicodeData} (s : Playback) (inputs : list MainInput)
    : Playback * list SinkCall :=
  match inputs with
  | [] => (s, [])
  | i :: rest =>
      let '(s, calls) := mainStep s i in
      let '(s, later) := runMain s rest in
      (s, calls ++ later)
  end.

(** The clock is anchored only while the playing flag is set. *)
Definition anchoredWhilePlaying (s : Playback) : Prop :=
  t0Ref (lipsync s) <> None -> isTTSPlayingRef s = true.

Definition notStoppedNotice (i : MainInput) : Prop :=
  match i with
  | PortNotice _ _ TtsPlaybackStopped => False
  | _ => True
  end.

(** Whether the processor is playing after it posted [notices]. *)
Definition playingAfter (playing : bool) (notices : list Notice) : bool :=
  match last notices with
  | Some TtsPlaybackStarted => true
  | Some TtsPlaybackStopped => false
  | None => playing
  end.

Definition notClear (i : WorkletInput) : Prop :=
  i <> PortMessage ClearQueue.

(* ===================================================================== *)
(** ** The Normalizer on binary64 numbers *)
(* ===================================================================== *)

(** The Normalizer once more, with the numbers as JavaScript has them:
    binary64 floats, every sum and difference rounded to the nearest
    float.  The wire values ([NaN], the infinities) are floats too, so a
    word needs no separate raw form here. *)
Module Binary64.
Import PrimFloat.
#[local] Set Warnings "-inexact-float".

Record WordTiming : Type := {
  w_word : jsstr;
  w_phoneme : jsstr;
  w_start : float;
  w_end : float
}.

Record SegState : Type := {
  segOffset : float;
  lastAbsEnd : float
}.

Definition EPS : float := 0.005.
Definition GAP_PAD : float := 0.03.
Definition HARD_RESET_BACKSTEP : float := 0.8.

(** [Math.min(a, b)] and [Math.max(a, b)]: [NaN] if an argument is [NaN];
    [-0] counts as below [+0]. *)
Definition mathMin (a b : float) : float :=
  if is_nan a || is_nan b then nan
  else if (a <? b)%float then a
  else if (b <? a)%float then b
  else if get_sign a then a else b.

Definition mathMax (a b : float) : float :=
  if is_nan a || is_nan b then nan
  else if (a <? b)%float then b
  else if (b <? a)%float then a
  else if get_sign a then b else a.

(** [Math.min(...xs)] and [Math.max(...xs)]. *)
Definition minOf (xs : list float) : float := fold_left mathMin xs infinity.
Definition maxOf (xs : list float) : float :=
  fold_left mathMax xs neg_infinity.

(** The two filters of [clean]; the [map] between them rebuilds each word
    around [+w.start] and [+w.end], which are the numbers themselves. *)
Definition sanitize (words : list WordTiming) : list WordTiming :=
  filter (fun w => (w_start w <=? w_end w)%float)
         (filter (fun w => is_finite (w_start w) && is_finite (w_end w))
                 words).

Definition shiftWord (offset : float) (w : WordTiming) : WordTiming :=
  {| w_word := w_word w; w_phoneme := w_phoneme w;
     w_start := (w_start w + offset)%float;
     w_end := (w_end w + offset)%float |}.

Definition normalizeWordsToAbsolute (seg : SegState) (words : list WordTiming)
    : list WordTiming * SegState :=
  match words with
  | [] => ([], seg)
  | _ =>
      match sanitize words with
      | [] => ([], seg)
      | clean =>
          let localMin := minOf (map w_start clean) in
          let localMax := maxOf (map w_end clean) in
          let candAbsMin := (segOffset seg + localMin)%float in
          let segOffset' :=
            if (candAbsMin + EPS <? lastAbsEnd seg)%float then
              let backstep := (lastAbsEnd seg - candAbsMin)%float in
              if (HARD_RESET_BACKSTEP <? backstep)%float
              then (lastAbsEnd seg + GAP_PAD)%float
              else (segOffset seg + (backstep + GAP_PAD))%float
            else segOffset seg in
          let adjusted := map (shiftWord segOffset') clean in
          (adjusted,
           {| segOffset := segOffset';
              lastAbsEnd :=
                mathMax (lastAbsEnd seg) (segOffset' + localMax)%float |})
      end
  end.

(** What the Normalizer may change in a word: each time becomes its sum
    with [offset], rounded on its own. *)
Definition shiftedBy (offset : float) (w w' : WordTiming) : Prop :=
  w_word w' = w_word w /\ w_phoneme w' = w_phoneme w
  /\ w_start w' = (w_start w + offset)%float
  /\ w_end w' = (w_end w + offset)%float.

(** [segStateRef] as the module initialises it, and the word cat over
    [0, 0.3]. *)
Definition initialSeg : SegState := {| segOffset := 0; lastAbsEnd := 0 |}.

Definition cat : WordTiming :=
  {| w_word := js "cat"; w_phoneme := js "kæt";
     w_start := 0; w_end := 0.3 |}.

(** The same word where a second delivery of it is placed. *)
Definition catAgain : WordTiming :=
  {| w_word := js "cat"; w_phoneme := js "kæt";
     w_start := 0.32999999999999996; w_end := 0.6299999999999999 |}.

(** [end - start] of a word. *)
Definition duration (w : WordTiming) : float := (w_end w - w_start w)%float.

End Binary64.

(** Scenario data for the sink: an envelope of viseme_aa in its hold
    phase, a second one still in its attack, one of viseme_kk in its hold
    phase; refs in which the three are active; a mesh that knows viseme_aa
    and one shape the lip sync never writes. *)
Definition holdEnvelope : ActiveEnv :=
  {| env_name := js "viseme_aa"; env_timeLeft := 0.05; env_total := 0.1;
     env_peak := 1; env_attack := 0.03; env_decay := 0.04 |}.

Definition speakingRefs : Refs :=
  {| t0Ref := Some 0;
     segStateRef := {| segOffset := 0; lastAbsEnd := 0.3 |};
     wordQueueRef := [];
     pendingEventsRef := [];
     activeEnvelopesRef :=
       [holdEnvelope;
        {| env_name := js "viseme_aa"; env_timeLeft := 0.085;
           env_total := 0.1; env_peak := 1; env_attack := 0.03;
           env_decay := 0.04 |};
        {| env_name := js "viseme_kk"; env_timeLeft := 0.05;
           env_total := 0.1; env_peak := 1; env_attack := 0.03;
           env_decay := 0.04 |}];
     seenEventsRef := ∅ |}.

Definition faceMesh : SkinnedMesh :=
  {| morphTargetDictionary :=
       Some (list_to_map [(js "viseme_aa", 0%nat);
                          (js "eyeBlinkLeft", 1%nat)]);
     morphTargetInfluences := Some [Num 0.5; Num 1] |}.

(* ===================================================================== *)
(** ** Basic facts *)
(* ===================================================================== *)

(** Table lookups are evaluated on closed terms only. *)
Arguments js : simpl never.
Arguments has : simpl never.
Arguments truthy : simpl never.
Arguments str_eqb : simpl never.
Arguments charIn : simpl never.
Arguments isVowelToken : simpl never.
Arguments tokenPriority : simpl never.
Arguments resolveTokenToVisemes : simpl never.
Arguments toFixed : simpl never.
Arguments makeEventKey : simpl never.
Arguments prefer : simpl never.
Arguments wordToVisemeEvents : simpl never.

Lemma Qlt_bool_true (a b : Q) : Qlt_bool a b = true <-> a < b.
Proof.
  unfold Qlt_bool. rewrite negb_true_iff.
  destruct (Qle_bool b a) eqn:E.
  - apply Qle_bool_iff in E. split; [discriminate | intros; lra].
  - split; [intros _ | reflexivity].
    apply Qnot_le_lt. intros H. apply Qle_bool_iff in H. congruence.
Qed.

Lemma Qlt_bool_false (a b : Q) : Qlt_bool a b = false <-> b <= a.
Proof.
  unfold Qlt_bool. rewrite negb_false_iff. apply Qle_bool_iff.
Qed.

Lemma Qle_bool_false (a b : Q) : Qle_bool a b = false <-> b < a.
Proof.
  destruct (Qle_bool a b) eqn:E.
  - apply Qle_bool_iff in E. split; [discriminate | intros; lra].
  - split; [intros _ | reflexivity].
    apply Qnot_le_lt. intros H. apply Qle_bool_iff in H. congruence.
Qed.

Lemma length_removelast_snoc {A : Type} (l : list A) (x y : A) :
  length (removelast (l ++ [x]) ++ [y]) = length (l ++ [x]).
Proof. rewrite removelast_last. rewrite !length_app. reflexivity. Qed.

Lemma last_is_Some_snoc {A : Type} (l : list A) (x : A) :
  last l = Some x -> exists l', l = l' ++ [x].
Proof.
  intros H. destruct (decide (l = [])) as [->|Hne]; [discriminate|].
  destruct (exists_last Hne) as (l' & y & ->).
  rewrite last_snoc in H. injection H as ->. eauto.
Qed.

(* ===================================================================== *)
(** ** Normalizer *)
(* ===================================================================== *)

Lemma normalize_nil (seg : SegState) (words : list RawWordTiming) :
  sanitize words = [] -> normalizeWordsToAbsolute seg words = ([], seg).
Proof.
  intros H. unfold normalizeWordsToAbsolute.
  destruct words; [reflexivity|]. rewrite H. reflexivity.
Qed.

Lemma normalize_cons (seg : SegState) (words : list RawWordTiming)
    (c : WordTiming) (cs : list WordTiming) :
  sanitize words = c :: cs ->
  let off :=
    if Qlt_bool (segOffset seg + localMinOf c cs + EPS) (lastAbsEnd seg) then
      if Qlt_bool HARD_RESET_BACKSTEP
                  (lastAbsEnd seg - (segOffset seg + localMinOf c cs))
      then lastAbsEnd seg + GAP_PAD
      else segOffset seg
           + (lastAbsEnd seg - (segOffset seg + localMinOf c cs) + GAP_PAD)
    else segOffset seg in
  normalizeWordsToAbsolute seg words =
    (map (shiftWord off) (c :: cs),
     {| segOffset := off;
        lastAbsEnd := Qmax (lastAbsEnd seg) (off + localMaxOf c cs) |}).
Proof.
  intros H. unfold normalizeWordsToAbsolute.
  destruct words as [|r rs]; [discriminate|]. rewrite H. reflexivity.
Qed.

Lemma normalize_lastAbsEnd_le (seg : SegState) (words : list RawWordTiming) :
  lastAbsEnd seg <= lastAbsEnd (snd (normalizeWordsToAbsolute seg words)).
Proof.
  destruct (sanitize words) as [|c cs] eqn:E.
  - rewrite (normalize_nil _ _ E). simpl. lra.
  - rewrite (normalize_cons _ _ _ _ E). simpl. apply Q.le_max_l.
Qed.

Lemma finiteWord_toRaw (r : RawWordTiming) (w : WordTiming) :
  finiteWord r = Some w -> toRaw w = r.
Proof.
  destruct r as [wd ph s e]. unfold finiteWord; simpl.
  destruct s, e; try discriminate. intros [= <-]. reflexivity.
Qed.

Lemma sanitize_sublist (words : list RawWordTiming) :
  sublist (map toRaw (sanitize words)) words.
Proof.
  unfold sanitize.
  induction words as [|r rs IH]; simpl; [constructor|].
  destruct (finiteWord r) as [w|] eqn:E; simpl.
  - rewrite filter_cons. destruct (decide _); simpl.
    + rewrite (finiteWord_toRaw _ _ E). apply sublist_skip, IH.
    + apply sublist_cons, IH.
  - apply sublist_cons, IH.
Qed.

(** A restart more than 800ms back opens a new segment, 30ms after the
    previous end; a smaller one is stitched behind it. *)
Example normalizer_new_segment :
  normalizeWordsToAbsolute {| segOffset := 0; lastAbsEnd := 2 |}
                           [rawWord "b" "b" 1 1.5]
  = ([{| w_word := js "b"; w_phoneme := js "b";
         w_start := 1 + (2 + 0.03); w_end := 1.5 + (2 + 0.03) |}],
     {| segOffset := 2 + 0.03;
        lastAbsEnd := Qmax 2 (2 + 0.03 + 1.5) |}).
Proof. reflexivity. Qed.

Example normalizer_drops_malformed :
  sanitize [ {| r_word := js "a"; r_phoneme := js "a";
                r_start := NaN; r_end := Finite 1 |};
             rawWord "b" "b" 2 1;
             {| r_word := js "c"; r_phoneme := js "k";
                r_start := Finite 0; r_end := PosInfinity |};
             rawWord "d" "d" 1 2 ]
  = [{| w_word := js "d"; w_phoneme := js "d"; w_start := 1; w_end := 2 |}].
Proof. reflexivity. Qed.

(** C7, as amended.  For a batch that does not regress (its candidate
    absolute start, segOffset + localMin, is not more than EPS before
    lastAbsEnd) the Normalizer keeps segOffset, returns every valid word
    shifted by segOffset, and sets lastAbsEnd to
    max(lastAbsEnd, segOffset + localMax).  Hence, when segOffset is 0 every
    word keeps its start and end, and when moreover localMax does not
    exceed lastAbsEnd the segment state is unchanged. *)
Theorem C7_nonregressing_batch (seg : SegState) (words : list RawWordTiming)
    (c : WordTiming) (cs : list WordTiming) :
  sanitize words = c :: cs ->
  ~ (segOffset seg + localMinOf c cs + EPS < lastAbsEnd seg) ->
  let adjusted := fst (normalizeWordsToAbsolute seg words) in
  let seg' := snd (normalizeWordsToAbsolute seg words) in
  segOffset seg' = segOffset seg /\
  adjusted = map (shiftWord (segOffset seg)) (c :: cs) /\
  lastAbsEnd seg' = Qmax (lastAbsEnd seg) (segOffset seg + localMaxOf c cs) /\
  (segOffset seg == 0 ->
   Forall2 sameTimes (c :: cs) adjusted /\
   (localMaxOf c cs <= lastAbsEnd seg -> lastAbsEnd seg' == lastAbsEnd seg)).
Proof.
  intros Hclean Hnr adjusted seg'. subst adjusted seg'.
  rewrite (normalize_cons _ _ _ _ Hclean).
  assert (Hb : Qlt_bool (segOffset seg + localMinOf c cs + EPS)
                        (lastAbsEnd seg) = false).
  { apply Qlt_bool_false. apply Qnot_lt_le. exact Hnr. }
  rewrite Hb. cbn [fst snd segOffset lastAbsEnd].
  repeat split; try reflexivity.
  - generalize (c :: cs). intros l.
    induction l as [|w l IH]; simpl; constructor; [|exact IH].
    unfold sameTimes, shiftWord; simpl. split; lra.
  - intros Hmax. apply Q.max_l. lra.
Qed.

Lemma C7_nonregressing_batch_witness :
  let seg := {| segOffset := 0; lastAbsEnd := 1 |} in
  let words := [rawWord "a" "ə" 0.998 1] in
  Forall2 sameTimes (sanitize words) (fst (normalizeWordsToAbsolute seg words))
  /\ lastAbsEnd (snd (normalizeWordsToAbsolute seg words)) == lastAbsEnd seg.
Proof.
  intros seg words.
  pose (c := {| w_word := js "a"; w_phoneme := js "ə";
                w_start := 0.998; w_end := 1 |}).
  assert (Hclean : sanitize words = [c]) by reflexivity.
  assert (Hnr : ~ (segOffset seg + localMinOf c [] + EPS < lastAbsEnd seg)).
  { vm_compute. discriminate. }
  destruct (C7_nonregressing_batch seg words c [] Hclean Hnr)
    as (_ & _ & _ & Hzero).
  destruct (Hzero ltac:(reflexivity)) as [Hsame Hend].
  split.
  - rewrite Hclean. exact Hsame.
  - apply Hend. vm_compute. discriminate.
Defined.

(** The claim as stated fails when the batch re-normalised is the
    Normalizer's own output.  Batch 1 spans [0, 1]; batch 2 restarts at 0 and
    is placed at [1.03, 1.53].  Feeding that absolute batch back does not
    regress (2.06 is past lastAbsEnd = 1.53), yet its words move to
    [2.06, 2.56] and lastAbsEnd moves to 2.56. *)
Lemma C7_counterexample :
  let seg0 := {| segOffset := 0; lastAbsEnd := 0 |} in
  let seg1 := snd (normalizeWordsToAbsolute seg0 [rawWord "a" "ə" 0 1]) in
  let r2 := normalizeWordsToAbsolute seg1 [rawWord "b" "ə" 0 0.5] in
  let absolute := map toRaw (fst r2) in
  let seg2 := snd r2 in
  let r3 := normalizeWordsToAbsolute seg2 absolute in
  (exists c, sanitize absolute = [c] /\
     ~ (segOffset seg2 + localMinOf c [] + EPS < lastAbsEnd seg2)) /\
  ~ Forall2 sameTimes (fst r2) (fst r3) /\
  ~ lastAbsEnd (snd r3) == lastAbsEnd seg2.
Proof.
  cbv zeta. split; [|split].
  - eexists. split; [reflexivity|]. vm_compute. discriminate.
  - intros H. vm_compute in H.
    inversion H as [|? ? ? ? [Hs _] _]; subst. vm_compute in Hs. discriminate.
  - vm_compute. discriminate.
Qed.

(** C8.  lastAbsEnd never decreases: not over one Normalizer call, and so
    not over any sequence of calls. *)
Theorem C8_lastAbsEnd_nondecreasing :
  (forall seg words,
     lastAbsEnd seg <= lastAbsEnd (snd (normalizeWordsToAbsolute seg words)))
  /\
  (forall batches seg, lastAbsEnd seg <= lastAbsEnd (normalizeAll seg batches)).
Proof.
  split; [exact normalize_lastAbsEnd_le|].
  unfold normalizeAll.
  induction batches as [|b bs IH]; intros seg; simpl; [lra|].
  eapply Qle_trans; [apply (normalize_lastAbsEnd_le seg b) | apply IH].
Qed.

Lemma sanitize64_sublist (words : list Binary64.WordTiming) :
  Binary64.sanitize words `sublist_of` words.
Proof.
  unfold Binary64.sanitize.
  etransitivity; apply sublist_filter.
Qed.

Lemma shiftWord64_shiftedBy (offset : PrimFloat.float)
    (l : list Binary64.WordTiming) :
  Forall2 (Binary64.shiftedBy offset) l (map (Binary64.shiftWord offset) l).
Proof.
  induction l as [|w l IH]; cbn [map]; constructor; [|exact IH].
  repeat split.
Qed.

(** C10, as amended.  On binary64 numbers, as the code runs: the
    Normalizer returns the surviving words (finite times and end >= start)
    in their input order; each keeps its text and phonetic transcription,
    and its start and its end are each the rounded sum of the original
    value and one offset common to the batch, the segment offset after the
    call.  The duration is not part of this: the two sums are rounded
    separately. *)
Theorem C10_normalizer_shifts (seg : Binary64.SegState)
    (words : list Binary64.WordTiming) :
  Forall2 (Binary64.shiftedBy
             (Binary64.segOffset
                (Binary64.normalizeWordsToAbsolute seg words).2))
          (Binary64.sanitize words)
          (Binary64.normalizeWordsToAbsolute seg words).1
  /\ Binary64.sanitize words `sublist_of` words.
Proof.
  split; [|apply sanitize64_sublist].
  unfold Binary64.normalizeWordsToAbsolute.
  destruct words as [|w ws]; [constructor|].
  destruct (Binary64.sanitize (w :: ws)) as [|c cs]; [constructor|].
  cbn [fst snd Binary64.segOffset]. apply shiftWord64_shiftedBy.
Qed.

(** The claim as stated fails on the duration: the word cat over [0, 0.3]
    is delivered twice.  The second copy is stitched after the first, at
    offset 0.3 + 0.03 = 0.32999999999999996; its start and end are rounded
    separately to 0.32999999999999996 and 0.6299999999999999, and their
    difference, 0.29999999999999993, is below the 0.3 the word came
    with. *)
Lemma C10_counterexample :
  let first :=
    Binary64.normalizeWordsToAbsolute Binary64.initialSeg [Binary64.cat] in
  let second := Binary64.normalizeWordsToAbsolute first.2 [Binary64.cat] in
  first.1 = [Binary64.cat]
  /\ second.1 = [Binary64.catAgain]
  /\ PrimFloat.ltb (Binary64.duration Binary64.catAgain)
                   (Binary64.duration Binary64.cat) = true.
Proof. vm_compute. repeat split. Qed.

(* ===================================================================== *)
(** ** Tokenizer and Allocator *)
(* ===================================================================== *)

Lemma scanLowest_range (out : list jsstr) :
  forall i best d,
    match scanLowest i out best d with
    | Some k => Some k = d \/ (i <= k < i + length out)%nat
    | None => d = None
    end.
Proof.
  induction out as [|t r IH]; intros i best d; cbn [scanLowest length].
  - destruct d; auto.
  - match goal with |- context [if ?b then _ else _] => destruct b end.
    + specialize (IH (S i) (Some (tokenPriority t
                                  + (if isVowelToken t then 100 else 0)))
                     (Some i)).
      destruct (scanLowest _ r _ _) as [k|]; [|discriminate].
      right. destruct IH as [[= ->]|IH]; lia.
    + specialize (IH (S i) best d).
      destruct (scanLowest _ r _ _) as [k|]; [|exact IH].
      destruct IH as [IH|IH]; [left; exact IH | right; lia].
Qed.

Lemma scanLowest_finds (out : list jsstr) :
  out <> [] ->
  exists k, scanLowest 0 out None None = Some k /\ (k < length out)%nat.
Proof.
  intros Hne. pose proof (scanLowest_range out 0 None None) as H.
  destruct (scanLowest 0 out None None) as [k|] eqn:E.
  - exists k. split; [reflexivity|].
    destruct H as [H|H]; [discriminate | lia].
  - destruct out as [|t r]; [congruence|]. cbn [scanLowest] in E.
    pose proof (scanLowest_range r 1
                  (Some (tokenPriority t + (if isVowelToken t then 100 else 0)))
                  (Some 0%nat)) as H'.
    rewrite E in H'. discriminate.
Qed.

(** The [while] loop of step 3 leaves by its own condition: with
    [length out] iterations available it stops at exactly [target] tokens
    when there were more, and changes nothing otherwise. *)
Lemma dropLoop_exits (fuel : nat) :
  forall (target : Z) (out : list jsstr),
    (0 <= target)%Z -> (length out <= fuel)%nat ->
    Z.of_nat (length (dropLoop fuel target out))
    = Z.min (Z.of_nat (length out)) target.
Proof.
  induction fuel as [|fuel IH]; intros target out Ht Hlen; cbn [dropLoop].
  - lia.
  - destruct (target <? Z.of_nat (length out))%Z eqn:E.
    + apply Z.ltb_lt in E.
      assert (Hne : out <> []) by (intros ->; simpl in E; lia).
      destruct (scanLowest_finds out Hne) as (k & -> & Hk).
      assert (Hd : length (delete k out) = (length out - 1)%nat).
      { apply length_delete. apply lookup_lt_is_Some. exact Hk. }
      rewrite IH by lia. rewrite Hd. lia.
    + apply Z.ltb_ge in E. lia.
Qed.

(** Step 3 on its own respects the floor of two tokens: the target is at
    least [KEEP_AT_LEAST]. *)
Lemma compressTokens_length (tokens : list jsstr) (span : Q) :
  length (compressTokens tokens span) = length tokens
  \/ (2 <= length (filter (fun t => negb (has DROPPABLE t)) tokens)
      -> 2 <= length (compressTokens tokens span))%nat.
Proof.
  unfold compressTokens. destruct tokens as [|t0 ts]; [left; reflexivity|].
  set (tokens := t0 :: ts).
  destruct (Qle_bool MIN_SLOT _ && _); [left; reflexivity|].
  right. intros Hkeep.
  match goal with |- (2 <= length (dropLoop ?f ?tg ?o))%nat =>
    pose proof (dropLoop_exits f tg o) as Hx end.
  unfold KEEP_AT_LEAST, WORD_EVENT_CAP in *.
  destruct (2 <? length tokens)%nat eqn:E.
  - assert (Hf : filter (fun t => negb (has DROPPABLE t && true)) tokens
                 = filter (fun t => negb (has DROPPABLE t)) tokens).
    { apply list_filter_iff. intros x. rewrite andb_true_r. reflexivity. }
    rewrite Hf in Hx |- *.
    specialize (Hx ltac:(lia) ltac:(lia)). lia.
  - apply Nat.ltb_ge in E.
    pose proof (length_filter (fun t => negb (has DROPPABLE t)) tokens).
    specialize (Hx ltac:(lia) ltac:(lia)). lia.
Qed.

Example tokenize_hello_world :
  tokenizeIPA (U := composedText) (js "həlˈoʊ wˈɝːld")
  = [js "h"; js "ə"; js "l"; js "oʊ"; js "w"; js "ɜɹ"; js "l"; js "d"].
Proof. vm_compute. reflexivity. Qed.

Example resolve_tokens :
  map resolveTokenToVisemes [js "oʊ"; js "tʃ"; js "ɑɹ"; js "ɜɹ"; js "x"]
  = [[js "viseme_O"; js "viseme_U"]; [js "viseme_CH"];
     [js "viseme_aa"; js "viseme_RR"]; [js "viseme_E"]; [js "viseme_E"]].
Proof. vm_compute. reflexivity. Qed.

(** C2, evaluated on the code.  The phonemes of "huh" tokenise to
    [h, ʌ, h], three tokens; spoken in 250ms they are compressed, and the
    weak-token filter of step 1 removes both [h] at once, leaving one
    token where the claim promises at least two. *)
Theorem C2_compress_leaves_one_token :
  tokenizeIPA (U := composedText) (w_phoneme huh) = [js "h"; js "ʌ"; js "h"]
  /\ compressTokens [js "h"; js "ʌ"; js "h"] 0.25 = [js "ʌ"]
  /\ map ev_name (wordToVisemeEvents (U := composedText) huh)
     = [js "viseme_E"]
  /\ compressTokens [js "h"; js "ɾ"; js "ʔ"] 0.1 = [].
Proof. repeat split; vm_compute; reflexivity. Qed.



(* ===================================================================== *)
(** ** Curator: rate limiter *)
(* ===================================================================== *)

(** C9.  In a conflict (the incoming event is closer than MIN_EVENT_GAP to
    the last accepted onset) between events of equal visibility score, the
    rate limiter leaves its state as it is: the event already kept stays
    last in [keep] and the incoming one is dropped. *)
Theorem C9_tie_keeps_earlier (keep : list VisemeEvent) (prev e : VisemeEvent)
    (lastAt : Q) :
  ev_at e - lastAt < MIN_EVENT_GAP ->
  prefer e == prefer prev ->
  rateStep (keep ++ [prev], Some lastAt) e = (keep ++ [prev], Some lastAt).
Proof.
  intros Hgap Htie. unfold rateStep, gapReached.
  assert (H1 : Qle_bool MIN_EVENT_GAP (ev_at e - lastAt) = false)
    by (apply Qle_bool_false; exact Hgap).
  assert (H2 : (length (keep ++ [prev]) =? 0)%nat = false)
    by (apply Nat.eqb_neq; rewrite length_app; simpl; lia).
  assert (H3 : Qlt_bool (prefer prev) (prefer e) = false)
    by (apply Qlt_bool_false; lra).
  rewrite H1, H2, last_snoc, H3. reflexivity.
Qed.

Lemma C9_tie_keeps_earlier_witness :
  rateStep ([] ++ [mkEvent 0 (js "viseme_kk") 0.1], Some 0)
           (mkEvent 0.05 (js "viseme_DD") 0.1)
  = ([] ++ [mkEvent 0 (js "viseme_kk") 0.1], Some 0).
Proof.
  apply (C9_tie_keeps_earlier [] (mkEvent 0 (js "viseme_kk") 0.1)
           (mkEvent 0.05 (js "viseme_DD") 0.1) 0).
  - vm_compute. reflexivity.
  - vm_compute. reflexivity.
Defined.

(** C4, evaluated on the code.  [prefer] looks the viseme name up in
    [V_MAP], whose keys are phoneme symbols, so no vowel viseme gets the
    vowel bonus: every vowel viseme scores 0, the same as viseme_kk.  A
    vowel arriving 50ms after a kept viseme_kk therefore loses the
    conflict: fed to the Curator directly, or delivered as the words
    k [0, 0.05] and æ [0.05, 0.3] while playing, only viseme_kk remains. *)
Theorem C4_vowel_loses_conflict :
  Forall (fun n => prefer (mkEvent 0 n 0.1) == 0)
         (js "viseme_kk" :: vowelVisemes)
  /\ decimateTimeline [mkEvent 0 (js "viseme_kk") 0.08;
                       mkEvent 0.05 (js "viseme_aa") 0.18]
     = [mkEvent 0 (js "viseme_kk") 0.08]
  /\ map ev_name
       (pendingEventsRef
          (onWordTiming (U := composedText)
             (onPlaybackStarted (U := composedText) 0 initialRefs)
             (ManyWords [rawWord "k" "k" 0 0.05; rawWord "a" "æ" 0.05 0.3])))
     = [js "viseme_kk"].
Proof.
  split; [|split].
  - repeat constructor.
  - vm_compute. reflexivity.
  - vm_compute. reflexivity.
Qed.

(* ===================================================================== *)
(** ** Curator: deduplication *)
(* ===================================================================== *)

Lemma insertByKey_perm {A : Type} (key : A -> Q) (x : A) (l : list A) :
  insertByKey key x l ≡ₚ x :: l.
Proof.
  induction l as [|y r IH]; simpl; [reflexivity|].
  destruct (Qle_bool (key x) (key y)); [reflexivity|].
  rewrite IH. apply Permutation_swap.
Qed.

Lemma sortByKey_perm {A : Type} (key : A -> Q) (l : list A) :
  sortByKey key l ≡ₚ l.
Proof.
  unfold sortByKey. induction l as [|x r IH]; simpl; [reflexivity|].
  rewrite insertByKey_perm, IH. reflexivity.
Qed.

Section Dedup.
Context {U : UnicodeData}.

Lemma pushEvent_unfold (seen : gset jsstr) (pending : list VisemeEvent)
    (ev : VisemeEvent) :
  pushEvent (seen, pending) ev
  = if bool_decide (makeEventKey ev ∈ seen) then (seen, pending)
    else ({[ makeEventKey ev ]} ∪ seen, pending ++ [ev]).
Proof. reflexivity. Qed.

Lemma covered_mono (seen seen' : gset jsstr) (w : WordTiming) :
  seen ⊆ seen' -> covered seen w -> covered seen' w.
Proof.
  intros Hsub [Hi|Hc]; [left; exact Hi | right].
  eapply Forall_impl; [exact Hc|]. intros ev Hin. apply Hsub, Hin.
Qed.

Lemma pushEvents_grow (evs : list VisemeEvent) :
  forall seen pending,
    seen ⊆ (fold_left pushEvent evs (seen, pending)).1
    /\ Forall (fun ev => makeEventKey ev
                          ∈ (fold_left pushEvent evs (seen, pending)).1) evs.
Proof.
  induction evs as [|ev evs IH]; intros seen pending; cbn [fold_left].
  - split; [reflexivity | constructor].
  - rewrite pushEvent_unfold.
    destruct (bool_decide (makeEventKey ev ∈ seen)) eqn:E.
    + apply bool_decide_eq_true in E.
      destruct (IH seen pending) as [Hs Hf].
      split; [exact Hs|]. constructor; [apply Hs, E | exact Hf].
    + destruct (IH ({[makeEventKey ev]} ∪ seen) (pending ++ [ev]))
        as [Hs Hf].
      split.
      * etransitivity; [apply union_subseteq_r | exact Hs].
      * constructor; [|exact Hf].
        apply Hs, elem_of_union_l, elem_of_singleton. reflexivity.
Qed.

Lemma pushEvents_noop (evs : list VisemeEvent) (seen : gset jsstr)
    (pending : list VisemeEvent) :
  Forall (fun ev => makeEventKey ev ∈ seen) evs ->
  fold_left pushEvent evs (seen, pending) = (seen, pending).
Proof.
  induction 1 as [|ev evs Hev _ IH]; cbn [fold_left]; [reflexivity|].
  rewrite pushEvent_unfold, bool_decide_eq_true_2 by exact Hev.
  exact IH.
Qed.

Lemma pushWord_grow (st : gset jsstr * list VisemeEvent) (w : WordTiming) :
  st.1 ⊆ (pushWord st w).1 /\ covered (pushWord st w).1 w.
Proof.
  destruct st as [seen pending]. unfold pushWord, covered.
  destruct (ignoredWord (w_word w)) eqn:E; simpl.
  - split; [reflexivity | left; reflexivity].
  - destruct (pushEvents_grow (wordToVisemeEvents w) seen pending)
      as [Hs Hf].
    split; [exact Hs | right; exact Hf].
Qed.

Lemma pushWords_grow (ws : list WordTiming) :
  forall st,
    st.1 ⊆ (fold_left pushWord ws st).1
    /\ Forall (covered (fold_left pushWord ws st).1) ws.
Proof.
  induction ws as [|w ws IH]; intros st; simpl.
  - split; [reflexivity | constructor].
  - destruct (pushWord_grow st w) as [Hs Hc].
    destruct (IH (pushWord st w)) as [Hs' Hf].
    split; [etransitivity; [exact Hs | exact Hs']|].
    constructor; [|exact Hf].
    eapply covered_mono; [exact Hs' | exact Hc].
Qed.

Lemma pushWords_noop (ws : list WordTiming) (seen : gset jsstr)
    (pending : list VisemeEvent) :
  Forall (covered seen) ws ->
  fold_left pushWord ws (seen, pending) = (seen, pending).
Proof.
  induction 1 as [|w ws Hw _ IH]; simpl; [reflexivity|].
  assert (Hp : pushWord (seen, pending) w = (seen, pending)).
  { unfold pushWord. destruct Hw as [-> | Hc]; [reflexivity|].
    destruct (ignoredWord (w_word w)); [reflexivity|].
    apply pushEvents_noop, Hc. }
  rewrite Hp. exact IH.
Qed.

(** After a batch has been pushed, pushing its words again, in any order,
    adds nothing: all their events are in the dedup set.  (The source sorts
    the batch in place, so a second push of the same array sees it in
    sorted order.) *)
Lemma repush_any_order (refs : Refs) (wordsAbs again : list WordTiming) :
  again ≡ₚ wordsAbs ->
  let refs1 := pushWordsToTimeline refs wordsAbs in
  fold_left pushWord again (seenEventsRef refs1, pendingEventsRef refs1)
  = (seenEventsRef refs1, pendingEventsRef refs1).
Proof.
  intros Hperm refs1. subst refs1.
  destruct wordsAbs as [|w ws].
  - apply Permutation_nil_r in Hperm. subst again. reflexivity.
  - unfold pushWordsToTimeline.
    set (sorted := sortByKey w_start (w :: ws)).
    pose proof (pushWords_grow sorted
                  (seenEventsRef refs, pendingEventsRef refs)) as [_ Hcov].
    destruct (fold_left pushWord sorted _) as [seen1 pending1].
    cbn [seenEventsRef pendingEventsRef fst] in *.
    apply pushWords_noop.
    assert (Hs : again ≡ₚ sorted).
    { subst sorted. rewrite Hperm. symmetry. apply sortByKey_perm. }
    rewrite Hs. exact Hcov.
Qed.
End Dedup.

Lemma mergeStep_length (merged : list VisemeEvent) (e : VisemeEvent) :
  (length (mergeStep merged e) <= S (length merged))%nat.
Proof.
  unfold mergeStep. destruct (last merged) as [l|] eqn:E.
  - destruct (last_is_Some_snoc _ _ E) as [m' ->].
    destruct (str_eqb (ev_name l) (ev_name e)
              && Qle_bool (ev_at e - (ev_at l + ev_duration l)) MERGE_SAME_GAP).
    + rewrite length_removelast_snoc. lia.
    + rewrite length_app. cbn [length]. lia.
  - rewrite length_app. cbn [length]. lia.
Qed.

Lemma rateStep_length (st : list VisemeEvent * option Q) (e : VisemeEvent) :
  (length (rateStep st e).1 <= S (length st.1))%nat.
Proof.
  destruct st as [keep lastAt]. unfold rateStep.
  destruct (gapReached e lastAt || (length keep =? 0)%nat); cbn [fst].
  - rewrite length_app. cbn [length]. lia.
  - destruct (last keep) as [prev|] eqn:E; cbn [fst]; [|lia].
    destruct (last_is_Some_snoc _ _ E) as [k' ->].
    destruct (Qlt_bool (prefer prev) (prefer e)); cbn [fst]; [|lia].
    rewrite length_removelast_snoc. lia.
Qed.

Lemma decimateTimeline_length (events : list VisemeEvent) :
  (length (decimateTimeline events) <= length events)%nat.
Proof.
  unfold decimateTimeline. destruct (length events <=? 1)%nat; [lia|].
  assert (Hm : forall evs m,
             (length (fold_left mergeStep evs m) <= length m + length evs)%nat).
  { induction evs as [|e evs IH]; intros m; cbn [fold_left length]; [lia|].
    pose proof (IH (mergeStep m e)). pose proof (mergeStep_length m e). lia. }
  assert (Hr : forall evs st,
             (length (fold_left rateStep evs st).1
              <= length st.1 + length evs)%nat).
  { induction evs as [|e evs IH]; intros st; cbn [fold_left length]; [lia|].
    pose proof (IH (rateStep st e)). pose proof (rateStep_length st e). lia. }
  specialize (Hm events []).
  specialize (Hr (fold_left mergeStep events []) ([], None)).
  cbn [fst length] in Hm, Hr. lia.
Qed.

(** The dedup set at work: the absolute word cat pushed twice. *)
Example second_push_of_cat :
  let playing := onPlaybackStarted (U := composedText) 0 initialRefs in
  let once := pushWordsToTimeline (U := composedText) playing [cat] in
  let twice := pushWordsToTimeline (U := composedText) once [cat] in
  map makeEventKey (pendingEventsRef once)
  = [js "viseme_kk@0.00"; js "viseme_aa@0.10"; js "viseme_DD@0.20"]
  /\ length (pendingEventsRef twice) = 3%nat.
Proof. vm_compute. split; reflexivity. Qed.

(** A copy that reached the pending queue through the pre-roll drain is
    not recognised by a later push: the drain records its events as
    name@onset with three decimals, the push looks for name@bucket with
    two.  The push therefore adds the three events again (the dedup set
    grows from three keys to six), and it is the Curator that folds each
    of them into its twin. *)
Example drained_copy_not_recognised :
  let queued :=
    {| t0Ref := None;
       segStateRef := {| segOffset := 0; lastAbsEnd := 0.3 |};
       wordQueueRef := [cat];
       pendingEventsRef := [];
       activeEnvelopesRef := [];
       seenEventsRef := ∅ |} in
  let playing := onPlaybackStarted (U := composedText) 0 queued in
  let pushed := pushWordsToTimeline (U := composedText) playing [cat] in
  size (seenEventsRef playing) = 3%nat
  /\ size (seenEventsRef pushed) = 6%nat
  /\ length (pendingEventsRef pushed) = 3%nat.
Proof. vm_compute. repeat split. Qed.

(** The claim as stated fails: while playing, the word cat over [0, 0.75]
    is delivered twice.  The first delivery queues three events; the
    Normalizer reads the second one as a restart and places it at
    [0.78, 1.53], so its events get new keys and three more events are
    queued.  (The onsets are 250ms apart, far from the 100ms of the
    Curator, so binary64 rounding decides nothing here.) *)
Lemma C3_counterexample :
  let playing := onPlaybackStarted (U := composedText) 0 initialRefs in
  let batch := ManyWords [rawWord "cat" "kæt" 0 0.75] in
  let first := onWordTiming (U := composedText) playing batch in
  let second := onWordTiming (U := composedText) first batch in
  map makeEventKey (pendingEventsRef first)
  = [js "viseme_kk@0.00"; js "viseme_aa@0.25"; js "viseme_DD@0.50"]
  /\ map makeEventKey (pendingEventsRef second)
     = [js "viseme_kk@0.00"; js "viseme_aa@0.25"; js "viseme_DD@0.50";
        js "viseme_kk@0.78"; js "viseme_aa@1.03"; js "viseme_DD@1.28"].
Proof. vm_compute. split; reflexivity. Qed.

(* ===================================================================== *)
(** ** Scheduler *)
(* ===================================================================== *)

Lemma mapGet_inRange (m : list (jsstr * Q)) (k : jsstr) (v : Q) :
  Forall inRange m -> mapGet m k = Some v -> 0 < v.
Proof.
  induction 1 as [|[k' v'] m Hx _ IH]; cbn [mapGet]; [discriminate|].
  destruct (str_eqb k' k); [|exact IH].
  intros [= <-]. apply Hx.
Qed.

Lemma mapSet_inRange (m : list (jsstr * Q)) (k : jsstr) (v : Q) :
  Forall inRange m -> inRange (k, v) -> Forall inRange (mapSet m k v).
Proof.
  intros Hm Hv.
  induction Hm as [|[k' v'] m Hx Hm IH]; cbn [mapSet].
  - constructor; [exact Hv | constructor].
  - destruct (str_eqb k' k); constructor; assumption.
Qed.

Lemma aggregateStep_inRange (gains : gmap jsstr Q) (byName : list (jsstr * Q))
    (env : ActiveEnv) :
  Forall inRange byName -> Forall inRange (aggregateStep gains byName env).
Proof.
  intros Hm. unfold aggregateStep.
  destruct (Qle_bool (envValueFromCountdown env) 0); [exact Hm|].
  set (val := Qmin MORPH_CAP
                (envValueFromCountdown env * default 1 (gains !! env_name env))).
  destruct (Qlt_bool (default 0 (mapGet byName (env_name env))) val) eqn:E;
    [|exact Hm].
  apply Qlt_bool_true in E.
  apply mapSet_inRange; [exact Hm|].
  split; cbn [snd].
  - destruct (mapGet byName (env_name env)) as [old|] eqn:G; cbn in E.
    + pose proof (mapGet_inRange _ _ _ Hm G). lra.
    + exact E.
  - apply Q.le_min_l.
Qed.

Lemma aggregate_inRange (gains : gmap jsstr Q) (active : list ActiveEnv) :
  forall byName,
    Forall inRange byName ->
    Forall inRange (fold_left (aggregateStep gains) active byName).
Proof.
  induction active as [|env active IH]; intros byName Hm; cbn [fold_left].
  - exact Hm.
  - apply IH, aggregateStep_inRange, Hm.
Qed.

Lemma written_writes (byName : list (jsstr * Q)) (factor : Q) :
  written (map (fun '(name, val) => SetViseme name val) byName
           ++ [DecayVisemes factor]) = byName.
Proof.
  unfold written.
  induction byName as [|[k v] m IH]; [reflexivity|].
  cbn [map app omap list_omap]. simpl. f_equal. exact IH.
Qed.

(** C6.  Whatever the gain table, the envelopes and the tick, every
    intensity a frame writes to the sink lies between 0 and the cap
    MORPH_CAP = 0.9. *)
Theorem C6_written_intensity_bounded (gains : gmap jsstr Q) (decayFactor : Q)
    (ctx : option Q) (rawDt : Q) (refs : Refs) :
  MORPH_CAP == 0.9
  /\ Forall (fun entry => 0 <= entry.2 /\ entry.2 <= MORPH_CAP)
            (written (frame gains decayFactor ctx rawDt refs).2).
Proof.
  split; [reflexivity|].
  unfold frame.
  destruct ctx as [currentTime|]; [|constructor].
  destruct (t0Ref refs) as [t0|]; [|constructor].
  destruct (promoteDueEvents _ _ _) as [pending active].
  cbn [snd]. rewrite written_writes.
  eapply Forall_impl; [apply aggregate_inRange; constructor|].
  intros entry [Hpos Hcap]. split; [lra | exact Hcap].
Qed.

(* ===================================================================== *)
(** ** Playback stop *)
(* ===================================================================== *)

(** C1.  The stop handler does not clear the pre-roll word queue: it
    never touches [wordQueueRef].  The word cat over [0, 0.3] is delivered
    before playback starts and waits in the queue; a stop arriving then (the
    [stop_tts] message) resets the segment state and the dedup set but
    leaves the word where it is, and the next playback start drains the
    stale word into the pending queue of the new utterance. *)
Theorem C1_stop_keeps_preroll_queue :
  (forall refs : Refs,
     wordQueueRef (onPlaybackStopped refs) = wordQueueRef refs)
  /\
  (let armed :=
     onWordTiming (U := composedText) initialRefs
                  (OneWord (rawWord "cat" "kæt" 0.0 0.3)) in
   let stopped := onPlaybackStopped armed in
   let next := onPlaybackStarted (U := composedText) 5 stopped in
   t0Ref armed = None
   /\ length (wordQueueRef armed) = 1%nat
   /\ length (wordQueueRef stopped) = 1%nat
   /\ segStateRef stopped = {| segOffset := 0; lastAbsEnd := 0 |}
   /\ seenEventsRef stopped = ∅
   /\ map ev_name (pendingEventsRef next)
      = [js "viseme_kk"; js "viseme_aa"; js "viseme_DD"]).
Proof.
  split; [reflexivity|]. vm_compute. repeat split.
Qed.

Section EventLoop.
Context {U : UnicodeData}.

Lemma pushWordsToTimeline_frame (refs : Refs) (wordsAbs : list WordTiming) :
  t0Ref (pushWordsToTimeline refs wordsAbs) = t0Ref refs
  /\ wordQueueRef (pushWordsToTimeline refs wordsAbs) = wordQueueRef refs.
Proof.
  unfold pushWordsToTimeline. destruct wordsAbs as [|w ws]; [auto|].
  destruct (fold_left pushWord _ _) as [seen pending]. auto.
Qed.

Lemma handle_drained (refs : Refs) (i : Input) :
  drained refs -> drained (handle refs i).
Proof.
  unfold drained. intros Inv. destruct i as [content|now| |ctx rawDt];
    cbn [handle].
  - unfold onWordTiming.
    destruct (normalizeWordsToAbsolute _ _) as [adjusted seg].
    cbn [t0Ref]. destruct (t0Ref refs) as [t0|] eqn:E.
    + match goal with |- context [pushWordsToTimeline ?r ?a] =>
        destruct (pushWordsToTimeline_frame r a) as [-> ->] end.
      cbn [t0Ref wordQueueRef]. intros _. apply Inv. discriminate.
    + cbn [t0Ref]. congruence.
  - unfold onPlaybackStarted, prepareTimelineFromWords.
    destruct (fold_left _ _ _) as [seen events]. reflexivity.
  - cbn [onPlaybackStopped t0Ref]. congruence.
  - unfold frame. destruct ctx as [currentTime|]; [|exact Inv].
    destruct (t0Ref refs) as [t0|] eqn:E; [|cbn [fst]; rewrite E; congruence].
    destruct (promoteDueEvents _ _ _) as [pending active].
    cbn [fst t0Ref wordQueueRef]. intros _. apply Inv. discriminate.
Qed.

Lemma run_drained (inputs : list Input) :
  forall refs, drained refs -> drained (run refs inputs).
Proof.
  unfold run. induction inputs as [|i inputs IH]; intros refs Inv;
    cbn [fold_left]; [exact Inv|].
  apply IH, handle_drained, Inv.
Qed.

(** A stop that ends an active segment (anchor set) finds the pre-roll
    queue empty, and so leaves every per-segment collection empty. *)
Lemma stop_of_active_segment (inputs : list Input) :
  let refs := run initialRefs inputs in
  t0Ref refs <> None ->
  wordQueueRef (onPlaybackStopped refs) = [].
Proof.
  intros refs Hanchor. cbn [onPlaybackStopped wordQueueRef].
  apply (run_drained inputs initialRefs); [|exact Hanchor].
  intros H. reflexivity.
Qed.
End EventLoop.

(** What the stop handler does reset: the anchor, the segment state, the
    dedup set, the pending queue and the active set. *)
Lemma onPlaybackStopped_resets (refs : Refs) :
  let refs' := onPlaybackStopped refs in
  t0Ref refs' = None
  /\ segStateRef refs' = {| segOffset := 0; lastAbsEnd := 0 |}
  /\ seenEventsRef refs' = ∅
  /\ pendingEventsRef refs' = []
  /\ activeEnvelopesRef refs' = [].
Proof. repeat split. Qed.


(* ===================================================================== *)
(** ** Normalizer: placement of a batch *)
(* ===================================================================== *)

Lemma minOf_le_start (xs : list Q) (x : Q) :
  minOf x xs <= x /\ Forall (fun y => minOf x xs <= y) xs.
Proof.
  unfold minOf. revert x.
  induction xs as [|y ys IH]; intros x; cbn [fold_left].
  - split; [lra | constructor].
  - destruct (IH (Qmin x y)) as [H1 H2].
    pose proof (Q.le_min_l x y). pose proof (Q.le_min_r x y).
    split; [lra|]. constructor; [lra | exact H2].
Qed.

Lemma maxOf_ge_end (xs : list Q) (x : Q) :
  x <= maxOf x xs /\ Forall (fun y => y <= maxOf x xs) xs.
Proof.
  unfold maxOf. revert x.
  induction xs as [|y ys IH]; intros x; cbn [fold_left].
  - split; [lra | constructor].
  - destruct (IH (Qmax x y)) as [H1 H2].
    pose proof (Q.le_max_l x y). pose proof (Q.le_max_r x y).
    split; [lra|]. constructor; [lra | exact H2].
Qed.

Lemma localMinOf_le (c : WordTiming) (cs : list WordTiming) :
  Forall (fun w => localMinOf c cs <= w_start w) (c :: cs).
Proof.
  unfold localMinOf.
  destruct (minOf_le_start (map w_start cs) (w_start c)) as [H1 H2].
  constructor; [exact H1|]. rewrite Forall_map in H2. exact H2.
Qed.

Lemma localMaxOf_ge (c : WordTiming) (cs : list WordTiming) :
  Forall (fun w => w_end w <= localMaxOf c cs) (c :: cs).
Proof.
  unfold localMaxOf.
  destruct (maxOf_ge_end (map w_end cs) (w_end c)) as [H1 H2].
  constructor; [exact H1|]. rewrite Forall_map in H2. exact H2.
Qed.

Lemma sanitize_valid (words : list RawWordTiming) :
  Forall (fun w => w_start w <= w_end w) (sanitize words).
Proof.
  unfold sanitize. apply Forall_forall. intros w Hin.
  apply list_elem_of_filter in Hin as [Hle _].
  apply Is_true_true, Qle_bool_iff in Hle. exact Hle.
Qed.

Lemma sanitize_nil_iff (words : list RawWordTiming) :
  sanitize words = [] <-> Forall malformed words.
Proof.
  unfold sanitize.
  induction words as [|r rs IH]; cbn [omap list_omap].
  - split; [constructor | reflexivity].
  - unfold malformed at 1.
    destruct (finiteWord r) as [w|] eqn:E.
    + rewrite filter_cons.
      destruct (decide (Is_true (Qle_bool (w_start w) (w_end w)))) as [Hv|Hv].
      * split; [discriminate|].
        intros H. apply Forall_cons in H as [Hm _].
        unfold malformed in Hm. rewrite E in Hm.
        apply Is_true_true, Qle_bool_iff in Hv. lra.
      * rewrite IH. split.
        -- intros H. constructor; [|exact H].
           unfold malformed. rewrite E.
           apply Qnot_le_lt. intros Hle. apply Hv.
           apply Is_true_true, Qle_bool_iff. exact Hle.
        -- intros H. apply Forall_cons in H as [_ H]. exact H.
    + rewrite IH. split.
      * intros H. constructor; [|exact H]. unfold malformed. rewrite E. exact I.
      * intros H. apply Forall_cons in H as [_ H]. exact H.
Qed.

(** X1.  The words the Normalizer returns are well-formed intervals, there
    is one per valid input word, and the stored lastAbsEnd is at or after
    the end of every one of them. *)
Theorem normalize_output_covered (seg : SegState) (words : list RawWordTiming) :
  let out := fst (normalizeWordsToAbsolute seg words) in
  let seg' := snd (normalizeWordsToAbsolute seg words) in
  length out = length (sanitize words)
  /\ Forall (fun w => w_start w <= w_end w /\ w_end w <= lastAbsEnd seg') out.
Proof.
  intros out seg'. subst out seg'.
  pose proof (sanitize_valid words) as Hvalid.
  destruct (sanitize words) as [|c cs] eqn:E.
  - rewrite (normalize_nil _ _ E). split; [reflexivity | constructor].
  - rewrite (normalize_cons _ _ _ _ E). cbn [fst snd lastAbsEnd].
    split; [apply length_map|].
    set (off := if Qlt_bool _ _ then _ else _).
    pose proof (localMaxOf_ge c cs) as Hmax.
    pose proof (Q.le_max_r (lastAbsEnd seg) (off + localMaxOf c cs)) as Hr.
    rewrite Forall_map. revert Hvalid Hmax.
    generalize (c :: cs). intros l Hvalid Hmax.
    induction l as [|w l IH]; constructor.
    + apply Forall_cons in Hvalid as [Hv _].
      apply Forall_cons in Hmax as [Hm _].
      unfold shiftWord; cbn [w_start w_end]. split; lra.
    + apply Forall_cons in Hvalid as [_ Hv].
      apply Forall_cons in Hmax as [_ Hm]. exact (IH Hv Hm).
Qed.

(** X2.  A batch in which every word is malformed (a non-finite time, or
    end < start) is a no-op: nothing is returned and the segment state is
    left as it was; and the Normalizer returns nothing only for such a
    batch. *)
Theorem normalize_malformed_batch (seg : SegState) (words : list RawWordTiming) :
  (fst (normalizeWordsToAbsolute seg words) = [] <-> Forall malformed words)
  /\ (fst (normalizeWordsToAbsolute seg words) = [] ->
      snd (normalizeWordsToAbsolute seg words) = seg).
Proof.
  rewrite <- sanitize_nil_iff.
  destruct (sanitize words) as [|c cs] eqn:E.
  - rewrite (normalize_nil _ _ E). repeat split; reflexivity.
  - rewrite (normalize_cons _ _ _ _ E). cbn [fst snd map].
    repeat split; discriminate.
Qed.

Lemma normalize_malformed_batch_witness :
  let seg := {| segOffset := 0.5; lastAbsEnd := 2 |} in
  let words := [ {| r_word := js "a"; r_phoneme := js "ə";
                    r_start := NaN; r_end := Finite 1 |};
                 rawWord "b" "b" 2 1 ] in
  normalizeWordsToAbsolute seg words = ([], seg).
Proof.
  intros seg words.
  destruct (normalize_malformed_batch seg words) as [Hiff Hseg].
  assert (Hm : Forall malformed words).
  { repeat constructor. }
  apply Hiff in Hm. specialize (Hseg Hm).
  destruct (normalizeWordsToAbsolute seg words) as [out seg'].
  cbn [fst snd] in Hm, Hseg. subst. reflexivity.
Defined.

(** X4.  When the times of a batch are not negative, no returned word
    starts more than EPS before the lastAbsEnd the call found: the new
    batch never overlaps the timeline already laid out by more than the
    tolerance. *)
Theorem normalize_no_overlap (seg : SegState) (words : list RawWordTiming) :
  Forall (fun w => 0 <= w_start w) (sanitize words) ->
  Forall (fun w => lastAbsEnd seg - EPS <= w_start w)
         (fst (normalizeWordsToAbsolute seg words)).
Proof.
  intros Hpos.
  destruct (sanitize words) as [|c cs] eqn:E.
  - rewrite (normalize_nil _ _ E). constructor.
  - rewrite (normalize_cons _ _ _ _ E). cbn [fst].
    pose proof (localMinOf_le c cs) as Hmin.
    assert (Hmin0 : 0 <= localMinOf c cs).
    { unfold localMinOf, minOf. clear Hmin E.
      apply Forall_cons in Hpos as [H0 Hpos].
      revert H0. generalize (w_start c). 
      induction cs as [|w ws IH]; intros x Hx; cbn [map fold_left];
        [exact Hx|].
      apply Forall_cons in Hpos as [Hw Hpos].
      apply (IH Hpos). apply Q.min_glb; assumption. }
    set (off := if Qlt_bool _ _ then _ else _).
    assert (Hoff : lastAbsEnd seg - EPS <= off + localMinOf c cs).
    { subst off.
      destruct (Qlt_bool (segOffset seg + localMinOf c cs + EPS)
                         (lastAbsEnd seg)) eqn:R.
      - destruct (Qlt_bool HARD_RESET_BACKSTEP _) eqn:B;
          unfold EPS, GAP_PAD; lra.
      - apply Qlt_bool_false in R. lra. }
    rewrite Forall_map.
    eapply Forall_impl; [exact Hmin|].
    intros w Hw. cbv beta in Hw. unfold shiftWord; cbn [w_start]. lra.
Qed.

Lemma normalize_no_overlap_witness :
  Forall (fun w => 2 - EPS <= w_start w)
    (fst (normalizeWordsToAbsolute {| segOffset := 0; lastAbsEnd := 2 |}
            [rawWord "a" "ə" 0 0.4; rawWord "b" "b" 0.4 0.9])).
Proof.
  apply (normalize_no_overlap {| segOffset := 0; lastAbsEnd := 2 |}
           [rawWord "a" "ə" 0 0.4; rawWord "b" "b" 0.4 0.9]).
  repeat constructor; vm_compute; discriminate.
Defined.


(* ===================================================================== *)
(** ** Tokenizer: what the tokens are made of *)
(* ===================================================================== *)

Lemma removeChars_keep (f : N -> bool) (c : N) (s : jsstr) :
  f c = false -> removeChars f (c :: s) = c :: removeChars f s.
Proof.
  intros H. unfold removeChars. rewrite filter_cons, H. reflexivity.
Qed.

Lemma removeChars_drop (f : N -> bool) (c : N) (s : jsstr) :
  f c = true -> removeChars f (c :: s) = removeChars f s.
Proof.
  intros H. unfold removeChars. rewrite filter_cons, H. reflexivity.
Qed.

Lemma removeChars_elem (f : N -> bool) (c : N) (s : jsstr) :
  c ∈ removeChars f s <-> f c = false /\ c ∈ s.
Proof.
  unfold removeChars. rewrite list_elem_of_filter.
  destruct (f c); simpl; intuition congruence.
Qed.

Lemma in_set_cases (set : gset jsstr) (l : list jsstr) (x : jsstr) :
  set = list_to_set l -> has set x = true -> x ∈ l.
Proof.
  intros -> H. unfold has in H. apply bool_decide_eq_true in H.
  apply elem_of_list_to_set in H. exact H.
Qed.

Lemma diphthong_not_skipped (ch next : N) :
  has DIPHTHONGS [ch; next] = true ->
  isSkipped ch = false /\ isSkipped next = false.
Proof.
  intros H. apply (in_set_cases _ _ _ eq_refl) in H.
  repeat (apply elem_of_cons in H as [H|H];
          [injection H as -> ->; split; vm_compute; reflexivity|]).
  apply elem_of_nil in H. destruct H.
Qed.

Lemma vowel_not_skipped (ch : N) :
  has VOWELS [ch] = true -> isSkipped ch = false.
Proof.
  intros H. apply (in_set_cases _ _ _ eq_refl) in H.
  repeat (apply elem_of_cons in H as [H|H];
          [injection H as ->; vm_compute; reflexivity|]).
  apply elem_of_nil in H. destruct H.
Qed.

Lemma rhotic_not_skipped (ch : N) :
  has RHOTICS [ch] = true -> isSkipped ch = false.
Proof.
  intros H. apply (in_set_cases _ _ _ eq_refl) in H.
  repeat (apply elem_of_cons in H as [H|H];
          [injection H as ->; vm_compute; reflexivity|]).
  apply elem_of_nil in H. destruct H.
Qed.

Lemma tokenizeLoop_two (ch next : N) (rest : jsstr) :
  tokenizeLoop (ch :: next :: rest)
  = if has DIPHTHONGS [ch; next] then [ch; next] :: tokenizeLoop rest
    else if has VOWELS [ch] && has RHOTICS [next]
    then [ch; next] :: tokenizeLoop rest
    else if isSkipped ch then tokenizeLoop (next :: rest)
    else [ch] :: tokenizeLoop (next :: rest).
Proof. reflexivity. Qed.

Lemma tokenizeLoop_partition_n (n : nat) :
  forall str : jsstr,
    (length str <= n)%nat ->
    Forall (fun t => length t = 1%nat
                     \/ (length t = 2%nat
                         /\ (has DIPHTHONGS t = true
                             \/ (has VOWELS (charAt0 t) = true
                                 /\ has RHOTICS (charAt1 t) = true))))
           (tokenizeLoop str)
    /\ concat (tokenizeLoop str) = removeChars isSkipped str.
Proof.
  induction n as [|n IH]; intros str Hlen.
  - destruct str; [|cbn [length] in Hlen; lia].
    split; [constructor | reflexivity].
  - destruct str as [|ch rest]; [split; [constructor | reflexivity]|].
    destruct rest as [|next rest'].
    + cbn [tokenizeLoop].
      change (isWhiteSpace ch || charIn ",;:!?-" ch) with (isSkipped ch).
      destruct (isSkipped ch) eqn:S.
      * split; [constructor|]. rewrite (removeChars_drop _ _ _ S). reflexivity.
      * split; [repeat constructor|].
        rewrite (removeChars_keep _ _ _ S). reflexivity.
    + cbn [length] in Hlen.
      destruct (IH rest' ltac:(lia)) as [IH1 IH2].
      destruct (IH (next :: rest') ltac:(cbn [length]; lia)) as [IH3 IH4].
      rewrite tokenizeLoop_two.
      destruct (has DIPHTHONGS [ch; next]) eqn:D.
      * destruct (diphthong_not_skipped _ _ D) as [S1 S2].
        split; [constructor; [right; split; [reflexivity | left; exact D]
                             | exact IH1]|].
        cbn [concat app].
        rewrite (removeChars_keep _ _ _ S1), (removeChars_keep _ _ _ S2), IH2.
        reflexivity.
      * destruct (has VOWELS [ch] && has RHOTICS [next]) eqn:R.
        -- apply andb_true_iff in R as [R1 R2].
           pose proof (vowel_not_skipped _ R1) as S1.
           pose proof (rhotic_not_skipped _ R2) as S2.
           split; [constructor;
                   [right; split; [reflexivity | right; split; assumption]
                   | exact IH1]|].
           cbn [concat app].
           rewrite (removeChars_keep _ _ _ S1), (removeChars_keep _ _ _ S2), IH2.
           reflexivity.
        -- destruct (isSkipped ch) eqn:S.
           ++ split; [exact IH3|].
              rewrite (removeChars_drop _ _ _ S). exact IH4.
           ++ split; [constructor; [left; reflexivity | exact IH3]|].
              cbn [concat app].
              rewrite (removeChars_keep _ _ _ S), IH4. reflexivity.
Qed.

(** X5.  The tokenizer loop cuts the string into tokens of one or two
    characters, a two-character token being a listed diphthong or affricate
    or a vowel followed by a rhotic; read back in order, the tokens spell
    the string without the characters the loop skips, which are white
    space and [, ; : ! ? -]: no other character is lost, added or moved. *)
Theorem tokenizeLoop_partition (str : jsstr) :
  Forall (fun t => length t = 1%nat
                   \/ (length t = 2%nat
                       /\ (has DIPHTHONGS t = true
                           \/ (has VOWELS (charAt0 t) = true
                               /\ has RHOTICS (charAt1 t) = true))))
         (tokenizeLoop str)
  /\ concat (tokenizeLoop str) = removeChars isSkipped str.
Proof. apply (tokenizeLoop_partition_n (length str)). lia. Qed.


Lemma Forall_replaceChar (P : N -> Prop) (c r s : jsstr) :
  Forall P r -> Forall P s -> Forall P (replaceChar c r s).
Proof.
  intros Hr Hs. unfold replaceChar.
  induction Hs as [|x s Hx _ IH]; cbn [flat_map]; [constructor|].
  apply Forall_app. split; [|exact IH].
  destruct (str_eqb [x] c); [exact Hr | constructor; [exact Hx | constructor]].
Qed.

Lemma replaceChar_gone_char (x : N) (r s : jsstr) :
  Forall (fun y => (y =? x)%N = false) r ->
  Forall (fun y => (y =? x)%N = false) (replaceChar [x] r s).
Proof.
  intros Hr. unfold replaceChar.
  induction s as [|a s IH]; cbn [flat_map]; [constructor|].
  apply Forall_app. split; [|exact IH].
  unfold str_eqb. destruct (bool_decide ([a] = [x])) eqn:E; [exact Hr|].
  constructor; [|constructor].
  apply N.eqb_neq. intros ->. rewrite bool_decide_eq_true_2 in E by reflexivity.
  discriminate.
Qed.

Lemma Forall_removeChars (P : N -> Prop) (f : N -> bool) (s : jsstr) :
  Forall P s -> Forall P (removeChars f s).
Proof.
  rewrite !Forall_forall. intros H c Hc.
  apply removeChars_elem in Hc as [_ Hc]. exact (H c Hc).
Qed.

Lemma removeChars_gone (f : N -> bool) (s : jsstr) :
  Forall (fun y => f y = false) (removeChars f s).
Proof.
  apply Forall_forall. intros c Hc.
  apply removeChars_elem in Hc as [Hc _]. exact Hc.
Qed.

Lemma removeChars_gone_char (f : N -> bool) (x : N) (s : jsstr) :
  f x = true -> Forall (fun y => (y =? x)%N = false) (removeChars f s).
Proof.
  intros Hx. eapply Forall_impl; [apply removeChars_gone|].
  intros y Hy. cbv beta in Hy. apply N.eqb_neq. intros ->. congruence.
Qed.

Lemma Forall_dropLeading (P : N -> Prop) (f : N -> bool) (s : jsstr) :
  Forall P s -> Forall P (dropLeading f s).
Proof.
  induction 1 as [|x s Hx Hs IH]; cbn [dropLeading]; [constructor|].
  destruct (f x); [exact IH | constructor; assumption].
Qed.

Lemma Forall_trim (P : N -> Prop) (s : jsstr) :
  Forall P s -> Forall P (trim s).
Proof.
  intros H. unfold trim.
  apply Forall_rev, Forall_dropLeading, Forall_rev, Forall_dropLeading, H.
Qed.

Section Marks.
Context {U : UnicodeData}.

Lemma Forall_stripMarks_n (P : N -> Prop) (n : nat) :
  forall s : jsstr,
    (length s <= n)%nat -> Forall P s -> Forall P (stripMarks s).
Proof.
  induction n as [|n IH]; intros s Hlen Hs.
  - destruct s; [constructor | cbn [length] in Hlen; lia].
  - destruct s as [|hi r]; [constructor|].
    destruct r as [|lo r']; cbn [stripMarks].
    + destruct (isMark hi); [constructor | exact Hs].
    + cbn [length] in Hlen.
      apply Forall_cons in Hs as [Hhi Hr].
      pose proof Hr as Hr0. apply Forall_cons in Hr0 as [Hlo Hr'].
      assert (H1 : Forall P (stripMarks r')) by (apply IH; [lia | exact Hr']).
      assert (H2 : Forall P (stripMarks (lo :: r')))
        by (apply IH; [cbn [length]; lia | exact Hr]).
      destruct (_ && _ && _ && _)%bool.
      * destruct (isMark _); [exact H1|].
        constructor; [exact Hhi|]. constructor; [exact Hlo | exact H1].
      * destruct (isMark hi); [exact H2 | constructor; [exact Hhi | exact H2]].
Qed.

Lemma Forall_stripMarks (P : N -> Prop) (s : jsstr) :
  Forall P s -> Forall P (stripMarks s).
Proof. apply (Forall_stripMarks_n P (length s)). lia. Qed.
End Marks.

(** The replacement of step 7 for an upper-case letter. *)
Lemma lowered_is_lower_case (c : N) :
  isUpperAZ c = true ->
  Forall (fun y => (0x61 <= y <= 0x7A)%N)
         (default (toLowerAZ c) (KOKORO_UPPER_FIXES !! [c])).
Proof.
  intros H. unfold isUpperAZ in H.
  apply andb_true_iff in H as [H1 H2].
  apply N.leb_le in H1, H2.
  assert (Hc : c = 65%N \/ c = 66%N \/ c = 67%N \/ c = 68%N \/ c = 69%N \/ c = 70%N \/ c = 71%N \/ c = 72%N \/ c = 73%N \/ c = 74%N \/ c = 75%N \/ c = 76%N \/ c = 77%N \/ c = 78%N \/ c = 79%N \/ c = 80%N \/ c = 81%N \/ c = 82%N \/ c = 83%N \/ c = 84%N \/ c = 85%N \/ c = 86%N \/ c = 87%N \/ c = 88%N \/ c = 89%N \/ c = 90%N) by lia.
  repeat (destruct Hc as [->|Hc]; [vm_compute; repeat constructor; discriminate|]).
  subst c. vm_compute. repeat constructor; discriminate.
Qed.

Lemma Forall_lower (P : N -> Prop) (s : jsstr) :
  (forall y, (0x61 <= y <= 0x7A)%N -> P y) ->
  Forall P s ->
  Forall P (flat_map (fun c =>
                        if isUpperAZ c
                        then default (toLowerAZ c) (KOKORO_UPPER_FIXES !! [c])
                        else [c]) s).
Proof.
  intros Hlow Hs.
  induction Hs as [|x s Hx _ IH]; cbn [flat_map]; [constructor|].
  apply Forall_app. split; [|exact IH].
  destruct (isUpperAZ x) eqn:E; [|constructor; [exact Hx | constructor]].
  eapply Forall_impl; [apply lowered_is_lower_case, E|]. exact Hlow.
Qed.

Lemma lower_gone (s : jsstr) :
  Forall (fun y => isUpperAZ y = false)
         (flat_map (fun c =>
                      if isUpperAZ c
                      then default (toLowerAZ c) (KOKORO_UPPER_FIXES !! [c])
                      else [c]) s).
Proof.
  induction s as [|x s IH]; cbn [flat_map]; [constructor|].
  apply Forall_app. split; [|exact IH].
  destruct (isUpperAZ x) eqn:E; [|constructor; [exact E | constructor]].
  eapply Forall_impl; [apply lowered_is_lower_case, E|].
  intros y Hy. cbv beta in Hy. unfold isUpperAZ.
  apply andb_false_iff. right. apply N.leb_gt. lia.
Qed.

(** One stage of [normalizePhonemeString] applied to "the character [x]
    does not occur": the stage that removes [x] establishes it, every
    other stage keeps it. *)
Ltac stage_keeps_out :=
  first
    [ apply Forall_trim
    | apply removeChars_gone_char; vm_compute; reflexivity
    | apply replaceChar_gone_char; repeat constructor
    | apply Forall_removeChars
    | apply Forall_lower; [intros y Hy; apply N.eqb_neq; lia|]
    | apply Forall_stripMarks
    | apply Forall_replaceChar; [repeat constructor|] ].

Section Alphabet.
Context {U : UnicodeData}.

Lemma normalized_without (x : N) (s : jsstr) :
  x ∈ rewrittenChars ->
  Forall (fun y => (y =? x)%N = false) (normalizePhonemeString s).
Proof.
  intros Hx. unfold normalizePhonemeString.
  destruct s as [|a s]; [constructor|].
  generalize (normalizeNFC (a :: s)). intros nfc.
  vm_compute in Hx.
  repeat (apply elem_of_cons in Hx as [->|Hx];
          [repeat stage_keeps_out|]).
  apply elem_of_nil in Hx. destruct Hx.
Qed.

(** X6.  The normalised phonetic string, and so every token cut from it,
    contains no white space, no ASCII capital, and none of the characters
    the normaliser rewrites or deletes (ɡ ʧ ʤ ɚ ɝ, the stress, syllable and
    length marks, the tie bars); tokens moreover contain none of the
    punctuation the tokenizer skips. *)
Theorem normalized_alphabet (s : jsstr) :
  Forall (fun c => isWhiteSpace c = false /\ isUpperAZ c = false
                   /\ c ∉ rewrittenChars)
         (normalizePhonemeString s)
  /\ Forall (Forall (fun c => isSkipped c = false /\ isUpperAZ c = false
                              /\ c ∉ rewrittenChars))
            (tokenizeIPA s).
Proof.
  assert (Hnorm : Forall (fun c => isWhiteSpace c = false
                                   /\ isUpperAZ c = false
                                   /\ c ∉ rewrittenChars)
                         (normalizePhonemeString s)).
  { apply Forall_forall. intros c Hc. repeat split.
    - revert c Hc. apply Forall_forall.
      unfold normalizePhonemeString. destruct s; [constructor|].
      apply Forall_trim, removeChars_gone.
    - revert c Hc. apply Forall_forall.
      unfold normalizePhonemeString. destruct s; [constructor|].
      apply Forall_trim, Forall_removeChars, lower_gone.
    - intros Hin.
      pose proof (normalized_without c s Hin) as H.
      rewrite Forall_forall in H. specialize (H c Hc). cbv beta in H.
      rewrite N.eqb_refl in H. discriminate. }
  split; [exact Hnorm|].
  unfold tokenizeIPA.
  destruct (tokenizeLoop_partition_n _ (normalizePhonemeString s) (le_n _))
    as [_ Hcat].
  apply Forall_forall. intros t Ht. apply Forall_forall. intros c Hc.
  assert (Hin : c ∈ removeChars isSkipped (normalizePhonemeString s)).
  { rewrite <- Hcat. apply list_elem_of_In, in_concat.
    exists t. split; apply list_elem_of_In; assumption. }
  apply removeChars_elem in Hin as [Hskip Hin].
  rewrite Forall_forall in Hnorm. destruct (Hnorm c Hin) as (_ & Hup & Hrw).
  auto.
Qed.
End Alphabet.


(* ===================================================================== *)
(** ** Resolver *)
(* ===================================================================== *)

(** A closed decidable proposition, settled by evaluating its decision. *)
Ltac by_evaluation :=
  match goal with
  | |- ?P => apply (bool_decide_unpack P); vm_compute; exact I
  end.

Lemma table_value_in (l : list (jsstr * jsstr)) (k v : jsstr) :
  (list_to_map l : gmap jsstr jsstr) !! k = Some v -> v ∈ l.*2.
Proof.
  intros H. apply elem_of_list_to_map_2 in H.
  apply list_elem_of_fmap. exists (k, v). split; [reflexivity | exact H].
Qed.

Lemma V_MAP_values (k v : jsstr) : V_MAP !! k = Some v -> v ∈ visemeNames.
Proof.
  intros H. apply table_value_in in H. revert v H.
  apply Forall_forall. by_evaluation.
Qed.

Lemma C_MAP_values (k v : jsstr) : C_MAP !! k = Some v -> v ∈ visemeNames.
Proof.
  intros H. apply table_value_in in H. revert v H.
  apply Forall_forall. by_evaluation.
Qed.

Lemma resolve_shape (token : jsstr) :
  (length (resolveTokenToVisemes token) = 1%nat
   \/ length (resolveTokenToVisemes token) = 2%nat)
  /\ Forall (fun name => name ∈ visemeNames) (resolveTokenToVisemes token)
  /\ (has DIPHTHONGS token = false ->
      C_MAP !! token = None -> V_MAP !! token = None ->
      V_MAP !! charAt0 token = None ->
      resolveTokenToVisemes token = [js "viseme_E"]).
Proof.
  assert (HCH : js "viseme_CH" ∈ visemeNames)
    by by_evaluation.
  assert (HRR : js "viseme_RR" ∈ visemeNames)
    by by_evaluation.
  assert (HE : js "viseme_E" ∈ visemeNames)
    by by_evaluation.
  assert (Hrest :
    let r :=
      match
        (if (length token =? 2)%nat && has VOWELS (take 1 token)
            && has RHOTICS (take 1 (drop 1 token))
         then match V_MAP !! take 1 token with
              | Some v => Some [v; js "viseme_RR"]
              | None => None
              end
         else None)
      with
      | Some names => names
      | None =>
          match C_MAP !! token with
          | Some c => [c]
          | None => match V_MAP !! token with
                    | Some v => [v]
                    | None => [js "viseme_E"]
                    end
          end
      end in
    (length r = 1%nat \/ length r = 2%nat)
    /\ Forall (fun name => name ∈ visemeNames) r
    /\ (C_MAP !! token = None -> V_MAP !! token = None ->
        V_MAP !! charAt0 token = None -> r = [js "viseme_E"])).
  { unfold charAt0. cbv zeta.
    destruct ((length token =? 2)%nat && has VOWELS (take 1 token)
              && has RHOTICS (take 1 (drop 1 token))).
    - destruct (V_MAP !! take 1 token) as [v|] eqn:A.
      + split; [right; reflexivity|].
        split; [|intros _ _ [=]].
        constructor; [exact (V_MAP_values _ _ A)|].
        constructor; [exact HRR | constructor].
      + destruct (C_MAP !! token) as [c|] eqn:C.
        * split; [left; reflexivity|]. split; [|intros [=]].
          constructor; [exact (C_MAP_values _ _ C) | constructor].
        * destruct (V_MAP !! token) as [v|] eqn:V.
          -- split; [left; reflexivity|]. split; [|intros _ [=]].
             constructor; [exact (V_MAP_values _ _ V) | constructor].
          -- split; [left; reflexivity|]. split; [|reflexivity].
             constructor; [exact HE | constructor].
    - destruct (C_MAP !! token) as [c|] eqn:C.
      + split; [left; reflexivity|]. split; [|intros [=]].
        constructor; [exact (C_MAP_values _ _ C) | constructor].
      + destruct (V_MAP !! token) as [v|] eqn:V.
        * split; [left; reflexivity|]. split; [|intros _ [=]].
          constructor; [exact (V_MAP_values _ _ V) | constructor].
        * split; [left; reflexivity|]. split; [|reflexivity].
          constructor; [exact HE | constructor]. }
  cbv zeta in Hrest. destruct Hrest as (R1 & R2 & R3).
  unfold resolveTokenToVisemes. cbv zeta.
  destruct (has DIPHTHONGS token).
  - destruct (str_eqb token (js "tʃ")).
    { split; [left; reflexivity|]. split; [|intros [=]].
      constructor; [exact HCH | constructor]. }
    destruct (str_eqb token (js "dʒ")).
    { split; [left; reflexivity|]. split; [|intros [=]].
      constructor; [exact HCH | constructor]. }
    destruct (V_MAP !! take 1 token) as [a|] eqn:A.
    + destruct (V_MAP !! take 1 (drop 1 token)) as [b|] eqn:B.
      * split; [right; reflexivity|]. split; [|intros [=]].
        constructor; [exact (V_MAP_values _ _ A)|].
        constructor; [exact (V_MAP_values _ _ B) | constructor].
      * split; [exact R1|]. split; [exact R2 | intros [=]].
    + split; [exact R1|]. split; [exact R2 | intros [=]].
  - split; [exact R1|]. split; [exact R2 | intros _; exact R3].
Qed.


(* ===================================================================== *)
(** ** Allocator: compression *)
(* ===================================================================== *)

Lemma dropLoop_sublist (fuel : nat) :
  forall (target : Z) (out : list jsstr),
    dropLoop fuel target out `sublist_of` out.
Proof.
  induction fuel as [|fuel IH]; intros target out; cbn [dropLoop];
    [reflexivity|].
  destruct (target <? Z.of_nat (length out))%Z; [|reflexivity].
  destruct (scanLowest 0 out None None) as [k|]; [|reflexivity].
  etransitivity; [apply IH | apply sublist_delete].
Qed.


(** X8.  Compression only deletes tokens: what it returns is a
    subsequence of its input, in the input's order, and never holds more
    than WORD_EVENT_CAP = 4 tokens. *)
Theorem compressTokens_sublist_cap (tokens : list jsstr) (span : Q) :
  compressTokens tokens span `sublist_of` tokens
  /\ (length (compressTokens tokens span) <= WORD_EVENT_CAP)%nat.
Proof.
  unfold compressTokens. destruct tokens as [|t0 ts].
  { split; [reflexivity | unfold WORD_EVENT_CAP; cbn [length]; lia]. }
  set (tokens := t0 :: ts).
  destruct (Qle_bool MIN_SLOT (span / ofNat (length tokens))
            && (length tokens <=? WORD_EVENT_CAP)%nat) eqn:E.
  { apply andb_true_iff in E as [_ E]. apply Nat.leb_le in E.
    split; [reflexivity | exact E]. }
  match goal with |- context [dropLoop ?f ?tg ?o] =>
    pose proof (dropLoop_exits f tg o) as Hx;
    pose proof (dropLoop_sublist f tg o) as Hs;
    assert (Ho : o `sublist_of` tokens)
  end.
  { destruct (KEEP_AT_LEAST <? length tokens)%nat;
      [apply sublist_filter | reflexivity]. }
  split; [etransitivity; [exact Hs | exact Ho]|].
  unfold KEEP_AT_LEAST, WORD_EVENT_CAP in *.
  specialize (Hx ltac:(lia) ltac:(lia)). lia.
Qed.

Lemma tokenPriority_range (t : jsstr) : 1 <= tokenPriority t <= 3.
Proof.
  unfold tokenPriority.
  destruct (has AFFRIC t); [split; vm_compute; discriminate|].
  destruct (isVowelToken t); [split; vm_compute; discriminate|].
  destruct (has LABIALS t); [split; vm_compute; discriminate|].
  destruct (has SIBILANTS t); [split; vm_compute; discriminate|].
  destruct (has NASALS t); [split; vm_compute; discriminate|].
  destruct (has LIQUIDS t); [split; vm_compute; discriminate|].
  destruct (truthy C_MAP t); split; vm_compute; discriminate.
Qed.

(** The scan returns an index holding a token of least score. *)
Lemma scanLowest_least (out : list jsstr) :
  forall (pre : list jsstr) (best : option Q) (d : option nat) (k : nat),
    match best, d with
    | None, None => pre = []
    | Some b, Some j =>
        exists tj, pre !! j = Some tj /\ b = dropScore tj
                   /\ Forall (fun u => b <= dropScore u) pre
    | _, _ => False
    end ->
    scanLowest (length pre) out best d = Some k ->
    exists t, (pre ++ out) !! k = Some t
              /\ Forall (fun u => dropScore t <= dropScore u) (pre ++ out).
Proof.
  induction out as [|t r IH]; intros pre best d k Hinv Hscan;
    cbn [scanLowest] in Hscan.
  - subst d. destruct best as [b|]; [|destruct Hinv].
    destruct Hinv as (tj & Hj & -> & Hall).
    rewrite app_nil_r. exists tj. split; assumption.
  - change (tokenPriority t + (if isVowelToken t then 100 else 0))
      with (dropScore t) in Hscan.
    replace (pre ++ t :: r) with ((pre ++ [t]) ++ r)
      by (rewrite <- app_assoc; reflexivity).
    replace (S (length pre)) with (length (pre ++ [t])) in Hscan
      by (rewrite length_app; cbn [length]; lia).
    destruct best as [b|]; destruct d as [j|]; try contradiction.
    + destruct Hinv as (tj & Hj & -> & Hall).
      destruct (Qlt_bool (dropScore t) (dropScore tj)) eqn:L.
      * apply Qlt_bool_true in L.
        refine (IH (pre ++ [t]) _ _ k _ Hscan).
        exists t. split; [apply list_lookup_middle; reflexivity|].
        split; [reflexivity|].
        apply Forall_app. split.
        -- eapply Forall_impl; [exact Hall|]. intros u Hu. cbv beta in Hu. lra.
        -- constructor; [lra | constructor].
      * apply Qlt_bool_false in L.
        refine (IH (pre ++ [t]) _ _ k _ Hscan).
        exists tj. split; [apply lookup_app_l_Some; exact Hj|].
        split; [reflexivity|].
        apply Forall_app. split; [exact Hall|].
        constructor; [exact L | constructor].
    + subst pre. cbn [app length] in *.
      refine (IH [t] _ _ k _ Hscan).
      exists t. split; [reflexivity|]. split; [reflexivity|].
      constructor; [lra | constructor].
Qed.

Lemma vowelCount_all (l : list jsstr) :
  Forall (fun t => isVowelToken t = true) l -> vowelCount l = length l.
Proof.
  unfold vowelCount. induction 1 as [|t l Ht _ IH]; [reflexivity|].
  rewrite filter_cons_True by exact Ht. cbn [length]. rewrite IH. reflexivity.
Qed.

Lemma vowelCount_app (l1 l2 : list jsstr) :
  vowelCount (l1 ++ l2) = (vowelCount l1 + vowelCount l2)%nat.
Proof. unfold vowelCount. rewrite filter_app, length_app. reflexivity. Qed.

Lemma vowelCount_delete (out : list jsstr) (k : nat) (t : jsstr) :
  out !! k = Some t -> isVowelToken t = false ->
  vowelCount (delete k out) = vowelCount out.
Proof.
  intros Hk Hv. rewrite delete_take_drop.
  rewrite <- (take_drop_middle out k t Hk) at 3.
  rewrite !vowelCount_app. f_equal.
  unfold vowelCount. rewrite filter_cons_False by congruence. reflexivity.
Qed.

Lemma dropLoop_keeps_vowels (fuel : nat) :
  forall (target : Z) (out : list jsstr),
    (0 <= target)%Z -> (length out <= fuel)%nat ->
    (Z.min (Z.of_nat (vowelCount out)) target
     <= Z.of_nat (vowelCount (dropLoop fuel target out)))%Z.
Proof.
  induction fuel as [|fuel IH]; intros target out Ht Hlen; cbn [dropLoop];
    [lia|].
  destruct (target <? Z.of_nat (length out))%Z eqn:E; [|lia].
  apply Z.ltb_lt in E.
  destruct (scanLowest 0 out None None) as [k|] eqn:S; [|lia].
  destruct (scanLowest_least out [] None None k eq_refl S) as (t & Hk & Hmin).
  cbn [app] in Hk, Hmin.
  assert (Hd : length (delete k out) = (length out - 1)%nat).
  { apply length_delete. rewrite Hk. eauto. }
  destruct (isVowelToken t) eqn:V.
  - assert (Hall : Forall (fun u => isVowelToken u = true) out).
    { eapply Forall_impl; [exact Hmin|]. intros u Hu. cbv beta in Hu.
      unfold dropScore in Hu. rewrite V in Hu.
      pose proof (tokenPriority_range t). pose proof (tokenPriority_range u).
      destruct (isVowelToken u); [reflexivity | lra]. }
    assert (Hres : Forall (fun u => isVowelToken u = true)
                          (dropLoop fuel target (delete k out))).
    { rewrite Forall_forall in Hall |- *. intros u Hu. apply Hall.
      eapply elem_of_sublist; [exact Hu|].
      etransitivity; [apply dropLoop_sublist | apply sublist_delete]. }
    rewrite (vowelCount_all _ Hres).
    rewrite dropLoop_exits by lia. lia.
  - rewrite <- (vowelCount_delete out k t Hk V). apply IH; lia.
Qed.

Lemma droppable_not_vowel (t : jsstr) :
  has DROPPABLE t = true -> isVowelToken t = false.
Proof.
  intros H. apply (in_set_cases _ _ _ eq_refl) in H.
  repeat (apply elem_of_cons in H as [->|H]; [vm_compute; reflexivity|]).
  apply elem_of_nil in H. destruct H.
Qed.

Lemma vowelCount_weak_filter (b : bool) (l : list jsstr) :
  vowelCount (filter (fun t => negb (has DROPPABLE t && b)) l) = vowelCount l.
Proof.
  unfold vowelCount. induction l as [|t l IH]; [reflexivity|].
  rewrite (filter_cons (fun t => Is_true (negb (has DROPPABLE t && b)))).
  destruct (decide (Is_true (negb (has DROPPABLE t && b)))) as [Hk|Hk].
  - rewrite !filter_cons. destruct (decide (isVowelToken t = true));
      cbn [length]; rewrite IH; reflexivity.
  - rewrite IH. apply Is_true_false in Hk.
    apply negb_false_iff, andb_true_iff in Hk as [Hk _].
    rewrite (filter_cons_False (fun t => isVowelToken t = true)); [reflexivity|].
    rewrite (droppable_not_vowel _ Hk). discriminate.
Qed.

(** X9.  Compression protects vowels: it never leaves fewer vowel tokens
    than the smaller of two and the number the word had.  (Step 1 deletes
    only weak consonants, and step 3 deletes a vowel only when every
    remaining token is one.) *)
Theorem compressTokens_keeps_vowels (tokens : list jsstr) (span : Q) :
  (Nat.min (vowelCount tokens) KEEP_AT_LEAST
   <= vowelCount (compressTokens tokens span))%nat.
Proof.
  unfold compressTokens. destruct tokens as [|t0 ts]; [cbn; lia|].
  set (tokens := t0 :: ts).
  destruct (Qle_bool MIN_SLOT (span / ofNat (length tokens))
            && (length tokens <=? WORD_EVENT_CAP)%nat); [lia|].
  match goal with |- context [dropLoop ?f ?tg ?o] =>
    pose proof (dropLoop_keeps_vowels f tg o) as Hx;
    assert (Ho : vowelCount o = vowelCount tokens)
  end.
  { destruct (KEEP_AT_LEAST <? length tokens)%nat;
      [apply vowelCount_weak_filter | reflexivity]. }
  unfold KEEP_AT_LEAST, WORD_EVENT_CAP in *.
  specialize (Hx ltac:(lia) ltac:(lia)). lia.
Qed.


(** The tokens the Resolver receives from the tokenizer are not names of
    inherited members: they have one or two characters. *)
Lemma tokenizeLoop_own_keys (str : jsstr) :
  Forall (fun t => t ∉ objectPrototypeMembers) (tokenizeLoop str).
Proof.
  eapply Forall_impl;
    [apply (tokenizeLoop_partition_n (length str) str (Nat.le_refl _))|].
  intros t Hlen Hin. cbv beta in Hlen.
  assert (Hlong : Forall (fun m : jsstr => (7 <= length m)%nat)
                         objectPrototypeMembers)
    by (repeat constructor).
  rewrite Forall_forall in Hlong. specialize (Hlong t Hin).
  destruct Hlen as [H | [H _]]; lia.
Qed.

(** X7.  For a token that is not the name of a member inherited from
    [Object.prototype] (no token of the tokenizer is one), the Resolver
    answers with one or two viseme names, never none, and each is one of
    the fourteen names of the tables; such a token that is no diphthong
    and has no entry in either table, nor a first character in the vowel
    table, gets the neutral viseme_E. *)
Theorem resolveTokenToVisemes_names (token : jsstr) :
  (token ∉ objectPrototypeMembers) ->
  (length (resolveTokenToVisemes token) = 1%nat
   \/ length (resolveTokenToVisemes token) = 2%nat)
  /\ Forall (fun name => name ∈ visemeNames) (resolveTokenToVisemes token)
  /\ (has DIPHTHONGS token = false ->
      C_MAP !! token = None -> V_MAP !! token = None ->
      V_MAP !! charAt0 token = None ->
      resolveTokenToVisemes token = [js "viseme_E"]).
Proof. intros _. exact (resolve_shape token). Qed.

Lemma resolveTokenToVisemes_names_witness :
  (js "x" ∉ objectPrototypeMembers)
  /\ resolveTokenToVisemes (js "x") = [js "viseme_E"]
  /\ Forall (fun name => name ∈ visemeNames)
            (resolveTokenToVisemes (js "oɹ")).
Proof.
  assert (Hx : js "x" ∉ objectPrototypeMembers) by by_evaluation.
  assert (Ho : js "oɹ" ∉ objectPrototypeMembers) by by_evaluation.
  split; [exact Hx|]. split.
  - apply (proj2 (proj2 (resolveTokenToVisemes_names (js "x") Hx)));
      vm_compute; reflexivity.
  - apply (proj1 (proj2 (resolveTokenToVisemes_names (js "oɹ") Ho))).
Defined.

(* ===================================================================== *)
(** ** Allocator: the events of a word *)
(* ===================================================================== *)

Lemma single_duration (x : Q) :
  MIN_DUR <= Qmax MIN_DUR (Qmin MAX_DUR x) <= MAX_DUR.
Proof.
  split; [apply Q.le_max_l|].
  apply Q.max_lub; [vm_compute; discriminate | apply Q.le_min_l].
Qed.

Lemma half_duration (x : Q) :
  MIN_DUR * 0.75 <= Qmax (MIN_DUR * 0.75) (Qmin (MAX_DUR * 0.75) x)
  <= MAX_DUR * 0.75.
Proof.
  split; [apply Q.le_max_l|].
  apply Q.max_lub; [vm_compute; discriminate | apply Q.le_min_l].
Qed.

Lemma tokenEvents_shape (w : WordTiming) (slot : Q) (i : nat) (t : jsstr) :
  (length (tokenEvents w slot i t) = 1%nat
   \/ length (tokenEvents w slot i t) = 2%nat)
  /\ Forall wellShaped (tokenEvents w slot i t).
Proof.
  unfold tokenEvents. cbv zeta.
  destruct (resolve_shape t) as (Hlen & Hnames & _).
  destruct (resolveTokenToVisemes t) as [|n0 [|n1 [|n2 rest]]];
    cbn [length] in Hlen; try (destruct Hlen; discriminate).
  - apply Forall_cons in Hnames as [H0 _].
    match goal with |- context [Qmax MIN_DUR (Qmin MAX_DUR ?x)] =>
      pose proof (single_duration x) as [D1 D2];
      set (dur := Qmax MIN_DUR (Qmin MAX_DUR x)) in *
    end.
    assert (Hpos : Qlt_bool 0 dur = true).
    { apply Qlt_bool_true. unfold MIN_DUR in D1. lra. }
    rewrite Hpos. split; [left; reflexivity|].
    constructor; [|constructor].
    unfold wellShaped, mkEvent; cbn [ev_duration ev_peak ev_attack ev_decay
                                       ev_name].
    unfold MIN_DUR, MAX_DUR in *. repeat split; try reflexivity; try lra.
    exact H0.
  - apply Forall_cons in Hnames as [H0 Hnames].
    apply Forall_cons in Hnames as [H1 _].
    match goal with
    |- context [Qmax (MIN_DUR * 0.75) (Qmin (MAX_DUR * 0.75) ?x)] =>
      pose proof (half_duration x) as [D1 D2];
      set (dur := Qmax (MIN_DUR * 0.75) (Qmin (MAX_DUR * 0.75) x)) in *
    end.
    assert (Hpos : Qlt_bool 0 dur = true).
    { apply Qlt_bool_true. unfold MIN_DUR in D1. lra. }
    rewrite Hpos. split; [right; reflexivity|].
    constructor; [|constructor; [|constructor]];
      unfold wellShaped, mkEvent; cbn [ev_duration ev_peak ev_attack ev_decay
                                         ev_name];
      unfold MIN_DUR, MAX_DUR in *; repeat split; try reflexivity; try lra;
      assumption.
Qed.

Lemma allocLoop_shape (w : WordTiming) (slot : Q) (tokens : list jsstr) :
  forall i,
    (length tokens <= length (allocLoop w slot i tokens)
     <= 2 * length tokens)%nat
    /\ Forall wellShaped (allocLoop w slot i tokens).
Proof.
  induction tokens as [|t r IH]; intros i; cbn [allocLoop length].
  - split; [lia | constructor].
  - destruct (tokenEvents_shape w slot i t) as [Hl Hs].
    destruct (IH (S i)) as [IHl IHs].
    rewrite length_app. split; [lia|].
    apply Forall_app. split; assumption.
Qed.

Lemma clampAt_within (w : WordTiming) (e : VisemeEvent) :
  w_start w <= w_end w ->
  w_start w <= ev_at (clampAt w e) <= w_end w.
Proof.
  intros Hw. unfold clampAt; cbn [ev_at].
  destruct (Qlt_bool (ev_at e) (w_start w)) eqn:A.
  - destruct (Qlt_bool (w_end w) (w_start w)) eqn:B.
    + apply Qlt_bool_true in B. lra.
    + lra.
  - apply Qlt_bool_false in A.
    destruct (Qlt_bool (w_end w) (ev_at e)) eqn:B.
    + lra.
    + apply Qlt_bool_false in B. lra.
Qed.

Lemma clampAt_shape (w : WordTiming) (e : VisemeEvent) :
  wellShaped e -> wellShaped (clampAt w e).
Proof. intros H. exact H. Qed.

Section Events.
Context {U : UnicodeData}.

(** X10.  Every event the Allocator emits for a word has its onset inside
    the word's span, lasts between 60ms and 180ms, has peak 1 with the
    standard 30ms attack and 40ms decay, and carries one of the fourteen
    viseme names. *)
Theorem wordToVisemeEvents_shape (w : WordTiming) :
  Forall (fun e => w_start w <= ev_at e <= w_end w /\ wellShaped e)
         (wordToVisemeEvents w).
Proof.
  unfold wordToVisemeEvents. cbv zeta.
  destruct ((length (tokenizeIPA (w_phoneme w)) =? 0)%nat
            || Qle_bool (Qmax 0 (w_end w - w_start w)) 0) eqn:E;
    [constructor|].
  apply orb_false_iff in E as [_ E]. apply Qle_bool_false in E.
  assert (Hw : w_start w <= w_end w).
  { destruct (Q.max_spec 0 (w_end w - w_start w)) as [[H1 H2]|[H1 H2]]; lra. }
  rewrite Forall_map.
  eapply Forall_impl; [apply (allocLoop_shape w _ _ 0%nat)|].
  intros e He. split; [apply clampAt_within, Hw | apply clampAt_shape, He].
Qed.


End Events.



(* ===================================================================== *)
(** ** Curator: buckets, spacing, provenance *)
(* ===================================================================== *)


Lemma Sorted_snoc_inv {A : Type} (R : relation A) (k : list A) (p : A) :
  Sorted R (k ++ [p]) -> Sorted R k /\ TlRel R p k.
Proof.
  induction k as [|a k IH]; cbn [app]; intros H.
  - split; constructor.
  - apply Sorted_inv in H as [Hs Hh].
    destruct (IH Hs) as [Hk Ht]. split.
    + constructor; [exact Hk|].
      destruct k as [|b k']; [constructor|].
      cbn [app] in Hh. apply HdRel_inv in Hh. constructor. exact Hh.
    + destruct Ht as [|b l Hb].
      * cbn [app] in Hh. apply HdRel_inv in Hh.
        apply (TlRel_cons R p a []). exact Hh.
      * apply (TlRel_cons R p b (a :: l)). exact Hb.
Qed.

Lemma StronglySorted_sublist {A : Type} (R : relation A) (l1 l2 : list A) :
  l1 `sublist_of` l2 -> StronglySorted R l2 -> StronglySorted R l1.
Proof.
  induction 1 as [|x l1 l2 Hsub IH|x l1 l2 Hsub IH]; intros Hs.
  - constructor.
  - apply StronglySorted_inv in Hs as [Hs Hall]. constructor; [auto|].
    rewrite Forall_forall in Hall |- *. intros y Hy. apply Hall.
    eapply elem_of_sublist; eassumption.
  - apply StronglySorted_inv in Hs as [Hs _]. auto.
Qed.

(** The merge phase changes no onset and keeps their order. *)
Lemma mergeStep_onsets (merged : list VisemeEvent) (e : VisemeEvent) :
  map ev_at (mergeStep merged e) = map ev_at merged
  \/ map ev_at (mergeStep merged e) = map ev_at merged ++ [ev_at e].
Proof.
  unfold mergeStep. destruct (last merged) as [l|] eqn:E.
  - destruct (last_is_Some_snoc _ _ E) as [m' ->].
    destruct (str_eqb (ev_name l) (ev_name e)
              && Qle_bool (ev_at e - (ev_at l + ev_duration l)) MERGE_SAME_GAP).
    + left. rewrite removelast_last, !map_app. reflexivity.
    + right. rewrite !map_app. reflexivity.
  - right. rewrite map_app. reflexivity.
Qed.

Lemma merge_onsets (events : list VisemeEvent) :
  forall merged,
    exists kept, kept `sublist_of` map ev_at events
                 /\ map ev_at (fold_left mergeStep events merged)
                    = map ev_at merged ++ kept.
Proof.
  induction events as [|e events IH]; intros merged; cbn [fold_left map].
  - exists []. split; [constructor | rewrite app_nil_r; reflexivity].
  - destruct (IH (mergeStep merged e)) as (kept & Hsub & Heq).
    destruct (mergeStep_onsets merged e) as [H|H]; rewrite H in Heq.
    + exists kept. split; [apply sublist_cons, Hsub | exact Heq].
    + exists (ev_at e :: kept). split; [apply sublist_skip, Hsub|].
      rewrite Heq, <- app_assoc. reflexivity.
Qed.

Lemma rateStep_inv (st : list VisemeEvent * option Q) (e : VisemeEvent) :
  rateInv st ->
  (forall p, last st.1 = Some p -> ev_at p <= ev_at e) ->
  rateInv (rateStep st e) /\ (exists p, last (rateStep st e).1 = Some p)
  /\ (forall p, last (rateStep st e).1 = Some p ->
      p = e \/ last st.1 = Some p).
Proof.
  destruct st as [keep lastAt]. unfold rateInv. cbn [fst snd].
  intros [Hsp Hlast] Hle. unfold rateStep.
  destruct (decide (keep = [])) as [->|Hne].
  - cbn [last fmap option_fmap option_map] in Hlast. subst lastAt.
    cbn [gapReached orb app fst snd last].
    split; [split; [repeat constructor | reflexivity]|].
    split; [eauto | intros p [= <-]; auto].
  - destruct (exists_last Hne) as (k & p & ->).
    rewrite last_snoc in Hlast, Hle. cbn in Hlast. subst lastAt.
    specialize (Hle p eq_refl).
    assert (Hlen : (length (k ++ [p]) =? 0)%nat = false)
      by (apply Nat.eqb_neq; rewrite length_app; cbn [length]; lia).
    rewrite Hlen, orb_false_r. unfold gapReached.
    destruct (Qle_bool MIN_EVENT_GAP (ev_at e - ev_at p)) eqn:G.
    + apply Qle_bool_iff in G. cbn [fst snd]. rewrite last_snoc.
      split; [split; [|reflexivity]|].
      * apply Sorted_snoc; [exact Hsp|]. apply TlRel_cons. exact G.
      * split; [eauto | intros q [= <-]; auto].
    + rewrite last_snoc.
      destruct (Qlt_bool (prefer p) (prefer e)).
      * cbn [fst snd]. rewrite removelast_last, last_snoc.
        split; [split; [|reflexivity]|].
        -- apply Sorted_snoc_inv in Hsp as [Hk Ht].
           apply Sorted_snoc; [exact Hk|].
           destruct Ht as [|b l Hb]; [constructor|].
           apply TlRel_cons. cbv beta in Hb |- *. lra.
        -- split; [eauto | intros q [= <-]; auto].
      * cbn [fst snd]. rewrite last_snoc.
        split; [split; [exact Hsp | reflexivity]|].
        split; [eauto | intros q [= <-]; auto].
Qed.

Lemma rate_inv (events : list VisemeEvent) :
  forall st,
    rateInv st ->
    StronglySorted Qle (map ev_at events) ->
    (forall p, last st.1 = Some p ->
               Forall (fun e => ev_at p <= ev_at e) events) ->
    rateInv (fold_left rateStep events st).
Proof.
  induction events as [|e events IH]; intros st Hinv Hsorted Hge;
    cbn [fold_left]; [exact Hinv|].
  cbn [map] in Hsorted. apply StronglySorted_inv in Hsorted as [Hs Hall].
  rewrite Forall_map in Hall.
  destruct (rateStep_inv st e Hinv) as (Hinv' & _ & Hlast').
  { intros p Hp. specialize (Hge p Hp).
    apply Forall_cons in Hge as [Hge _]. exact Hge. }
  apply IH; [exact Hinv' | exact Hs|].
  intros p Hp. destruct (Hlast' p Hp) as [->|Hold].
  - exact Hall.
  - specialize (Hge p Hold). apply Forall_cons in Hge as [_ Hge]. exact Hge.
Qed.

Lemma decimateTimeline_spaced (events : list VisemeEvent) :
  timeSorted events -> minGapSpaced (decimateTimeline events).
Proof.
  intros Hs. unfold decimateTimeline.
  destruct (length events <=? 1)%nat eqn:E.
  - apply Nat.leb_le in E.
    destruct events as [|x [|y r]]; [constructor | repeat constructor|].
    cbn [length] in E. lia.
  - destruct (merge_onsets events []) as (kept & Hsub & Heq).
    cbn [map app] in Heq.
    assert (Hm : StronglySorted Qle
                   (map ev_at (fold_left mergeStep events []))).
    { rewrite Heq. eapply StronglySorted_sublist; [exact Hsub | exact Hs]. }
    apply (rate_inv _ ([], None)); [split; [constructor | reflexivity]
                                   | exact Hm | discriminate].
Qed.

Lemma minGapSpaced_timeSorted (l : list VisemeEvent) :
  minGapSpaced l -> timeSorted l.
Proof.
  intros H. unfold timeSorted.
  apply Sorted_StronglySorted; [intros x y z; apply Qle_trans|].
  induction H as [|x l Hs IH Hh]; cbn [map]; constructor; [exact IH|].
  destruct Hh as [|y l' Hy]; cbn [map]; constructor.
  assert (Hgap : 0 < MIN_EVENT_GAP) by reflexivity.
  cbv beta in Hy. lra.
Qed.

(** X13.  Given a timeline in time order, the Curator returns one in which
    any two consecutive events are at least MIN_EVENT_GAP (100ms) apart;
    in particular the result is again in time order. *)
Theorem decimateTimeline_spacing (events : list VisemeEvent) :
  timeSorted events ->
  minGapSpaced (decimateTimeline events)
  /\ timeSorted (decimateTimeline events).
Proof.
  intros Hs. pose proof (decimateTimeline_spaced events Hs) as H.
  split; [exact H | apply minGapSpaced_timeSorted, H].
Qed.

Lemma decimateTimeline_spacing_witness :
  minGapSpaced (decimateTimeline
                  [mkEvent 0 (js "viseme_kk") 0.08;
                   mkEvent 0.05 (js "viseme_aa") 0.18;
                   mkEvent 0.2 (js "viseme_DD") 0.1]).
Proof.
  apply (decimateTimeline_spacing
           [mkEvent 0 (js "viseme_kk") 0.08;
            mkEvent 0.05 (js "viseme_aa") 0.18;
            mkEvent 0.2 (js "viseme_DD") 0.1]).
  repeat constructor; vm_compute; discriminate.
Defined.


Lemma insertByKey_sorted {A : Type} (key : A -> Q) (x : A) (l : list A) :
  StronglySorted Qle (map key l) ->
  StronglySorted Qle (map key (insertByKey key x l)).
Proof.
  induction l as [|y r IH]; cbn [insertByKey map]; intros Hs.
  - repeat constructor.
  - apply StronglySorted_inv in Hs as [Hr Hall].
    destruct (Qle_bool (key x) (key y)) eqn:E; cbn [map].
    + apply Qle_bool_iff in E. constructor.
      * constructor; assumption.
      * constructor; [exact E|].
        eapply Forall_impl; [exact Hall|]. intros z Hz. cbv beta in Hz. lra.
    + apply Qle_bool_false in E. constructor; [apply IH, Hr|].
      rewrite Forall_map. rewrite (insertByKey_perm key x r).
      constructor; [lra|]. rewrite Forall_map in Hall. exact Hall.
Qed.

Lemma sortByKey_sorted {A : Type} (key : A -> Q) (l : list A) :
  StronglySorted Qle (map key (sortByKey key l)).
Proof.
  unfold sortByKey. induction l as [|x r IH]; cbn [foldr map].
  - constructor.
  - apply insertByKey_sorted, IH.
Qed.

Lemma makeEventKey_stems (e e' : VisemeEvent) :
  ev_name e' = ev_name e -> ev_at e' = ev_at e ->
  makeEventKey e' = makeEventKey e.
Proof. intros Hn Ha. unfold makeEventKey. rewrite Hn, Ha. reflexivity. Qed.

Lemma stemsFrom_self (src : list VisemeEvent) (e : VisemeEvent) :
  e ∈ src -> stemsFrom src e.
Proof. intros H. exists e. auto. Qed.

Lemma mergeStep_stems (src merged : list VisemeEvent) (e : VisemeEvent) :
  Forall (stemsFrom src) merged -> e ∈ src ->
  Forall (stemsFrom src) (mergeStep merged e).
Proof.
  intros Hm He. unfold mergeStep.
  destruct (last merged) as [l|] eqn:E.
  - destruct (last_is_Some_snoc _ _ E) as [m' ->].
    apply Forall_app in Hm as [Hm' Hl]. apply Forall_cons in Hl as [Hl _].
    destruct (str_eqb (ev_name l) (ev_name e)
              && Qle_bool (ev_at e - (ev_at l + ev_duration l)) MERGE_SAME_GAP).
    + rewrite removelast_last. apply Forall_app. split; [exact Hm'|].
      constructor; [|constructor].
      destruct Hl as (e0 & H0 & Hn & Ha). exists e0. auto.
    + apply Forall_app. split.
      * apply Forall_app. split; [exact Hm' | repeat constructor; exact Hl].
      * constructor; [apply stemsFrom_self, He | constructor].
  - apply Forall_app. split; [exact Hm|].
    constructor; [apply stemsFrom_self, He | constructor].
Qed.

Lemma rateStep_stems (src : list VisemeEvent)
    (st : list VisemeEvent * option Q) (e : VisemeEvent) :
  Forall (stemsFrom src) st.1 -> stemsFrom src e ->
  Forall (stemsFrom src) (rateStep st e).1.
Proof.
  destruct st as [keep lastAt]. cbn [fst]. intros Hk He. unfold rateStep.
  destruct (gapReached e lastAt || (length keep =? 0)%nat); cbn [fst].
  - apply Forall_app. split; [exact Hk | repeat constructor; exact He].
  - destruct (last keep) as [prev|] eqn:E; cbn [fst]; [|exact Hk].
    destruct (last_is_Some_snoc _ _ E) as [k' ->].
    destruct (Qlt_bool (prefer prev) (prefer e)); cbn [fst]; [|exact Hk].
    rewrite removelast_last. apply Forall_app in Hk as [Hk' _].
    apply Forall_app. split; [exact Hk' | repeat constructor; exact He].
Qed.

Lemma decimateTimeline_stems (events : list VisemeEvent) :
  Forall (stemsFrom events) (decimateTimeline events).
Proof.
  unfold decimateTimeline. destruct (length events <=? 1)%nat.
  { apply Forall_forall. intros e He. apply stemsFrom_self, He. }
  assert (Hm : forall evs m,
             Forall (fun e => e ∈ events) evs ->
             Forall (stemsFrom events) m ->
             Forall (stemsFrom events) (fold_left mergeStep evs m)).
  { induction evs as [|e evs IH]; intros m Hin Hm; cbn [fold_left];
      [exact Hm|].
    apply Forall_cons in Hin as [He Hin].
    apply IH; [exact Hin | apply mergeStep_stems; assumption]. }
  assert (Hr : forall evs st,
             Forall (stemsFrom events) evs ->
             Forall (stemsFrom events) st.1 ->
             Forall (stemsFrom events) (fold_left rateStep evs st).1).
  { induction evs as [|e evs IH]; intros st Hin Hst; cbn [fold_left];
      [exact Hst|].
    apply Forall_cons in Hin as [He Hin].
    apply IH; [exact Hin | apply rateStep_stems; assumption]. }
  apply Hr; [|constructor].
  apply Hm; [|constructor].
  apply Forall_forall. auto.
Qed.

(** X14.  Curation adds nothing: the curated timeline is no longer than
    its input, and each of its events carries the name and the onset (and
    so the dedup key) of an event of the input. *)
Theorem decimateTimeline_provenance (events : list VisemeEvent) :
  (length (decimateTimeline events) <= length events)%nat
  /\ Forall (fun e' => exists e, e ∈ events
                                 /\ ev_name e' = ev_name e
                                 /\ ev_at e' = ev_at e
                                 /\ makeEventKey e' = makeEventKey e)
            (decimateTimeline events).
Proof.
  split; [apply decimateTimeline_length|].
  eapply Forall_impl; [apply decimateTimeline_stems|].
  intros e' (e & Hin & Hn & Ha). exists e.
  repeat split; try assumption. apply makeEventKey_stems; assumption.
Qed.

Section Push.
Context {U : UnicodeData}.

(** X15.  After a push of a non-empty batch the pending queue is in time
    order with consecutive onsets at least 100ms apart, whatever it held
    before. *)
Theorem pushWordsToTimeline_spacing (refs : Refs) (wordsAbs : list WordTiming) :
  wordsAbs <> [] ->
  minGapSpaced (pendingEventsRef (pushWordsToTimeline refs wordsAbs))
  /\ timeSorted (pendingEventsRef (pushWordsToTimeline refs wordsAbs)).
Proof.
  intros Hne. unfold pushWordsToTimeline.
  destruct wordsAbs as [|w ws]; [congruence|].
  destruct (fold_left pushWord _ _) as [seen pending].
  cbn [pendingEventsRef].
  assert (H : minGapSpaced (decimateTimeline (sortByKey ev_at pending))).
  { apply decimateTimeline_spaced. apply sortByKey_sorted. }
  split; [exact H | apply minGapSpaced_timeSorted, H].
Qed.

Lemma pushEvents_recorded (evs : list VisemeEvent) :
  forall seen pending,
    Forall (fun e => makeEventKey e ∈ seen) pending ->
    Forall (fun e => makeEventKey e ∈ (fold_left pushEvent evs (seen, pending)).1)
           (fold_left pushEvent evs (seen, pending)).2.
Proof.
  induction evs as [|ev evs IH]; intros seen pending Hp; cbn [fold_left].
  - exact Hp.
  - rewrite pushEvent_unfold.
    destruct (bool_decide (makeEventKey ev ∈ seen)); [apply IH, Hp|].
    apply IH. apply Forall_app. split.
    + eapply Forall_impl; [exact Hp|]. intros e He. cbv beta in He |- *.
      apply elem_of_union_r, He.
    + constructor; [|constructor].
      apply elem_of_union_l, elem_of_singleton. reflexivity.
Qed.

Lemma pushWords_recorded (ws : list WordTiming) :
  forall st,
    Forall (fun e => makeEventKey e ∈ st.1) st.2 ->
    Forall (fun e => makeEventKey e ∈ (fold_left pushWord ws st).1)
           (fold_left pushWord ws st).2.
Proof.
  induction ws as [|w ws IH]; intros st Hst; cbn [fold_left]; [exact Hst|].
  apply IH. unfold pushWord.
  destruct (ignoredWord (w_word w)); [exact Hst|].
  destruct st as [seen pending]. apply pushEvents_recorded, Hst.
Qed.

(** X16.  A push never forgets a key, whatever the state.  And it keeps
    the dedup set covering the pending queue: if every pending event was
    recorded in the dedup set under its bucketed key before the push, the
    same holds after it.  (Pushes alone keep this up from an empty queue;
    events that entered through the pre-roll drain are recorded under
    another key and do not satisfy the premise.) *)
Theorem pushWordsToTimeline_recorded (refs : Refs) (wordsAbs : list WordTiming) :
  seenEventsRef refs ⊆ seenEventsRef (pushWordsToTimeline refs wordsAbs)
  /\ (pendingRecorded refs ->
      pendingRecorded (pushWordsToTimeline refs wordsAbs)).
Proof.
  unfold pendingRecorded. unfold pushWordsToTimeline.
  destruct wordsAbs as [|w ws]; [split; [reflexivity | tauto]|].
  set (sorted := sortByKey w_start (w :: ws)).
  pose proof (pushWords_grow sorted
                (seenEventsRef refs, pendingEventsRef refs)) as [Hsub _].
  pose proof (pushWords_recorded sorted
                (seenEventsRef refs, pendingEventsRef refs)) as Hrec'.
  destruct (fold_left pushWord sorted _) as [seen pending].
  cbn [fst snd seenEventsRef pendingEventsRef] in *.
  split; [exact Hsub|]. intros Hrec. specialize (Hrec' Hrec).
  apply Forall_forall. intros e' He'.
  pose proof (decimateTimeline_stems (sortByKey ev_at pending)) as Hst.
  rewrite Forall_forall in Hst. destruct (Hst e' He') as (e & Hin & Hn & Ha).
  rewrite (makeEventKey_stems e e' Hn Ha).
  rewrite (sortByKey_perm ev_at pending) in Hin.
  rewrite Forall_forall in Hrec'. exact (Hrec' e Hin).
Qed.
End Push.

Lemma pushWordsToTimeline_spacing_witness :
  minGapSpaced
    (pendingEventsRef
       (pushWordsToTimeline (U := composedText) initialRefs
          [cat; {| w_word := js "a"; w_phoneme := js "ə";
                   w_start := 0.05; w_end := 0.2 |}])).
Proof.
  apply (pushWordsToTimeline_spacing (U := composedText) initialRefs
           [cat; {| w_word := js "a"; w_phoneme := js "ə";
                    w_start := 0.05; w_end := 0.2 |}]).
  discriminate.
Defined.

Lemma pushWordsToTimeline_recorded_witness :
  let sat := {| w_word := js "sat"; w_phoneme := js "sæt";
                w_start := 0.3; w_end := 0.6 |} in
  let refs := pushWordsToTimeline (U := composedText) initialRefs [cat] in
  length (pendingEventsRef refs) = 3%nat
  /\ pendingRecorded refs
  /\ pendingRecorded (pushWordsToTimeline (U := composedText) refs [sat]).
Proof.
  intros sat refs.
  assert (Hrec : pendingRecorded refs).
  { unfold pendingRecorded. apply Forall_forall. intros e He.
    vm_compute in He.
    repeat (apply elem_of_cons in He as [->|He]; [by_evaluation|]).
    apply elem_of_nil in He. destruct He. }
  split; [reflexivity|]. split; [exact Hrec|].
  apply (pushWordsToTimeline_recorded (U := composedText) refs [sat]).
  exact Hrec.
Defined.


(* ===================================================================== *)
(** ** Scheduler: ramps, envelopes, promotion *)
(* ===================================================================== *)

Lemma fitRamps_unscaled (duration : Q) (attack decay : option Q) :
  fitRamps duration attack decay
  = (Qmin (Qmax 0 (default DEF_ATTACK attack)) (duration * 0.4),
     Qmin (Qmax 0 (default DEF_DECAY decay)) (duration * 0.4)).
Proof.
  unfold fitRamps. cbv zeta.
  set (a := Qmin (Qmax 0 (default DEF_ATTACK attack)) (duration * 0.4)).
  set (d := Qmin (Qmax 0 (default DEF_DECAY decay)) (duration * 0.4)).
  destruct (Qle_bool (a + d) duration || Qle_bool duration 0) eqn:E;
    [reflexivity|].
  exfalso. apply orb_false_iff in E as [E1 E2].
  apply Qle_bool_false in E1, E2.
  pose proof (Q.le_min_r (Qmax 0 (default DEF_ATTACK attack)) (duration * 0.4)).
  pose proof (Q.le_min_r (Qmax 0 (default DEF_DECAY decay)) (duration * 0.4)).
  fold a in H. fold d in H0. lra.
Qed.

Lemma fitRamps_within (duration : Q) (attack decay : option Q) :
  0 <= duration ->
  0 <= (fitRamps duration attack decay).1
  /\ 0 <= (fitRamps duration attack decay).2
  /\ (fitRamps duration attack decay).1 <= duration * 0.4
  /\ (fitRamps duration attack decay).2 <= duration * 0.4
  /\ (fitRamps duration attack decay).1 + (fitRamps duration attack decay).2
     <= duration.
Proof.
  rewrite fitRamps_unscaled. cbn [fst snd].
  intros Hd.
  pose proof (Q.le_min_r (Qmax 0 (default DEF_ATTACK attack)) (duration * 0.4)).
  pose proof (Q.le_min_r (Qmax 0 (default DEF_DECAY decay)) (duration * 0.4)).
  assert (Ha : 0 <= Qmin (Qmax 0 (default DEF_ATTACK attack)) (duration * 0.4))
    by (apply Q.min_glb; [apply Q.le_max_l | lra]).
  assert (Hb : 0 <= Qmin (Qmax 0 (default DEF_DECAY decay)) (duration * 0.4))
    by (apply Q.min_glb; [apply Q.le_max_l | lra]).
  repeat split; try assumption. lra.
Qed.

(** X17.  The fitted ramps are the requested ones, floored at 0 and capped
    at 40% of the duration each; the proportional rescaling of the source
    is never reached.  For a duration that is not negative both ramps are
    not negative and together they fit in the duration. *)
Theorem fitRamps_fit (duration : Q) (attack decay : option Q) :
  fitRamps duration attack decay
  = (Qmin (Qmax 0 (default DEF_ATTACK attack)) (duration * 0.4),
     Qmin (Qmax 0 (default DEF_DECAY decay)) (duration * 0.4))
  /\ (0 <= duration ->
      0 <= (fitRamps duration attack decay).1
      /\ 0 <= (fitRamps duration attack decay).2
      /\ (fitRamps duration attack decay).1 <= duration * 0.4
      /\ (fitRamps duration attack decay).2 <= duration * 0.4
      /\ (fitRamps duration attack decay).1 + (fitRamps duration attack decay).2
         <= duration).
Proof.
  split; [apply fitRamps_unscaled | apply fitRamps_within].
Qed.

Lemma fitRamps_fit_witness :
  (fitRamps 0.05 None None).1 + (fitRamps 0.05 None None).2 <= 0.05.
Proof.
  apply (proj2 (fitRamps_fit 0.05 None None)). vm_compute. discriminate.
Defined.

Lemma ratio_in_unit (x m : Q) : 0 <= x -> x <= m -> 0 < m -> 0 <= x / m <= 1.
Proof.
  intros Hx Hxm Hm. split.
  - apply Qle_shift_div_l; [exact Hm | lra].
  - apply Qle_shift_div_r; [exact Hm | lra].
Qed.

(** X18.  The value of an envelope whose peak is not negative lies between
    0 and its peak, whatever its countdown and ramps. *)
Theorem envValueFromCountdown_range (env : ActiveEnv) :
  0 <= env_peak env ->
  0 <= envValueFromCountdown env <= env_peak env.
Proof.
  intros Hp. unfold envValueFromCountdown. cbv zeta.
  set (elapsed := env_total env - env_timeLeft env).
  destruct (Qle_bool elapsed 0 || Qle_bool (env_total env) 0) eqn:E;
    [lra|].
  apply orb_false_iff in E as [E1 _]. apply Qle_bool_false in E1.
  set (hold := Qmax 0 (env_total env - env_attack env - env_decay env)).
  destruct (Qlt_bool elapsed (env_attack env)) eqn:A.
  - apply Qlt_bool_true in A.
    pose proof (Q.le_max_r 1e-6 (env_attack env)) as Hm.
    destruct (ratio_in_unit elapsed (Qmax 1e-6 (env_attack env)))
      as [R0 R1]; [lra | lra | lra|].
    set (r := elapsed / Qmax 1e-6 (env_attack env)) in *.
    clearbody r. nra.
  - destruct (Qlt_bool elapsed (env_attack env + hold)) eqn:S; [lra|].
    apply Qlt_bool_false in S.
    pose proof (Q.le_max_l 1e-6 (env_decay env)) as Hm.
    assert (Hpos : 0 < Qmax 1e-6 (env_decay env)).
    { eapply Qlt_le_trans; [|exact Hm]. reflexivity. }
    set (td := elapsed - (env_attack env + hold)) in *.
    assert (Hq : 0 <= td / Qmax 1e-6 (env_decay env)).
    { apply Qle_shift_div_l; [exact Hpos | subst td; lra]. }
    set (q := td / Qmax 1e-6 (env_decay env)) in *. clearbody q.
    split; [apply Q.le_max_l|].
    apply Q.max_lub; [exact Hp | nra].
Qed.

Lemma envValueFromCountdown_range_witness :
  let env := {| env_name := js "viseme_aa"; env_timeLeft := 0.09;
                env_total := 0.1; env_peak := 1;
                env_attack := 0.03; env_decay := 0.04 |} in
  0 <= envValueFromCountdown env <= 1.
Proof.
  intros env. apply (envValueFromCountdown_range env).
  vm_compute. discriminate.
Defined.

Lemma promote_split (now : Q) (pending : list VisemeEvent) :
  forall active,
    exists due envs,
      pending = due ++ (promoteDueEvents now pending active).1
      /\ (promoteDueEvents now pending active).2 = active ++ envs
      /\ Forall (fun ev => ev_at ev <= now) due
      /\ match (promoteDueEvents now pending active).1 with
         | ev :: _ => now < ev_at ev
         | [] => True
         end
      /\ Forall2 activates due envs.
Proof.
  induction pending as [|ev rest IH]; intros active; cbn [promoteDueEvents].
  - exists [], []. cbn [fst snd app].
    split; [reflexivity|]. split; [symmetry; apply app_nil_r|].
    repeat split; constructor.
  - destruct (Qle_bool (ev_at ev) now) eqn:E.
    + apply Qle_bool_iff in E.
      pose proof (fitRamps_within (ev_duration ev) (ev_attack ev)
                    (ev_decay ev)) as Hfit.
      destruct (fitRamps (ev_duration ev) (ev_attack ev) (ev_decay ev))
        as [a d].
      cbn [fst snd] in Hfit.
      match goal with |- context [promoteDueEvents now rest (active ++ [?e])] =>
        destruct (IH (active ++ [e])) as (due & envs & H1 & H2 & H3 & H4 & H5);
        exists (ev :: due), (e :: envs)
      end.
      rewrite H2, <- app_assoc. cbn [app].
      split; [f_equal; exact H1|]. split; [reflexivity|].
      split; [constructor; assumption|]. split; [exact H4|].
      constructor; [|exact H5].
      unfold activates;
        cbn [env_name env_timeLeft env_total env_peak env_attack env_decay].
      repeat split.
      * apply Q.min_glb; [lra | apply Q.le_max_l].
      * apply Q.le_min_l.
      * apply Hfit; assumption.
      * apply Hfit; assumption.
      * destruct (Hfit H) as (_ & _ & _ & _ & Hsum). exact Hsum.
    + apply Qle_bool_false in E. exists [], []. cbn [fst snd app].
      split; [reflexivity|]. split; [symmetry; apply app_nil_r|].
      repeat split; try constructor. exact E.
Qed.


(* ===================================================================== *)
(** ** Scheduler: the frame *)
(* ===================================================================== *)

Lemma str_eqb_eq (a b : jsstr) : str_eqb a b = true <-> a = b.
Proof. unfold str_eqb. apply bool_decide_eq_true. Qed.

Lemma str_eqb_neq (a b : jsstr) : str_eqb a b = false <-> a <> b.
Proof. unfold str_eqb. apply bool_decide_eq_false. Qed.

Lemma mapGet_elem (m : list (jsstr * Q)) (k : jsstr) (v : Q) :
  mapGet m k = Some v -> (k, v) ∈ m.
Proof.
  induction m as [|[k' v'] m IH]; cbn [mapGet]; [discriminate|].
  destruct (str_eqb k' k) eqn:E.
  - apply str_eqb_eq in E. subst k'. intros [= ->]. left.
  - intros H. right. exact (IH H).
Qed.

Lemma mapGet_None (m : list (jsstr * Q)) (k : jsstr) :
  mapGet m k = None <-> k ∉ m.*1.
Proof.
  induction m as [|[k' v'] m IH]; cbn [mapGet fmap list_fmap fst].
  - split; [intros _; apply not_elem_of_nil | reflexivity].
  - destruct (str_eqb k' k) eqn:E.
    + apply str_eqb_eq in E. subst k'. split; [discriminate|].
      intros H. exfalso. apply H. left.
    + apply str_eqb_neq in E. rewrite IH. rewrite not_elem_of_cons.
      split; [intros H; split; [congruence | exact H] | intros [_ H]; exact H].
Qed.

Lemma mapSet_keys (m : list (jsstr * Q)) (k : jsstr) (v : Q) :
  (mapSet m k v).*1 = if bool_decide (k ∈ m.*1) then m.*1 else m.*1 ++ [k].
Proof.
  induction m as [|[k' v'] m IH]; cbn [mapSet fmap list_fmap fst].
  - rewrite bool_decide_eq_false_2 by apply not_elem_of_nil. reflexivity.
  - destruct (str_eqb k' k) eqn:E.
    + apply str_eqb_eq in E. subst k'.
      rewrite bool_decide_eq_true_2 by left. reflexivity.
    + apply str_eqb_neq in E. cbn [fmap list_fmap fst]. rewrite IH.
      destruct (bool_decide (k ∈ m.*1)) eqn:D.
      * apply bool_decide_eq_true in D.
        rewrite bool_decide_eq_true_2 by (right; exact D). reflexivity.
      * apply bool_decide_eq_false in D.
        rewrite bool_decide_eq_false_2; [reflexivity|].
        rewrite not_elem_of_cons. split; [congruence | exact D].
Qed.

Lemma mapGet_mapSet (m : list (jsstr * Q)) (k k' : jsstr) (v : Q) :
  mapGet (mapSet m k v) k'
  = if str_eqb k k' then Some v else mapGet m k'.
Proof.
  induction m as [|[k0 v0] m IH]; cbn [mapSet mapGet].
  - reflexivity.
  - destruct (str_eqb k0 k) eqn:E; cbn [mapGet].
    + apply str_eqb_eq in E. subst k0.
      destruct (str_eqb k k'); reflexivity.
    + destruct (str_eqb k0 k') eqn:E'; [|exact IH].
      destruct (str_eqb k k') eqn:K; [|reflexivity].
      apply str_eqb_eq in K. subst k'. congruence.
Qed.

Lemma mapSet_elem (m : list (jsstr * Q)) (k : jsstr) (v : Q) (entry : jsstr * Q) :
  entry ∈ mapSet m k v -> entry = (k, v) \/ entry ∈ m.
Proof.
  induction m as [|[k0 v0] m IH]; cbn [mapSet].
  - intros H. apply list_elem_of_singleton in H. auto.
  - destruct (str_eqb k0 k).
    + intros H. apply elem_of_cons in H as [H|H]; [auto|].
      right. right. exact H.
    + intros H. apply elem_of_cons in H as [H|H].
      * right. subst entry. left.
      * destruct (IH H) as [H'|H']; [auto | right; right; exact H'].
Qed.

Lemma aggregate_max (gains : gmap jsstr Q) (more : list ActiveEnv) :
  forall (done : list ActiveEnv) (byName : list (jsstr * Q)),
    Forall inRange byName ->
    aggregateOf gains done byName ->
    aggregateOf gains (done ++ more)
                (fold_left (aggregateStep gains) more byName).
Proof.
  induction more as [|env more IH]; intros done byName Hrange Hagg;
    cbn [fold_left].
  - rewrite app_nil_r. exact Hagg.
  - replace (done ++ env :: more) with ((done ++ [env]) ++ more)
      by (rewrite <- app_assoc; reflexivity).
    apply IH; [apply aggregateStep_inRange, Hrange|].
    destruct Hagg as (Hnd & Hsrc & Hmax).
    unfold aggregateStep. fold (contribution gains env).
    destruct (Qle_bool (envValueFromCountdown env) 0) eqn:Z.
    { apply Qle_bool_iff in Z. split; [exact Hnd|]. split.
      - intros name v Hin. destruct (Hsrc name v Hin) as (e & He & Hn & Hv).
        exists e. split; [apply elem_of_app; left; exact He | auto].
      - intros e He Hpos Hc. apply elem_of_app in He as [He|He].
        + exact (Hmax e He Hpos Hc).
        + apply list_elem_of_singleton in He. subst e. lra. }
    destruct (Qlt_bool (default 0 (mapGet byName (env_name env)))
                       (contribution gains env)) eqn:L.
    + apply Qlt_bool_true in L. split; [|split].
      * rewrite mapSet_keys. destruct (bool_decide _) eqn:D; [exact Hnd|].
        apply bool_decide_eq_false in D.
        apply NoDup_app. split; [exact Hnd|]. split.
        -- intros x Hx Hx'. apply list_elem_of_singleton in Hx'. subst x.
           exact (D Hx).
        -- apply NoDup_singleton.
      * intros name v Hin. apply mapSet_elem in Hin as [[= -> ->]|Hin].
        -- exists env. split; [apply elem_of_app; right; left | auto].
        -- destruct (Hsrc name v Hin) as (e & He & Hn & Hv).
           exists e. split; [apply elem_of_app; left; exact He | auto].
      * intros e He Hpos Hc. rewrite mapGet_mapSet.
        destruct (str_eqb (env_name env) (env_name e)) eqn:N.
        -- apply str_eqb_eq in N. eexists. split; [reflexivity|].
           apply elem_of_app in He as [He|He].
           ++ destruct (Hmax e He Hpos Hc) as (v & Hv & Hle).
              rewrite N, Hv in L. cbn in L. lra.
           ++ apply list_elem_of_singleton in He. subst e. lra.
        -- apply elem_of_app in He as [He|He]; [exact (Hmax e He Hpos Hc)|].
           apply list_elem_of_singleton in He. subst e.
           apply str_eqb_neq in N. congruence.
    + apply Qlt_bool_false in L. split; [exact Hnd|]. split.
      * intros name v Hin. destruct (Hsrc name v Hin) as (e & He & Hn & Hv).
        exists e. split; [apply elem_of_app; left; exact He | auto].
      * intros e He Hpos Hc. apply elem_of_app in He as [He|He];
          [exact (Hmax e He Hpos Hc)|].
        apply list_elem_of_singleton in He. subst e.
        destruct (mapGet byName (env_name env)) as [v|] eqn:G.
        -- exists v. split; [reflexivity | exact L].
        -- cbn in L. lra.
Qed.


(** X19.  Promotion moves the due prefix of the pending queue (the events
    with onset <= now, up to the first one that is not due) to the end of
    the active set, one envelope per event and in the same order.  Each
    envelope starts with its full duration left, has a peak between 0 and
    1, and ramps that fit in its duration. *)
Theorem promoteDueEvents_split (now : Q) (pending : list VisemeEvent)
    (active : list ActiveEnv) :
  exists due envs,
    pending = due ++ (promoteDueEvents now pending active).1
    /\ (promoteDueEvents now pending active).2 = active ++ envs
    /\ Forall (fun ev => ev_at ev <= now) due
    /\ match (promoteDueEvents now pending active).1 with
       | ev :: _ => now < ev_at ev
       | [] => True
       end
    /\ Forall2 activates due envs.
Proof. apply promote_split. Qed.

(** X20.  A frame leaves the anchor, the segment state, the pre-roll queue
    and the dedup set alone; it only takes events off the front of the
    pending queue, creates no event or envelope beyond those it promotes,
    and after a frame that ran (clock and anchor present) every envelope
    still active has time left.  Without a clock or an anchor the frame
    does nothing at all. *)
Theorem frame_effect (gains : gmap jsstr Q) (decayFactor : Q)
    (ctx : option Q) (rawDt : Q) (refs : Refs) :
  let refs' := (frame gains decayFactor ctx rawDt refs).1 in
  t0Ref refs' = t0Ref refs
  /\ segStateRef refs' = segStateRef refs
  /\ wordQueueRef refs' = wordQueueRef refs
  /\ seenEventsRef refs' = seenEventsRef refs
  /\ pendingEventsRef refs' `suffix_of` pendingEventsRef refs
  /\ (length (pendingEventsRef refs') + length (activeEnvelopesRef refs')
      <= length (pendingEventsRef refs) + length (activeEnvelopesRef refs))%nat
  /\ (is_Some ctx -> is_Some (t0Ref refs) ->
      Forall (fun e => 0 < env_timeLeft e) (activeEnvelopesRef refs'))
  /\ (ctx = None \/ t0Ref refs = None ->
      frame gains decayFactor ctx rawDt refs = (refs, [])).
Proof.
  intros refs'. subst refs'. unfold frame.
  destruct ctx as [currentTime|].
  2:{ cbn [fst]. repeat split; try reflexivity; try lia.
      intros [x Hx]. discriminate. }
  destruct (t0Ref refs) as [t0|] eqn:T.
  2:{ cbn [fst]. rewrite T. repeat split; try reflexivity; try lia.
      intros _ [x Hx]. discriminate. }
  destruct (promote_split (currentTime - t0) (pendingEventsRef refs)
              (activeEnvelopesRef refs))
    as (due & envs & H1 & H2 & _ & _ & H5).
  destruct (promoteDueEvents _ _ _) as [pending active].
  cbn [fst snd t0Ref segStateRef wordQueueRef seenEventsRef pendingEventsRef
       activeEnvelopesRef] in *.
  repeat split; try reflexivity.
  - exists due. exact H1.
  - etransitivity; [apply Nat.add_le_mono_l, length_filter|].
    rewrite length_map, H2, H1, !length_app.
    rewrite (Forall2_length _ _ _ H5). lia.
  - intros _ _. apply Forall_forall. intros e He.
    apply list_elem_of_filter in He as [He _].
    apply Is_true_true, Qlt_bool_true in He. exact He.
  - intros [H|H]; discriminate.
Qed.

Lemma frame_effect_witness :
  frame perVisemeGain 0.85 (Some 1) 0.016 initialRefs = (initialRefs, []).
Proof.
  apply (proj2 (proj2 (proj2 (proj2 (proj2 (proj2 (proj2
           (frame_effect perVisemeGain 0.85 (Some 1) 0.016 initialRefs)))))))).
  right. reflexivity.
Defined.

(** X21.  In a frame that runs, each viseme name is written at most once,
    every written intensity is the clamped, gain-weighted value of one of
    the active envelopes of that name, and no positive such value of any
    active envelope exceeds what is written for its name: the sink gets
    the maximum over overlapping envelopes.  The writes are followed by
    exactly one global decay. *)
Theorem frame_writes_max (gains : gmap jsstr Q) (decayFactor : Q)
    (currentTime t0 rawDt : Q) (refs : Refs) :
  t0Ref refs = Some t0 ->
  let active' := (promoteDueEvents (currentTime - t0) (pendingEventsRef refs)
                    (activeEnvelopesRef refs)).2 in
  let calls := (frame gains decayFactor (Some currentTime) rawDt refs).2 in
  aggregateOf gains active' (written calls)
  /\ calls = map (fun '(name, val) => SetViseme name val) (written calls)
             ++ [DecayVisemes decayFactor].
Proof.
  intros T active' calls. subst active' calls. unfold frame. rewrite T.
  destruct (promoteDueEvents _ _ _) as [pending active].
  cbn [fst snd]. rewrite written_writes. split; [|reflexivity].
  apply (aggregate_max gains active [] []); [constructor|].
  split; [constructor|]. split.
  - intros name v H. apply elem_of_nil in H. destruct H.
  - intros env H. apply elem_of_nil in H. destruct H.
Qed.

Lemma frame_writes_max_witness :
  let calls := (frame perVisemeGain 0.85 (Some 0.05) 0.016 speakingRefs).2 in
  map fst (written calls) = [js "viseme_aa"; js "viseme_kk"]
  /\ Forall (fun entry => entry.2 == 0.9) (written calls)
  /\ aggregateOf perVisemeGain (activeEnvelopesRef speakingRefs)
                 (written calls).
Proof.
  intros calls.
  split; [reflexivity|]. split; [repeat constructor|].
  apply (frame_writes_max perVisemeGain 0.85 0.05 0 0.016 speakingRefs).
  reflexivity.
Defined.

Section PreRoll.
Context {U : UnicodeData}.

Lemma prepareEvents_append (evs : list VisemeEvent) :
  forall seen events,
    exists new,
      (fold_left prepareEvent evs (seen, events)).2 = events ++ new
      /\ seen ⊆ (fold_left prepareEvent evs (seen, events)).1
      /\ Forall (fun e => e ∈ evs) new.
Proof.
  induction evs as [|ev evs IH]; intros seen events; cbn [fold_left].
  - exists []. rewrite app_nil_r. repeat split; [reflexivity | constructor].
  - unfold prepareEvent at 2 4.
    destruct (bool_decide _).
    + destruct (IH seen events) as (new & H1 & H2 & H3).
      exists new. repeat split; [exact H1 | exact H2|].
      eapply Forall_impl; [exact H3|]. intros e He. right. exact He.
    + match goal with |- context [fold_left prepareEvent evs (?s, ?e)] =>
        destruct (IH s e) as (new & H1 & H2 & H3) end.
      exists (ev :: new). rewrite H1, <- app_assoc. repeat split.
      * etransitivity; [apply union_subseteq_r | exact H2].
      * constructor; [left|].
        eapply Forall_impl; [exact H3|]. intros e He. right. exact He.
Qed.

Lemma prepareWords_append (ws : list WordTiming) :
  forall seen events,
    exists new,
      (fold_left (fun st w => fold_left prepareEvent (wordToVisemeEvents w) st)
                 ws (seen, events)).2 = events ++ new
      /\ seen ⊆ (fold_left
                   (fun st w => fold_left prepareEvent (wordToVisemeEvents w) st)
                   ws (seen, events)).1
      /\ Forall (fun e => exists w, w ∈ ws /\ e ∈ wordToVisemeEvents w) new.
Proof.
  induction ws as [|w ws IH]; intros seen events; cbn [fold_left].
  - exists []. rewrite app_nil_r. repeat split; [reflexivity | constructor].
  - destruct (prepareEvents_append (wordToVisemeEvents w) seen events)
      as (new1 & A1 & A2 & A3).
    destruct (fold_left prepareEvent (wordToVisemeEvents w) (seen, events))
      as [seen1 events1].
    cbn [fst snd] in A1, A2. subst events1.
    destruct (IH seen1 (events ++ new1)) as (new2 & B1 & B2 & B3).
    exists (new1 ++ new2). rewrite B1, <- app_assoc. repeat split.
    + etransitivity; [exact A2 | exact B2].
    + apply Forall_app. split.
      * eapply Forall_impl; [exact A3|]. intros e He.
        exists w. split; [left | exact He].
      * eapply Forall_impl; [exact B3|]. intros e (w' & Hw' & He).
        exists w'. split; [right; exact Hw' | exact He].
Qed.

(** X23.  Playback start sets the anchor to the clock time plus the output
    latency and drains the pre-roll queue: the queue is left empty, the
    pending queue keeps what it held and gains, in time order, events of
    the queued words only; the dedup set loses nothing, and the segment
    state and the active set are untouched. *)
Theorem onPlaybackStarted_drains (currentTime : Q) (refs : Refs) :
  let refs' := onPlaybackStarted currentTime refs in
  t0Ref refs' = Some (currentTime + outputLatencySec)
  /\ wordQueueRef refs' = []
  /\ segStateRef refs' = segStateRef refs
  /\ activeEnvelopesRef refs' = activeEnvelopesRef refs
  /\ seenEventsRef refs ⊆ seenEventsRef refs'
  /\ exists new,
       pendingEventsRef refs' = pendingEventsRef refs ++ new
       /\ timeSorted new
       /\ Forall (fun e => exists w, w ∈ wordQueueRef refs
                                     /\ e ∈ wordToVisemeEvents w) new.
Proof.
  intros refs'. subst refs'.
  unfold onPlaybackStarted, prepareTimelineFromWords.
  cbn [wordQueueRef seenEventsRef pendingEventsRef t0Ref segStateRef
       activeEnvelopesRef].
  destruct (prepareWords_append (wordQueueRef refs) (seenEventsRef refs) [])
    as (new & H1 & H2 & H3).
  destruct (fold_left _ (wordQueueRef refs) _) as [seen events].
  cbn [fst snd app] in *. subst events.
  cbn [wordQueueRef seenEventsRef pendingEventsRef t0Ref segStateRef
       activeEnvelopesRef].
  repeat split; try reflexivity; [exact H2|].
  exists (sortByKey ev_at new). split; [reflexivity|].
  split; [apply sortByKey_sorted|].
  rewrite (sortByKey_perm ev_at new). exact H3.
Qed.
End PreRoll.



(* ===================================================================== *)
(** ** The rendering sink *)
(* ===================================================================== *)

Lemma writeAt_in_range (infl : list Slot) (i : nat) (v : Slot) :
  (i < length infl)%nat -> writeAt infl i v = <[i := v]> infl.
Proof.
  intros H. unfold writeAt. apply Nat.ltb_lt in H. rewrite H. reflexivity.
Qed.

Lemma applyCalls_meshes (calls : list SinkCall) :
  forall nodes,
    applyCalls nodes calls
    = {| Wolf3D_Head := fold_left meshStep calls (Wolf3D_Head nodes);
         Wolf3D_Teeth := fold_left meshStep calls (Wolf3D_Teeth nodes) |}.
Proof.
  unfold applyCalls.
  induction calls as [|c calls IH]; intros [head teeth]; cbn [fold_left].
  - reflexivity.
  - rewrite IH. destruct c; reflexivity.
Qed.

Lemma meshSteps_array (calls : list SinkCall) :
  forall (dict : gmap jsstr nat) (infl : list Slot),
    fold_left meshStep calls
      (Some {| morphTargetDictionary := Some dict;
               morphTargetInfluences := Some infl |})
    = Some {| morphTargetDictionary := Some dict;
              morphTargetInfluences :=
                Some (fold_left (arrayStep dict) calls infl) |}.
Proof.
  induction calls as [|c calls IH]; intros dict infl; cbn [fold_left].
  - reflexivity.
  - destruct c as [name value|factor]; cbn.
    + destruct (dict !! name) as [i|]; apply IH.
    + apply IH.
Qed.

Lemma writes_on_array (dict : gmap jsstr nat) (byName : list (jsstr * Q)) :
  forall infl : list Slot,
    (forall name i, dict !! name = Some i -> (i < length infl)%nat) ->
    (forall n1 n2 i, dict !! n1 = Some i -> dict !! n2 = Some i -> n1 = n2) ->
    NoDup byName.*1 ->
    let infl' :=
      fold_left (arrayStep dict)
                (map (fun '(name, val) => SetViseme name val) byName) infl in
    length infl' = length infl
    /\ (forall name v i, (name, v) ∈ byName -> dict !! name = Some i ->
                         infl' !! i = Some (Num v))
    /\ (forall j, (forall name i, name ∈ byName.*1 -> dict !! name = Some i ->
                                  i <> j) ->
                  infl' !! j = infl !! j).
Proof.
  induction byName as [|[n0 v0] rest IH]; intros infl Hrange Hinj Hnd;
    cbn [map fold_left].
  - cbn zeta. split; [reflexivity|]. split; [|reflexivity].
    intros name v i H. apply elem_of_nil in H. destruct H.
  - cbn [fmap list_fmap fst] in Hnd. apply NoDup_cons in Hnd as [Hn0 Hnd].
    cbn [arrayStep].
    set (infl1 := match dict !! n0 with
                  | Some i => writeAt infl i (Num v0)
                  | None => infl
                  end).
    assert (Hlen1 : length infl1 = length infl).
    { subst infl1. destruct (dict !! n0) as [i0|] eqn:D; [|reflexivity].
      rewrite writeAt_in_range by exact (Hrange _ _ D).
      apply length_insert. }
    destruct (IH infl1) as (L & W & K); [|exact Hinj | exact Hnd|].
    { intros name i D. rewrite Hlen1. exact (Hrange _ _ D). }
    cbn zeta in *. split; [rewrite L; exact Hlen1|]. split.
    + intros name v i Hin D. apply elem_of_cons in Hin as [[= -> ->]|Hin].
      * rewrite K.
        -- subst infl1. rewrite D.
           rewrite writeAt_in_range by exact (Hrange _ _ D).
           apply list_lookup_insert_eq. exact (Hrange _ _ D).
        -- intros n' i' Hn' D' ->. apply Hn0.
           rewrite (Hinj _ _ _ D D'). exact Hn'.
      * exact (W name v i Hin D).
    + intros j Hj. rewrite K.
      * subst infl1. destruct (dict !! n0) as [i0|] eqn:D; [|reflexivity].
        rewrite writeAt_in_range by exact (Hrange _ _ D).
        apply list_lookup_insert_ne. apply (Hj n0); [left | exact D].
      * intros n' i' Hn' D'. apply (Hj n'); [right; exact Hn' | exact D'].
Qed.


Lemma frame_calls_running (gains : gmap jsstr Q) (decayFactor : Q)
    (currentTime t0 rawDt : Q) (refs : Refs) :
  t0Ref refs = Some t0 ->
  exists byName,
    (frame gains decayFactor (Some currentTime) rawDt refs).2
    = map (fun '(name, val) => SetViseme name val) byName
      ++ [DecayVisemes decayFactor]
    /\ written (frame gains decayFactor (Some currentTime) rawDt refs).2
       = byName
    /\ NoDup byName.*1
    /\ Forall inRange byName.
Proof.
  intros T. unfold frame. rewrite T.
  destruct (promoteDueEvents _ _ _) as [pending active]. cbn [snd].
  eexists. split; [reflexivity|]. split; [apply written_writes|].
  split.
  - apply (aggregate_max gains active [] []); [constructor|].
    split; [constructor|]. split.
    + intros name v H. apply elem_of_nil in H. destruct H.
    + intros env H. apply elem_of_nil in H. destruct H.
  - apply aggregate_inRange. constructor.
Qed.

(** X24.  What a loaded mesh shows after a frame that ran: for every shape
    the frame wrote and the mesh knows, the written intensity times the
    decay factor (the global decay follows the writes within the frame);
    for every shape that was not written, its previous influence times the
    decay factor.  The dictionary and the size of the array are as before. *)
Theorem frame_on_mesh (gains : gmap jsstr Q) (decayFactor : Q)
    (currentTime t0 rawDt : Q) (refs : Refs) (m : SkinnedMesh) :
  loadedMesh m ->
  t0Ref refs = Some t0 ->
  let calls := (frame gains decayFactor (Some currentTime) rawDt refs).2 in
  let mesh' := fold_left meshStep calls (Some m) in
  (forall name v,
     (name, v) ∈ written calls -> is_Some (lookupIndex (Some m) name) ->
     influenceOf mesh' name = Some (Num (v * decayFactor)))
  /\ (forall name,
        name ∉ (written calls).*1 ->
        influenceOf mesh' name
        = decaySlot decayFactor <$> influenceOf (Some m) name)
  /\ meshOk mesh'.
Proof.
  intros (dict & infl & Hd & Hi & Hrange & Hinj) T calls mesh'.
  subst calls mesh'.
  destruct (frame_calls_running gains decayFactor currentTime t0 rawDt refs T)
    as (byName & -> & Hw & Hnd & _).
  rewrite written_writes.
  destruct m as [d a]. cbn [morphTargetDictionary morphTargetInfluences] in *.
  subst d a.
  rewrite meshSteps_array, fold_left_app. cbn [fold_left arrayStep].
  destruct (writes_on_array dict byName infl Hrange Hinj Hnd) as (L & W & K).
  cbn zeta in L, W, K.
  set (infl' := fold_left (arrayStep dict) _ infl) in *.
  unfold influenceOf, lookupIndex.
  cbn [morphTargetDictionary morphTargetInfluences].
  change (default ∅ (Some dict)) with dict.
  split; [|split].
  - intros name v Hin [i D]. rewrite D, list_lookup_fmap.
    rewrite (W name v i Hin D). reflexivity.
  - intros name Hout. destruct (dict !! name) as [i|] eqn:D; [|reflexivity].
    rewrite list_lookup_fmap, K; [reflexivity|].
    intros n' i' Hn' D' ->. apply Hout.
    rewrite (Hinj _ _ _ D D'). exact Hn'.
  - cbn [meshOk]. exists dict, (map (decaySlot decayFactor) infl').
    repeat split; [|exact Hinj].
    intros name i D. rewrite length_map, L. exact (Hrange _ _ D).
Qed.

Lemma frame_on_mesh_witness :
  let calls := (frame perVisemeGain 0.85 (Some 0.05) 0.016 speakingRefs).2 in
  let mesh' := fold_left meshStep calls (Some faceMesh) in
  length (written calls) = 2%nat
  /\ influenceOf mesh' (js "viseme_aa")
     = Some (Num (contribution perVisemeGain holdEnvelope * 0.85))
  /\ contribution perVisemeGain holdEnvelope == 0.9
  /\ influenceOf mesh' (js "eyeBlinkLeft") = Some (Num (1 * 0.85)).
Proof.
  intros calls mesh'.
  assert (Hm : loadedMesh faceMesh).
  { eexists _, _. split; [reflexivity|]. split; [reflexivity|]. split.
    - intros name i H. apply elem_of_list_to_map_2 in H.
      apply elem_of_cons in H as [H|H]; [inversion H; cbn; lia|].
      apply elem_of_cons in H as [H|H]; [inversion H; cbn; lia|].
      apply elem_of_nil in H. destruct H.
    - intros n1 n2 i H1 H2.
      apply elem_of_list_to_map_2 in H1, H2.
      apply elem_of_cons in H1 as [H1|H1];
        [|apply elem_of_cons in H1 as [H1|H1];
          [|apply elem_of_nil in H1; destruct H1]];
        (apply elem_of_cons in H2 as [H2|H2];
         [|apply elem_of_cons in H2 as [H2|H2];
           [|apply elem_of_nil in H2; destruct H2]]);
        inversion H1; inversion H2; subst; try reflexivity; discriminate. }
  destruct (frame_on_mesh perVisemeGain 0.85 0.05 0 0.016 speakingRefs
              faceMesh Hm eq_refl) as (Hw & Hk & _).
  split; [reflexivity|]. split; [|split; [reflexivity|]].
  - apply Hw.
    + vm_compute. left.
    + eexists. reflexivity.
  - rewrite Hk; [reflexivity|].
    vm_compute. intros Hin.
    apply elem_of_cons in Hin as [Hin|Hin]; [discriminate|].
    apply elem_of_cons in Hin as [Hin|Hin]; [discriminate|].
    apply elem_of_nil in Hin. destruct Hin.
Defined.


Lemma frame_calls_shape (gains : gmap jsstr Q) (decayFactor : Q)
    (ctx : option Q) (rawDt : Q) (refs : Refs) :
  (frame gains decayFactor ctx rawDt refs).2 = []
  \/ exists byName,
       (frame gains decayFactor ctx rawDt refs).2
       = map (fun '(name, val) => SetViseme name val) byName
         ++ [DecayVisemes decayFactor]
       /\ Forall inRange byName.
Proof.
  destruct ctx as [currentTime|], (t0Ref refs) as [t0|] eqn:T;
    try (left; unfold frame; rewrite ?T; reflexivity).
  right.
  destruct (frame_calls_running gains decayFactor currentTime t0 rawDt refs T)
    as (byName & E & _ & _ & R).
  exists byName. split; assumption.
Qed.

Lemma writes_keep_bound (dict : gmap jsstr nat) (bound : Q)
    (byName : list (jsstr * Q)) :
  MORPH_CAP <= bound ->
  Forall inRange byName ->
  forall infl,
    (forall name i, dict !! name = Some i -> (i < length infl)%nat) ->
    Forall (fun s => exists q, s = Num q /\ 0 <= q /\ q <= bound) infl ->
    let infl' :=
      fold_left (arrayStep dict)
                (map (fun '(name, val) => SetViseme name val) byName) infl in
    length infl' = length infl
    /\ Forall (fun s => exists q, s = Num q /\ 0 <= q /\ q <= bound) infl'.
Proof.
  intros Hb Hr. induction Hr as [|[name v] byName [Hv0 Hv1] Hr IH];
    intros infl Hrange Hin; cbn [map fold_left arrayStep].
  - split; [reflexivity | exact Hin].
  - cbn [snd] in Hv0, Hv1.
    destruct (dict !! name) as [i|] eqn:D.
    + rewrite (writeAt_in_range _ _ _ (Hrange _ _ D)).
      destruct (IH (<[i := Num v]> infl)) as [L F].
      * intros n j Dj. rewrite length_insert. exact (Hrange _ _ Dj).
      * apply Forall_insert; [exact Hin|].
        exists v. split; [reflexivity|]. split; lra.
      * cbn zeta in L, F. rewrite length_insert in L. split; assumption.
    + apply IH; assumption.
Qed.

Lemma frame_mesh_bounded (gains : gmap jsstr Q) (decayFactor bound : Q)
    (ctx : option Q) (rawDt : Q) (refs : Refs) (mesh : option SkinnedMesh) :
  0 <= decayFactor -> decayFactor <= 1 -> MORPH_CAP <= bound ->
  meshOk mesh -> influencesWithin bound mesh ->
  let mesh' :=
    fold_left meshStep (frame gains decayFactor ctx rawDt refs).2 mesh in
  meshOk mesh' /\ influencesWithin bound mesh'.
Proof.
  intros Hf0 Hf1 Hb Hok Hin mesh'. subst mesh'.
  destruct (frame_calls_shape gains decayFactor ctx rawDt refs)
    as [-> | (byName & -> & Hr)]; [split; assumption|].
  destruct mesh as [[d a]|].
  2:{ clear. induction (_ ++ _) as [|c l IH]; [split; exact I|].
      cbn [fold_left]. destruct c; exact IH. }
  destruct Hok as (dict & infl & Hd & Hi & Hrange & Hinj).
  cbn [morphTargetDictionary morphTargetInfluences] in Hd, Hi. subst d a.
  cbn [influencesWithin morphTargetInfluences] in Hin.
  rewrite meshSteps_array, fold_left_app. cbn [fold_left arrayStep].
  destruct (writes_keep_bound dict bound byName Hb Hr infl Hrange Hin)
    as [L F].
  cbn zeta in L, F.
  set (infl' := fold_left (arrayStep dict) _ infl) in *. clearbody infl'.
  split.
  - cbn [meshOk]. exists dict, (map (decaySlot decayFactor) infl').
    repeat split; [|exact Hinj].
    intros name i D. rewrite length_map, L. exact (Hrange _ _ D).
  - cbn [influencesWithin morphTargetInfluences].
    apply Forall_fmap. eapply Forall_impl; [exact F|].
    intros s (q & -> & Hq0 & Hq1). exists (q * decayFactor).
    split; [reflexivity|]. split; nra.
Qed.

(** X25.  With a decay factor between 0 and 1, a frame keeps the
    influences of loaded meshes in range: if every influence of the head
    and of the teeth is a number between 0 and a bound that is at least
    MORPH_CAP, the same holds after the calls of any frame, and both
    meshes keep their dictionary and array size (no write lands outside
    the array). *)
Theorem frame_keeps_influences_bounded (gains : gmap jsstr Q)
    (decayFactor bound : Q) (ctx : option Q) (rawDt : Q) (refs : Refs)
    (nodes : AvatarNodes) :
  0 <= decayFactor -> decayFactor <= 1 -> MORPH_CAP <= bound ->
  meshOk (Wolf3D_Head nodes) -> meshOk (Wolf3D_Teeth nodes) ->
  influencesWithin bound (Wolf3D_Head nodes) ->
  influencesWithin bound (Wolf3D_Teeth nodes) ->
  let nodes' :=
    applyCalls nodes (frame gains decayFactor ctx rawDt refs).2 in
  meshOk (Wolf3D_Head nodes') /\ meshOk (Wolf3D_Teeth nodes')
  /\ influencesWithin bound (Wolf3D_Head nodes')
  /\ influencesWithin bound (Wolf3D_Teeth nodes').
Proof.
  intros Hf0 Hf1 Hb Hh Ht Bh Bt nodes'. subst nodes'.
  rewrite applyCalls_meshes. cbn [Wolf3D_Head Wolf3D_Teeth].
  destruct (frame_mesh_bounded gains decayFactor bound ctx rawDt refs
              (Wolf3D_Head nodes) Hf0 Hf1 Hb Hh Bh) as [? ?].
  destruct (frame_mesh_bounded gains decayFactor bound ctx rawDt refs
              (Wolf3D_Teeth nodes) Hf0 Hf1 Hb Ht Bt) as [? ?].
  repeat split; assumption.
Qed.

Lemma frame_keeps_influences_bounded_witness :
  let calls := (frame perVisemeGain 0.85 (Some 0.05) 0.016 speakingRefs).2 in
  let nodes := {| Wolf3D_Head := Some faceMesh; Wolf3D_Teeth := None |} in
  length (written calls) = 2%nat
  /\ influencesWithin 1 (Wolf3D_Head (applyCalls nodes calls)).
Proof.
  intros calls nodes. split; [reflexivity|].
  refine (proj1 (proj2 (proj2
    (frame_keeps_influences_bounded perVisemeGain 0.85 1 (Some 0.05) 0.016
       speakingRefs nodes _ _ _ _ _ _ _)))).
  - discriminate.
  - discriminate.
  - discriminate.
  - eexists _, _. split; [reflexivity|]. split; [reflexivity|]. split.
    + intros name i H. apply elem_of_list_to_map_2 in H.
      apply elem_of_cons in H as [H|H]; [inversion H; cbn; lia|].
      apply elem_of_cons in H as [H|H]; [inversion H; cbn; lia|].
      apply elem_of_nil in H. destruct H.
    + intros n1 n2 i H1 H2.
      apply elem_of_list_to_map_2 in H1, H2.
      apply elem_of_cons in H1 as [H1|H1];
        [|apply elem_of_cons in H1 as [H1|H1];
          [|apply elem_of_nil in H1; destruct H1]];
        (apply elem_of_cons in H2 as [H2|H2];
         [|apply elem_of_cons in H2 as [H2|H2];
           [|apply elem_of_nil in H2; destruct H2]]);
        inversion H1; inversion H2; subst; try reflexivity; discriminate.
  - exact I.
  - constructor; [|constructor; [|constructor]].
    + exists 0.5. split; [reflexivity|]. split; discriminate.
    + exists 1. split; [reflexivity|]. split; discriminate.
  - exact I.
Defined.


(* ===================================================================== *)
(** ** The playback worklet *)
(* ===================================================================== *)

Lemma backlog_cons (buffer : list Z) (rest : list (list Z)) (offset : nat)
    (n : Z) (playing : bool) :
  (offset < length buffer)%nat ->
  exists v,
    buffer !! offset = Some v
    /\ backlog {| bufferQueue := buffer :: rest; readOffset := offset;
                  samplesRemaining := n; isPlaying := playing |}
       = v :: drop (S offset) buffer ++ concat rest.
Proof.
  intros H. destruct (lookup_lt_is_Some_2 buffer offset H) as [v Hv].
  exists v. split; [exact Hv|].
  unfold backlog. cbn [bufferQueue readOffset concat].
  rewrite drop_app_le by lia. rewrite (drop_S _ _ _ Hv). reflexivity.
Qed.

Lemma fillOutput_plays (todo : nat) :
  forall p,
    positioned p ->
    (fillOutput todo p).1
    = map sampleOf (take todo (backlog p))
      ++ replicate (todo - length (backlog p)) silence
    /\ backlog (fillOutput todo p).2 = drop todo (backlog p)
    /\ positioned (fillOutput todo p).2
    /\ samplesRemaining (fillOutput todo p).2
       = (samplesRemaining p
          - Z.of_nat (Nat.min todo (length (backlog p))))%Z
    /\ isPlaying (fillOutput todo p).2 = isPlaying p.
Proof.
  induction todo as [|todo IH]; intros [queue offset n playing] [Hne Hpos].
  - cbn [fillOutput fst snd]. rewrite take_0, drop_0, Nat.min_0_l.
    repeat split; [exact Hne | exact Hpos | cbn; lia].
  - cbn [bufferQueue readOffset] in Hne, Hpos.
    destruct queue as [|buffer rest].
    + subst offset. cbn [fillOutput bufferQueue fst snd].
      unfold backlog. cbn [bufferQueue readOffset concat].
      rewrite drop_nil, take_nil, drop_nil. cbn [map length app].
      rewrite Nat.sub_0_r, Nat.min_0_r.
      repeat split; [constructor | cbn; lia].
    + destruct (backlog_cons buffer rest offset n playing Hpos)
        as (v & Hv & Hb).
      rewrite Hb. apply Forall_cons in Hne as [Hbuf Hrest].
      cbn [fillOutput bufferQueue readOffset samplesRemaining isPlaying].
      unfold readSample. rewrite Hv.
      match goal with
      | |- context [fillOutput todo ?q] =>
          assert (Hq : positioned q
                       /\ backlog q = drop (S offset) buffer ++ concat rest
                       /\ samplesRemaining q = (n - 1)%Z
                       /\ isPlaying q = playing);
          [|destruct Hq as (Hq1 & Hq2 & Hq3 & Hq4);
            destruct (IH q Hq1) as (I1 & I2 & I3 & I4 & I5);
            destruct (fillOutput todo q) as [out p'];
            cbn [fst snd] in *; rewrite Hq2 in *]
      end.
      { destruct (length buffer <=? S offset)%nat eqn:E.
        - apply Nat.leb_le in E. rewrite drop_ge by lia.
          repeat split; try reflexivity; [exact Hrest|].
          cbn [bufferQueue readOffset]. destruct rest as [|b rest'];
            [reflexivity|].
          apply Forall_cons in Hrest as [Hb' _].
          destruct b; [congruence | cbn; lia].
        - apply Nat.leb_gt in E.
          repeat split; try reflexivity.
          + constructor; assumption.
          + exact E.
          + unfold backlog. cbn [bufferQueue readOffset concat].
            rewrite drop_app_le by lia. reflexivity. }
      cbn [take map app length drop Nat.sub].
      rewrite I1, I2, I4, I5, Hq3, Hq4.
      split; [reflexivity|]. split; [reflexivity|].
      split; [exact I3|]. split; [lia | reflexivity].
Qed.

(** X26.  The processor is a first-in first-out queue of samples.  In a
    coherent state and with chunks that are not empty: a chunk is appended
    to the backlog; a clear message empties it; a render quantum of [n]
    places plays the first [n] samples of the backlog, each divided by
    32768, and pads the block with zeros; the started notice is posted by
    the first quantum that finds samples, the stopped notice by the first
    quantum that finds none, and nothing else is posted.  The state stays
    coherent. *)
Theorem worklet_plays_in_order (p : Processor) (i : WorkletInput) :
  coherent p ->
  nonEmptyChunk i ->
  coherent (workletStep p i).1.1
  /\ match i with
     | PortMessage ClearQueue =>
         backlog (workletStep p i).1.1 = []
         /\ isPlaying (workletStep p i).1.1 = false
         /\ (workletStep p i).1.2 = [] /\ (workletStep p i).2 = []
     | PortMessage (Chunk pcm) =>
         backlog (workletStep p i).1.1 = backlog p ++ pcm
         /\ isPlaying (workletStep p i).1.1 = isPlaying p
         /\ (workletStep p i).1.2 = [] /\ (workletStep p i).2 = []
     | RenderQuantum None => workletStep p i = (p, [], [])
     | RenderQuantum (Some n) =>
         (workletStep p i).1.2
         = map sampleOf (take n (backlog p))
           ++ replicate (n - length (backlog p)) silence
         /\ backlog (workletStep p i).1.1 = drop n (backlog p)
         /\ isPlaying (workletStep p i).1.1
            = negb (bool_decide (backlog p = []))
         /\ (workletStep p i).2
            = if bool_decide (backlog p = [])
              then (if isPlaying p then [TtsPlaybackStopped] else [])
              else (if isPlaying p then [] else [TtsPlaybackStarted])
     end.
Proof.
  intros [[Hne Hpos] Hcount] Hi.
  destruct i as [[|pcm]|[n|]]; cbn [workletStep receive fst snd].
  - split; [|repeat split].
    split; [split; [constructor | reflexivity] | reflexivity].
  - cbn [nonEmptyChunk] in Hi.
    assert (Hb : backlog
                   {| bufferQueue := bufferQueue p ++ [pcm];
                      readOffset := readOffset p;
                      samplesRemaining :=
                        samplesRemaining p + Z.of_nat (length pcm);
                      isPlaying := isPlaying p |}
                 = backlog p ++ pcm).
    { unfold backlog. cbn [bufferQueue readOffset].
      rewrite concat_app. cbn [concat]. rewrite app_nil_r.
      apply drop_app_le.
      destruct (bufferQueue p) as [|b rest]; [lia|].
      cbn [concat]. rewrite length_app. lia. }
    split; [|repeat split; exact Hb].
    split; [split|].
    + cbn [bufferQueue]. apply Forall_app. split; [exact Hne|].
      constructor; [exact Hi | constructor].
    + cbn [bufferQueue readOffset].
      destruct (bufferQueue p) as [|b rest]; cbn [app].
      * rewrite Hpos. destruct pcm; [congruence | cbn; lia].
      * exact Hpos.
    + rewrite Hb, length_app. cbn [samplesRemaining]. lia.
  - unfold process.
    destruct (samplesRemaining p =? 0)%Z eqn:E.
    + apply Z.eqb_eq in E.
      assert (Hnil : backlog p = []).
      { apply length_zero_iff_nil. lia. }
      rewrite Hnil, take_nil, drop_nil. cbn [map app length].
      rewrite Nat.sub_0_r, (bool_decide_eq_true_2 _ eq_refl).
      destruct (isPlaying p) eqn:P; cbn [fst snd negb].
      * split; [|repeat split; try reflexivity; exact Hnil].
        split; [split; assumption|].
        change (samplesRemaining p
                = Z.of_nat (length (backlog p))). exact Hcount.
      * split; [|repeat split; try reflexivity; try exact P; exact Hnil].
        split; [split; assumption | exact Hcount].
    + apply Z.eqb_neq in E.
      assert (Hfull : backlog p <> []).
      { intros Hnil. rewrite Hnil in Hcount. cbn in Hcount. lia. }
      rewrite (bool_decide_eq_false_2 _ Hfull). cbn [negb].
      match goal with
      | |- context [fillOutput n ?q] =>
          assert (Hq : positioned q) by (split; assumption);
          assert (Hb : backlog q = backlog p) by reflexivity;
          destruct (fillOutput_plays n q Hq) as (I1 & I2 & I3 & I4 & I5);
          destruct (fillOutput n q) as [out p']
      end.
      cbn [fst snd] in *. rewrite Hb in *.
      cbn [samplesRemaining isPlaying] in I4, I5.
      split; [|repeat split; assumption].
      split; [exact I3|].
      rewrite I4, I2, length_drop, Hcount. lia.
  - split; [|reflexivity].
    split; [split; assumption | exact Hcount].
Qed.

Lemma worklet_plays_in_order_witness :
  let p := receive newProcessor (Chunk [16384; -16384; 8192]%Z) in
  (workletStep p (RenderQuantum (Some 2%nat))).1.2
  = [SampleValue (inject_Z 16384 / 32768);
     SampleValue (inject_Z (-16384) / 32768)]
  /\ backlog (workletStep p (RenderQuantum (Some 2%nat))).1.1 = [8192%Z].
Proof.
  intros p.
  assert (Hp : coherent p).
  { split; [split|].
    - repeat constructor. discriminate.
    - cbn. lia.
    - reflexivity. }
  destruct (worklet_plays_in_order p (RenderQuantum (Some 2%nat)) Hp I)
    as (_ & H1 & H2 & _).
  split; [exact H1 | exact H2].
Defined.


Lemma fillOutput_isPlaying (todo : nat) :
  forall p, isPlaying (fillOutput todo p).2 = isPlaying p.
Proof.
  induction todo as [|todo IH]; intros p; cbn [fillOutput].
  - reflexivity.
  - destruct (bufferQueue p) as [|buffer rest]; [reflexivity|].
    match goal with
    | |- context [fillOutput todo ?q] =>
        specialize (IH q); destruct (fillOutput todo q) as [out p']
    end.
    cbn [snd] in *. rewrite IH.
    destruct (length buffer <=? S (readOffset p))%nat; reflexivity.
Qed.

Lemma workletStep_notices (p : Processor) (i : WorkletInput) :
  notClear i ->
  ((workletStep p i).2 = []
   /\ isPlaying (workletStep p i).1.1 = isPlaying p)
  \/ ((workletStep p i).2 = [TtsPlaybackStarted]
      /\ isPlaying p = false /\ isPlaying (workletStep p i).1.1 = true)
  \/ ((workletStep p i).2 = [TtsPlaybackStopped]
      /\ isPlaying p = true /\ isPlaying (workletStep p i).1.1 = false).
Proof.
  intros Hi. destruct i as [[|pcm]|[n|]]; cbn [workletStep fst snd].
  - destruct Hi. reflexivity.
  - left. split; reflexivity.
  - unfold process.
    destruct (samplesRemaining p =? 0)%Z.
    + destruct (isPlaying p) eqn:P; cbn [fst snd].
      * right. right. repeat split.
      * left. split; [reflexivity | exact P].
    + match goal with
      | |- context [fillOutput n ?q] =>
          pose proof (fillOutput_isPlaying n q) as H;
          destruct (fillOutput n q) as [out p']
      end.
      cbn [fst snd isPlaying] in *.
      destruct (isPlaying p) eqn:P.
      * left. split; [reflexivity | exact H].
      * right. left. repeat split. exact H.
  - left. split; reflexivity.
Qed.

Lemma playingAfter_cons (playing : bool) (n : Notice) (l : list Notice) :
  playingAfter playing (n :: l)
  = playingAfter match n with
                 | TtsPlaybackStarted => true
                 | TtsPlaybackStopped => false
                 end l.
Proof.
  unfold playingAfter. destruct l as [|x l]; [reflexivity|].
  change (last (n :: x :: l)) with (last (x :: l)).
  destruct (last (x :: l)) eqn:L; [reflexivity|].
  apply last_None in L. discriminate.
Qed.

(** X27.  As long as no clear message arrives, the notices of the
    processor take turns: a started notice is posted only while the
    processor is not playing, a stopped notice only while it is, so the
    two alternate, and the playing flag at the end is the one the last
    notice announced. *)
Theorem worklet_notices_alternate (inputs : list WorkletInput) :
  forall p,
    Forall notClear inputs ->
    alternating (isPlaying p) (runWorklet p inputs).2
    /\ isPlaying (runWorklet p inputs).1
       = playingAfter (isPlaying p) (runWorklet p inputs).2.
Proof.
  induction inputs as [|i inputs IH]; intros p Hin; cbn [runWorklet].
  - split; [exact I | reflexivity].
  - apply Forall_cons in Hin as [Hi Hin].
    pose proof (workletStep_notices p i Hi) as Hstep.
    destruct (workletStep p i) as [[p1 out] posted].
    destruct (IH p1 Hin) as [A B].
    destruct (runWorklet p1 inputs) as [p2 later].
    cbn [fst snd] in *.
    destruct Hstep as [[-> E] | [(-> & E0 & E) | (-> & E0 & E)]];
      rewrite E in A, B; cbn [app].
    + split; [exact A | exact B].
    + split; [split; [exact E0 | exact A]|].
      rewrite B. symmetry. apply playingAfter_cons.
    + split; [split; [exact E0 | exact A]|].
      rewrite B. symmetry. apply playingAfter_cons.
Qed.

Lemma worklet_notices_alternate_witness :
  (runWorklet newProcessor
     [PortMessage (Chunk [100; 200]%Z);
      RenderQuantum (Some 4%nat);
      RenderQuantum (Some 4%nat);
      PortMessage (Chunk [300]%Z);
      RenderQuantum (Some 4%nat)]).2
  = [TtsPlaybackStarted; TtsPlaybackStopped; TtsPlaybackStarted]
  /\ alternating false
       (runWorklet newProcessor
          [PortMessage (Chunk [100; 200]%Z);
           RenderQuantum (Some 4%nat);
           RenderQuantum (Some 4%nat);
           PortMessage (Chunk [300]%Z);
           RenderQuantum (Some 4%nat)]).2.
Proof.
  split; [reflexivity|].
  apply (worklet_notices_alternate _ newProcessor).
  repeat constructor; discriminate.
Defined.


Lemma coherent_idle (p : Processor) :
  coherent p -> backlog p = [] ->
  bufferQueue p = [] /\ readOffset p = 0%nat /\ samplesRemaining p = 0%Z.
Proof.
  intros [[Hne Hpos] Hcount] Hnil. rewrite Hnil in Hcount.
  destruct (bufferQueue p) as [|b rest] eqn:Q.
  - repeat split; assumption.
  - exfalso. unfold backlog in Hnil. rewrite Q in Hnil. cbn [concat] in Hnil.
    apply (f_equal length) in Hnil.
    rewrite length_drop, length_app in Hnil. cbn in Hnil. lia.
Qed.

(** X28.  An empty chunk puts the counter out of step.  When an idle
    processor receives an empty chunk and then a chunk with samples, the
    next render quantum reads past the end of the empty chunk: its block
    starts with [NaN], the samples follow one place late, and after it
    [samplesRemaining] is one less than the number of samples waiting.
    If that quantum took the whole chunk, the counter stands at -1 with an
    empty queue: every further quantum is silent, changes nothing and
    posts no stopped notice. *)
Theorem empty_chunk_desynchronises (p : Processor) (pcm : list Z) (n : nat) :
  coherent p -> backlog p = [] ->
  pcm <> [] -> (0 < n)%nat ->
  let p1 := receive (receive p (Chunk [])) (Chunk pcm) in
  let r := process p1 (Some n) in
  r.1.2 = SampleNaN :: map sampleOf (take (n - 1) pcm)
                    ++ replicate (n - 1 - length pcm) silence
  /\ backlog r.1.1 = drop (n - 1) pcm
  /\ samplesRemaining r.1.1 = (Z.of_nat (length (backlog r.1.1)) - 1)%Z
  /\ ((length pcm < n)%nat ->
      forall m, process r.1.1 (Some m) = (r.1.1, replicate m silence, [])).
Proof.
  intros Hc Hnil Hpcm Hn p1 r.
  destruct (coherent_idle p Hc Hnil) as (Q & O & R).
  subst r p1. unfold receive, process.
  cbn [bufferQueue readOffset samplesRemaining isPlaying].
  rewrite Q, O, R. cbn [app length].
  assert (Hlen : (0 < length pcm)%nat).
  { destruct pcm; [congruence | cbn; lia]. }
  destruct (_ =? 0)%Z eqn:E; [apply Z.eqb_eq in E; lia|].
  destruct n as [|n]; [lia|].
  cbn [fillOutput bufferQueue readOffset samplesRemaining isPlaying
       length Nat.leb].
  change (readSample [] 0) with SampleNaN.
  rewrite Nat.sub_succ, Nat.sub_0_r.
  match goal with
  | |- context [fillOutput n ?q] =>
      assert (Hq : positioned q)
        by (split; [repeat constructor; exact Hpcm | exact Hlen]);
      assert (Hb : backlog q = pcm)
        by (unfold backlog; cbn [bufferQueue readOffset concat];
            rewrite app_nil_r; apply drop_0);
      destruct (fillOutput_plays n q Hq) as (I1 & I2 & I3 & I4 & I5);
      destruct (fillOutput n q) as [out p']
  end.
  cbn [fst snd samplesRemaining isPlaying] in *. rewrite Hb in *.
  split; [rewrite I1; reflexivity|].
  split; [exact I2|].
  split; [rewrite I4, I2, length_drop; lia|].
  intros Hall m.
  assert (Hempty : backlog p' = []).
  { rewrite I2. apply drop_ge. lia. }
  destruct I3 as [Hne' Hpos'].
  destruct p' as [queue offset rem playing].
  cbn [bufferQueue readOffset samplesRemaining isPlaying] in *.
  subst playing.
  assert (queue = []) as ->.
  { destruct queue as [|b rest]; [reflexivity|]. exfalso.
    unfold backlog in Hempty. cbn [bufferQueue readOffset concat] in Hempty.
    apply (f_equal length) in Hempty.
    rewrite length_drop, length_app in Hempty. cbn in Hempty. lia. }
  rewrite Nat.min_r in I4 by lia.
  assert (rem = (-1)%Z) as -> by lia.
  cbn [Z.eqb]. destruct m as [|m]; reflexivity.
Qed.

Lemma empty_chunk_desynchronises_witness :
  (process (receive (receive newProcessor (Chunk [])) (Chunk [100; 200]%Z))
           (Some 4%nat)).1.2
  = [SampleNaN; sampleOf 100; sampleOf 200; silence]
  /\ samplesRemaining
       (process (receive (receive newProcessor (Chunk []))
                         (Chunk [100; 200]%Z))
                (Some 4%nat)).1.1 = (-1)%Z.
Proof.
  assert (Hc : coherent newProcessor).
  { split; [split; [constructor | reflexivity] | reflexivity]. }
  destruct (empty_chunk_desynchronises newProcessor [100; 200]%Z 4
              Hc eq_refl ltac:(discriminate) ltac:(lia))
    as (H1 & _ & H3 & _).
  split; [exact H1 | exact H3].
Defined.


(* ===================================================================== *)
(** ** Playback signals on the main thread *)
(* ===================================================================== *)

Section MainThread.
Context {U : UnicodeData}.

Lemma onWordTiming_t0 (refs : Refs) (content : Content) :
  t0Ref (onWordTiming refs content) = t0Ref refs.
Proof.
  unfold onWordTiming.
  destruct (normalizeWordsToAbsolute _ _) as [adjusted seg].
  cbn [t0Ref]. destruct (t0Ref refs) as [t0|] eqn:E.
  - match goal with |- context [pushWordsToTimeline ?r ?a] =>
      destruct (pushWordsToTimeline_frame r a) as [-> _] end.
    reflexivity.
  - reflexivity.
Qed.

Lemma frame_t0 (gains : gmap jsstr Q) (decayFactor : Q) (ctx : option Q)
    (rawDt : Q) (refs : Refs) :
  t0Ref (frame gains decayFactor ctx rawDt refs).1 = t0Ref refs.
Proof.
  unfold frame. destruct ctx as [currentTime|]; [|reflexivity].
  destruct (t0Ref refs) as [t0|] eqn:E; [|exact E].
  destruct (promoteDueEvents _ _ _) as [pending active]. reflexivity.
Qed.

Lemma mainStep_muted (s : Playback) (i : MainInput) :
  isTTSPlayingRef s = true ->
  t0Ref (lipsync s) = None ->
  pendingEventsRef (lipsync s) = [] ->
  activeEnvelopesRef (lipsync s) = [] ->
  notStoppedNotice i ->
  isTTSPlayingRef (mainStep s i).1 = true
  /\ t0Ref (lipsync (mainStep s i).1) = None
  /\ pendingEventsRef (lipsync (mainStep s i).1) = []
  /\ activeEnvelopesRef (lipsync (mainStep s i).1) = []
  /\ (mainStep s i).2 = [].
Proof.
  intros P T Hp Ha Hi.
  destruct i as [socketOpen currentTime type|nodeReady|content|ctx rawDt];
    cbn [mainStep fst snd].
  - destruct type; [|destruct Hi].
    unfold onPortMessage. rewrite P. cbn [negb fst].
    repeat split; assumption.
  - unfold stopTTSPlayback.
    destruct nodeReady; cbn [negb fst isTTSPlayingRef lipsync];
      repeat split; assumption.
  - cbn [isTTSPlayingRef lipsync]. split; [exact P|].
    unfold onWordTiming.
    destruct (normalizeWordsToAbsolute _ _) as [adjusted seg].
    cbn [t0Ref]. rewrite T.
    cbn [t0Ref pendingEventsRef activeEnvelopesRef].
    repeat split; assumption.
  - unfold frame.
    destruct ctx as [currentTime|]; rewrite ?T;
      cbn [fst snd isTTSPlayingRef lipsync]; repeat split; assumption.
Qed.

(** X29.  [stopTTSPlayback] clears the lip-sync state but leaves the
    playing flag set.  From then until a stopped notice of the processor
    arrives, started notices are ignored: whatever else happens (started
    notices, further stops, word deliveries, render ticks), the clock is
    not anchored, nothing is scheduled or active, and no render tick calls
    the sink. *)
Theorem started_ignored_after_stop (inputs : list MainInput) (s : Playback) :
  isTTSPlayingRef s = true ->
  Forall notStoppedNotice inputs ->
  let r := runMain (stopTTSPlayback true s).1 inputs in
  isTTSPlayingRef r.1 = true
  /\ t0Ref (lipsync r.1) = None
  /\ pendingEventsRef (lipsync r.1) = []
  /\ activeEnvelopesRef (lipsync r.1) = []
  /\ r.2 = [].
Proof.
  intros P Hin r. subst r.
  assert (H : isTTSPlayingRef (stopTTSPlayback true s).1 = true
              /\ t0Ref (lipsync (stopTTSPlayback true s).1) = None
              /\ pendingEventsRef (lipsync (stopTTSPlayback true s).1) = []
              /\ activeEnvelopesRef (lipsync (stopTTSPlayback true s).1) = []).
  { repeat split. exact P. }
  generalize dependent (stopTTSPlayback true s).1. clear s P.
  induction Hin as [|i inputs Hi Hin IH]; intros s (P & T & Hp & Ha);
    cbn [runMain].
  - repeat split; assumption.
  - destruct (mainStep_muted s i P T Hp Ha Hi) as (P1 & T1 & Hp1 & Ha1 & C1).
    destruct (mainStep s i) as [s1 calls]. cbn [fst snd] in *.
    specialize (IH s1 (conj P1 (conj T1 (conj Hp1 Ha1)))).
    destruct (runMain s1 inputs) as [s2 later]. cbn [fst snd] in *.
    subst calls. exact IH.
Qed.

Lemma mainStep_anchored (s : Playback) (i : MainInput) :
  anchoredWhilePlaying s -> anchoredWhilePlaying (mainStep s i).1.
Proof.
  unfold anchoredWhilePlaying. intros Inv.
  destruct i as [socketOpen currentTime type|nodeReady|content|ctx rawDt];
    cbn [mainStep fst].
  - unfold onPortMessage. destruct type.
    + destruct (isTTSPlayingRef s) eqn:P; cbn [negb fst].
      * intros _. exact P.
      * intros _. reflexivity.
    + destruct (isTTSPlayingRef s) eqn:P; cbn [fst].
      * cbn [lipsync onPlaybackStopped t0Ref]. congruence.
      * intros H. specialize (Inv H). congruence.
  - unfold stopTTSPlayback. destruct nodeReady; cbn [negb fst].
    + cbn [lipsync onPlaybackStopped t0Ref]. congruence.
    + exact Inv.
  - cbn [lipsync isTTSPlayingRef]. rewrite onWordTiming_t0. exact Inv.
  - pose proof (frame_t0 perVisemeGain 0.85 ctx rawDt (lipsync s)) as E.
    destruct (frame _ _ _ _ _) as [refs calls].
    cbn [fst lipsync isTTSPlayingRef] in *. rewrite E. exact Inv.
Qed.

(** X30.  The clock is anchored only while the playing flag is set: every
    notice, stop, word delivery and render tick keeps this true once it
    holds, as it does when the page loads.  So a render tick that calls
    the sink always finds the playing flag set. *)
Theorem sink_called_only_while_playing (inputs : list MainInput) :
  forall s,
    anchoredWhilePlaying s ->
    let s' := (runMain s inputs).1 in
    anchoredWhilePlaying s'
    /\ forall ctx rawDt,
         (mainStep s' (RenderTick ctx rawDt)).2 <> [] ->
         isTTSPlayingRef s' = true.
Proof.
  induction inputs as [|i inputs IH]; intros s Inv; cbn [runMain].
  - cbn [fst]. split; [exact Inv|].
    intros ctx rawDt Hcalls. apply Inv. intros T. apply Hcalls.
    cbn [mainStep]. unfold frame. rewrite T.
    destruct ctx; reflexivity.
  - pose proof (mainStep_anchored s i Inv) as Inv1.
    destruct (mainStep s i) as [s1 calls]. cbn [fst] in Inv1.
    specialize (IH s1 Inv1).
    destruct (runMain s1 inputs) as [s2 later]. exact IH.
Qed.

End MainThread.

Lemma started_ignored_after_stop_witness :
  let s := {| isTTSPlayingRef := true;
              isAwaitingBotResponseRef := true;
              lipsync := onPlaybackStarted (U := composedText) 1
                           (onWordTiming (U := composedText) initialRefs
                              (OneWord (rawWord "cat" "kæt" 0.0 0.3))) |} in
  let r := runMain (U := composedText) (stopTTSPlayback true s).1
             [WordTimingContent (OneWord (rawWord "huh" "hʌh" 0 0.25));
              PortNotice true 2 TtsPlaybackStarted;
              RenderTick (Some 2.1) 0.016] in
  t0Ref (lipsync r.1) = None /\ r.2 = [].
Proof.
  intros s r.
  destruct (started_ignored_after_stop (U := composedText)
              [WordTimingContent (OneWord (rawWord "huh" "hʌh" 0 0.25));
               PortNotice true 2 TtsPlaybackStarted;
               RenderTick (Some 2.1) 0.016] s eq_refl)
    as (_ & T & _ & _ & C).
  - repeat constructor.
  - split; [exact T | exact C].
Defined.

Lemma sink_called_only_while_playing_witness :
  let s := {| isTTSPlayingRef := false;
              isAwaitingBotResponseRef := false;
              lipsync := initialRefs |} in
  anchoredWhilePlaying
    (runMain (U := composedText) s
       [WordTimingContent (OneWord (rawWord "cat" "kæt" 0.0 0.3));
        PortNotice true 1 TtsPlaybackStarted;
        RenderTick (Some 1.05) 0.016]).1.
Proof.
  intros s.
  refine (proj1 (sink_called_only_while_playing (U := composedText) _ s _)).
  intros T. destruct T. reflexivity.
Defined.


(* ===================================================================== *)
(** ** Deduplication across the event loop *)
(* ===================================================================== *)

Section DedupLoop.
Context {U : UnicodeData}.

Lemma pushWordsToTimeline_covers (refs : Refs) (wordsAbs : list WordTiming) :
  seenEventsRef refs ⊆ seenEventsRef (pushWordsToTimeline refs wordsAbs)
  /\ Forall (covered (seenEventsRef (pushWordsToTimeline refs wordsAbs)))
            wordsAbs.
Proof.
  unfold pushWordsToTimeline.
  destruct wordsAbs as [|w ws]; [split; [reflexivity | constructor]|].
  set (sorted := sortByKey w_start (w :: ws)).
  pose proof (pushWords_grow sorted
                (seenEventsRef refs, pendingEventsRef refs)) as [Hs Hc].
  destruct (fold_left pushWord sorted _) as [seen pending].
  cbn [fst seenEventsRef] in *.
  split; [exact Hs|].
  rewrite <- (sortByKey_perm w_start (w :: ws)). exact Hc.
Qed.

Lemma handle_seen (refs : Refs) (i : Input) :
  i <> PlaybackStopped ->
  seenEventsRef refs ⊆ seenEventsRef (handle refs i).
Proof.
  intros Hi. destruct i as [content|now| |ctx rawDt]; cbn [handle].
  - unfold onWordTiming.
    destruct (normalizeWordsToAbsolute _ _) as [adjusted seg].
    cbn [t0Ref]. destruct (t0Ref refs) as [t0|]; [|reflexivity].
    match goal with |- context [pushWordsToTimeline ?r ?a] =>
      exact (proj1 (pushWordsToTimeline_covers r a)) end.
  - unfold onPlaybackStarted, prepareTimelineFromWords.
    cbn [wordQueueRef seenEventsRef].
    destruct (prepareWords_append (wordQueueRef refs) (seenEventsRef refs) [])
      as (new & _ & Hs & _).
    destruct (fold_left _ _ _) as [seen events]. exact Hs.
  - congruence.
  - unfold frame. destruct ctx as [currentTime|]; [|reflexivity].
    destruct (t0Ref refs) as [t0|]; [|reflexivity].
    destruct (promoteDueEvents _ _ _) as [pending active]. reflexivity.
Qed.

Lemma run_seen (inputs : list Input) :
  forall refs,
    Forall (fun i => i <> PlaybackStopped) inputs ->
    seenEventsRef refs ⊆ seenEventsRef (run refs inputs).
Proof.
  unfold run. induction inputs as [|i inputs IH]; intros refs Hin;
    cbn [fold_left]; [reflexivity|].
  apply Forall_cons in Hin as [Hi Hin].
  etransitivity; [apply (handle_seen refs i Hi) | apply IH, Hin].
Qed.

(** A push of words whose events are all recorded adds nothing. *)
Lemma push_of_covered (refs : Refs) (wordsAbs : list WordTiming) :
  Forall (covered (seenEventsRef refs)) wordsAbs ->
  fold_left pushWord (sortByKey w_start wordsAbs)
            (seenEventsRef refs, pendingEventsRef refs)
  = (seenEventsRef refs, pendingEventsRef refs)
  /\ seenEventsRef (pushWordsToTimeline refs wordsAbs) = seenEventsRef refs
  /\ pendingEventsRef (pushWordsToTimeline refs wordsAbs)
     = match wordsAbs with
       | [] => pendingEventsRef refs
       | _ => decimateTimeline (sortByKey ev_at (pendingEventsRef refs))
       end
  /\ (length (pendingEventsRef (pushWordsToTimeline refs wordsAbs))
      <= length (pendingEventsRef refs))%nat.
Proof.
  intros Hcov.
  assert (Hloop : fold_left pushWord (sortByKey w_start wordsAbs)
                    (seenEventsRef refs, pendingEventsRef refs)
                  = (seenEventsRef refs, pendingEventsRef refs)).
  { apply pushWords_noop.
    rewrite (sortByKey_perm w_start wordsAbs). exact Hcov. }
  split; [exact Hloop|].
  destruct wordsAbs as [|w ws]; [repeat split; reflexivity|].
  unfold pushWordsToTimeline. rewrite Hloop.
  cbn [seenEventsRef pendingEventsRef].
  repeat split.
  etransitivity; [apply decimateTimeline_length|].
  rewrite (Permutation_length (sortByKey_perm ev_at _)). reflexivity.
Qed.

End DedupLoop.

(** C3, as amended.  Once a batch of absolute words has been pushed to the
    timeline, pushing the same words again within the segment adds
    nothing, whatever happened in between short of a playback stop
    (deliveries, a playback start, frames): every event of the batch is
    found in the dedup set, so the push loop adds nothing and leaves the
    dedup set as it is; the pending queue is only sorted and curated
    again, and does not grow. *)
Theorem C3_second_push_adds_nothing (U : UnicodeData) (refs : Refs)
    (wordsAbs : list WordTiming) (between : list Input) :
  Forall (fun i => i <> PlaybackStopped) between ->
  let refs1 := pushWordsToTimeline refs wordsAbs in
  let refs2 := run refs1 between in
  let refs3 := pushWordsToTimeline refs2 wordsAbs in
  fold_left pushWord (sortByKey w_start wordsAbs)
            (seenEventsRef refs2, pendingEventsRef refs2)
  = (seenEventsRef refs2, pendingEventsRef refs2)
  /\ seenEventsRef refs3 = seenEventsRef refs2
  /\ pendingEventsRef refs3
     = match wordsAbs with
       | [] => pendingEventsRef refs2
       | _ => decimateTimeline (sortByKey ev_at (pendingEventsRef refs2))
       end
  /\ (length (pendingEventsRef refs3) <= length (pendingEventsRef refs2))%nat.
Proof.
  intros Hin refs1 refs2 refs3. subst refs3.
  apply push_of_covered.
  eapply Forall_impl;
    [exact (proj2 (pushWordsToTimeline_covers refs wordsAbs))|].
  intros w Hw. eapply covered_mono; [|exact Hw].
  subst refs2 refs1. apply run_seen, Hin.
Qed.

Lemma C3_second_push_adds_nothing_witness :
  let playing := onPlaybackStarted (U := composedText) 0 initialRefs in
  let between :=
    [FrameTick (Some 0.05) 0.016;
     WordTimingMsg (OneWord (rawWord "sat" "sæt" 0.75 1.5));
     FrameTick (Some 0.3) 0.016] in
  let refs2 :=
    run (U := composedText)
        (pushWordsToTimeline (U := composedText) playing [cat]) between in
  let refs3 := pushWordsToTimeline (U := composedText) refs2 [cat] in
  length (pendingEventsRef refs2) = 3%nat
  /\ seenEventsRef refs3 = seenEventsRef refs2
  /\ (length (pendingEventsRef refs3) <= length (pendingEventsRef refs2))%nat.
Proof.
  intros playing between refs2 refs3.
  assert (Hin : Forall (fun i => i <> PlaybackStopped) between)
    by (repeat constructor; discriminate).
  destruct (C3_second_push_adds_nothing composedText playing [cat] between Hin)
    as (_ & Hs & _ & Hl).
  split; [reflexivity|]. split; [exact Hs | exact Hl].
Defined.
